(** * gitstats: per-author, per-month line statistics from [git log --shortstat]

    A shallow embedding of [main.go] and the properties of its parser,
    aggregator, month loop and reporter.

    Conventions of the embedding:
    - a Go [string] is a Rocq [string] (a sequence of bytes);
    - a Go [int] is a [Z] kept in the signed 64-bit range, every addition
    wrapping around as on amd64/arm64 ([GoInt.add]);
    - a Go [map] is a [gmap]; a [range] over a map may visit the entries in
    any order, so loops over maps are folds over an arbitrary enumeration
    of the entries ([GoMap.ranges]);
    - the external collaborators ([git], [os.ReadDir], [time.Now]) are
    oracles passed in an environment record. *)

From Stdlib Require Import ZArith Lia String Ascii List Permutation Sorted.
From Stdlib Require OrderedTypeEx.
From stdpp Require Import base option list gmap fin_maps strings sorting.

Local Open Scope string_scope.
Local Open Scope Z_scope.

#[local] Arguments String.append : simpl nomatch.
#[local] Arguments Ascii.eqb !_ !_.

(** ** Go's [int] *)

Module GoInt.

Definition bits : Z := 64.
Definition modulus : Z := 2 ^ bits.
Definition half : Z := 2 ^ (bits - 1).
Definition maxInt : Z := half - 1.
Definition minInt : Z := - half.

(** The value a 64-bit two's complement register holds for [z]. *)
Definition wrap (z : Z) : Z := (z + half) mod modulus - half.

(** [a + b] and [a += b] on [int]. *)
Definition add (a b : Z) : Z := wrap (a + b).

Definition inRange (z : Z) : Prop := minInt <= z <= maxInt.

End GoInt.

(** ** The parts of package [strings] the program calls *)

Module GoStrings.

Definition newline : ascii := "010"%char.

(** [strings.HasPrefix(s, p)]. *)
Fixpoint HasPrefix (s p : string) {struct p} : bool :=
  match p, s with
  | EmptyString, _ => true
  | String _ _, EmptyString => false
  | String c p', String d s' => if Ascii.eqb c d then HasPrefix s' p' else false
  end.

(** [strings.Contains(s, substr)]: some suffix of [s] starts with [substr]. *)
Fixpoint Contains (s substr : string) : bool :=
  HasPrefix s substr ||
  match s with
  | EmptyString => false
  | String _ s' => Contains s' substr
  end.

(** [strings.Split(s, sep)] for a one-byte separator: the pieces between
    the separators, in order; always at least one piece. *)
Fixpoint Split (s : string) (sep : ascii) : list string :=
  match s with
  | EmptyString => [EmptyString]
  | String c s' =>
      if Ascii.eqb c sep then EmptyString :: Split s' sep
      else match Split s' sep with
           | piece :: pieces => String c piece :: pieces
           | [] => [String c EmptyString]
           end
  end.

(** [strings.TrimPrefix]-like helper returning what follows the prefix. *)
Fixpoint CutPrefix (s p : string) {struct p} : option string :=
  match p, s with
  | EmptyString, _ => Some s
  | String _ _, EmptyString => None
  | String c p', String d s' => if Ascii.eqb c d then CutPrefix s' p' else None
  end.

(** [strings.Join(elems, sep)]. *)
Fixpoint Join (elems : list string) (sep : string) : string :=
  match elems with
  | [] => EmptyString
  | [e] => e
  | e :: elems' => (e ++ sep ++ Join elems' sep)%string
  end.

(** [a < b] on strings: byte-wise lexicographic order, the order of
    [sort.Strings]. *)
Definition Less (a b : string) : bool := String.ltb a b.

End GoStrings.

(** ** The fragment of package [regexp] the two patterns need

    Both patterns have the shape [(\d+) word s?\(sign\)]: a capturing group
    of one or more ASCII digits, literal text and one optional character.
    The matcher is the backtracking, leftmost-first matcher of Go's RE2
    syntax restricted to these atoms: greedy atoms try their longest
    alternative first and a match is searched from the leftmost start. *)

Module Regexp.

Inductive atom : Type :=
| CaptureDigits            (* (\d+) *)
| Literal (text : string)  (* literal bytes *)
| Optional (c : ascii).    (* c? *)

Definition Regexp : Type := list atom.

Definition isDigit (c : ascii) : bool :=
  let n := nat_of_ascii c in (48 <=? n)%nat && (n <=? 57)%nat.

(** All the ways [\d+] can match a prefix of [s], as (digits, rest),
    longest first (greedy). *)
Fixpoint digitRuns (s : string) : list (string * string) :=
  match s with
  | String c s' =>
      if isDigit c then
        map (fun dr => (String c (fst dr), snd dr)) (digitRuns s')
          ++ [(String c EmptyString, s')]
      else []
  | EmptyString => []
  end.

(** The first alternative that succeeds. *)
Fixpoint firstMatch {A B : Type} (f : A -> option B) (alts : list A) : option B :=
  match alts with
  | [] => None
  | a :: alts' => match f a with Some b => Some b | None => firstMatch f alts' end
  end.

(** Match the atoms at the start of [s]; the result is the text of
    capture group 1 ([cap] until the group has been matched). *)
Fixpoint matchHere (re : Regexp) (cap : string) (s : string) : option string :=
  match re with
  | [] => Some cap
  | CaptureDigits :: re' =>
      firstMatch (fun dr => matchHere re' (fst dr) (snd dr)) (digitRuns s)
  | Literal text :: re' =>
      match GoStrings.CutPrefix s text with
      | Some s' => matchHere re' cap s'
      | None => None
      end
  | Optional c :: re' =>
      match s with
      | String d s' =>
          if Ascii.eqb c d then
            match matchHere re' cap s' with
            | Some r => Some r
            | None => matchHere re' cap s
            end
          else matchHere re' cap s
      | EmptyString => matchHere re' cap s
      end
  end.

(** [re.FindStringSubmatch(s)], reduced to what the program reads from
    it: [None] for the nil slice (no match), [Some g] where [g] is
    element [1] of the slice (capture group 1) of the leftmost match. *)
Fixpoint FindStringSubmatch (re : Regexp) (s : string) : option string :=
  match matchHere re EmptyString s with
  | Some g => Some g
  | None =>
      match s with
      | EmptyString => None
      | String _ s' => FindStringSubmatch re s'
      end
  end.

End Regexp.

(** ** [fmt.Sscanf(s, "%d", &n)] *)

Module Fmt.

Definition digitValue (c : ascii) : Z := Z.of_nat (nat_of_ascii c) - 48.

(** The number written by a string of decimal digits, most significant
    first, continuing from [acc]; [None] when a byte is not a digit. *)
Fixpoint decimal (acc : Z) (s : string) : option Z :=
  match s with
  | EmptyString => Some acc
  | String c s' =>
      if Regexp.isDigit c then decimal (10 * acc + digitValue c) s' else None
  end.

(** [Sscanf] with verb [%d] on a token: [Some n] when the token is a
    non-empty run of digits whose value fits an [int]; otherwise the scan
    reports an error and stores nothing ([strconv.ParseInt] range error). *)
Definition Sscanf_d (s : string) : option Z :=
  match s with
  | EmptyString => None
  | _ =>
      match decimal 0 s with
      | Some n => if n <=? GoInt.maxInt then Some n else None
      | None => None
      end
  end.

End Fmt.

(** ** The parts of package [time] the program calls

    Only calendar dates matter to the program ([Date()] drops the clock),
    so an instant is modelled by its civil date in its own location. *)

Module GoTime.

Record Time : Type := mkTime { Year : Z; Month : Z; Day : Z }.

Definition isLeap (y : Z) : bool :=
  (y mod 4 =? 0) && (negb (y mod 100 =? 0) || (y mod 400 =? 0)).

Definition daysIn (y m : Z) : Z :=
  if m =? 2 then (if isLeap y then 29 else 28)
  else if (m =? 4) || (m =? 6) || (m =? 9) || (m =? 11) then 30
  else 31.

(** [norm(year, month-1, 12)]: months outside 1..12 carry into the year. *)
Definition normMonth (y m : Z) : Z * Z := (y + (m - 1) / 12, (m - 1) mod 12 + 1).

Definition prevMonth (y m : Z) : Z * Z := if m =? 1 then (y - 1, 12) else (y, m - 1).
Definition nextMonth (y m : Z) : Z * Z := if m =? 12 then (y + 1, 1) else (y, m + 1).

(** Days outside the month overflow into the neighbouring months, as
    [time.Date] does by counting days from the first of the month:
    October 31 plus one month is November 31, that is December 1. *)
Fixpoint normDay (fuel : nat) (y m d : Z) : Time :=
  match fuel with
  | O => mkTime y m d
  | S fuel' =>
      if d <? 1 then
        let (y', m') := prevMonth y m in normDay fuel' y' m' (d + daysIn y' m')
      else if daysIn y m <? d then
        let (y', m') := nextMonth y m in normDay fuel' y' m' (d - daysIn y m)
      else mkTime y m d
  end.

(** [time.Date(year, month, day, 0, 0, 0, 0, loc)], read back by [Date()]. *)
Definition Date (y m d : Z) : Time :=
  let (y', m') := normMonth y m in
  normDay (S (Z.to_nat (Z.abs d))) y' m' d.

(** [t.AddDate(years, months, days)]. *)
Definition AddDate (t : Time) (years months days : Z) : Time :=
  Date (Year t + years) (Month t + months) (Day t + days).

Definition digitChar (d : Z) : ascii := ascii_of_nat (Z.to_nat (48 + d)).

(** The decimal digits of [u >= 0], least significant last. *)
Fixpoint digits (fuel : nat) (u : Z) (acc : string) : string :=
  match fuel with
  | O => acc
  | S fuel' =>
      let acc' := String (digitChar (u mod 10)) acc in
      if u <? 10 then acc' else digits fuel' (u / 10) acc'
  end.

Fixpoint zeros (n : nat) (s : string) : string :=
  match n with O => s | S n' => String "0"%char (zeros n' s) end.

(** [appendInt(b, x, width)] of package [time]: a minus sign for a
    negative [x], then its digits padded with zeros to [width]. *)
Definition appendInt (x : Z) (width : nat) : string :=
  let u := Z.abs x in
  let sign := if x <? 0 then "-" else "" in
  let ds :=
    if Nat.eqb width 2 && (u <? 100) then
      String (digitChar (u / 10)) (String (digitChar (u mod 10)) "")
    else if Nat.eqb width 4 && (u <? 10000) then
      String (digitChar (u / 1000)) (String (digitChar (u / 100 mod 10))
        (String (digitChar (u / 10 mod 10)) (String (digitChar (u mod 10)) "")))
    else
      let d := digits (S (Z.to_nat (Z.log2 u))) u "" in
      zeros (width - String.length d) d in
  (sign ++ ds)%string.

Definition longMonthNames : list string :=
  ["January"; "February"; "March"; "April"; "May"; "June"; "July";
   "August"; "September"; "October"; "November"; "December"].

(** [Month.String()]. *)
Definition MonthString (m : Z) : string :=
  if (1 <=? m) && (m <=? 12) then nth (Z.to_nat (m - 1)) longMonthNames ""
  else ("%!Month(" ++ appendInt m 0 ++ ")")%string.

(** The chunks a layout string is made of. *)
Inductive chunk : Type :=
| stdLongYear              (* 2006 *)
| stdZeroMonth             (* 01 *)
| stdZeroDay               (* 02 *)
| stdLongMonth             (* January *)
| text (s : string).

Definition formatChunk (t : Time) (c : chunk) : string :=
  match c with
  | stdLongYear => appendInt (Year t) 4
  | stdZeroMonth => appendInt (Month t) 2
  | stdZeroDay => appendInt (Day t) 2
  | stdLongMonth => MonthString (Month t)
  | text s => s
  end.

(** [t.Format(layout)] for a layout already cut into its chunks. *)
Definition Format (t : Time) (layout : list chunk) : string :=
  fold_right (fun c rest => (formatChunk t c ++ rest)%string) "" layout.

(** The layout ["2006-01-02"]. *)
Definition layoutDate : list chunk :=
  [stdLongYear; text "-"; stdZeroMonth; text "-"; stdZeroDay].

(** The layout ["(2006-01) January 2006"]. *)
Definition layoutMonth : list chunk :=
  [text "("; stdLongYear; text "-"; stdZeroMonth; text ") ";
   stdLongMonth; text " "; stdLongYear].

End GoTime.

(** ** The part of package [unicode/utf8] that [fmt] pads with *)

Module Utf8.

Definition byte (c : ascii) : Z := Z.of_nat (nat_of_ascii c).

Definition locb : Z := 128.
Definition hicb : Z := 191.

(** The table [first] with [acceptRanges]: for a leading byte above
    ASCII the size of its sequence and the range of its second byte;
    [None] for a byte that cannot start a sequence. *)
Definition first (c : ascii) : option (nat * (Z * Z)) :=
  let b := byte c in
  if b <? 194 then None                               (* 0x80-0xC1 *)
  else if b <? 224 then Some (2%nat, (locb, hicb))    (* 0xC2-0xDF *)
  else if b =? 224 then Some (3%nat, (160, hicb))     (* 0xE0 *)
  else if b <? 237 then Some (3%nat, (locb, hicb))    (* 0xE1-0xEC *)
  else if b =? 237 then Some (3%nat, (locb, 159))     (* 0xED *)
  else if b <? 240 then Some (3%nat, (locb, hicb))    (* 0xEE-0xEF *)
  else if b =? 240 then Some (4%nat, (144, hicb))     (* 0xF0 *)
  else if b <? 244 then Some (4%nat, (locb, hicb))    (* 0xF1-0xF3 *)
  else if b =? 244 then Some (4%nat, (locb, 143))     (* 0xF4 *)
  else None.                                          (* 0xF5-0xFF *)

Definition within (lo hi : Z) (c : ascii) : bool := (lo <=? byte c) && (byte c <=? hi).

(** The number of bytes that the rune starting with [c] takes, [rest]
    being what follows [c]: 1 for ASCII and for a byte that starts no
    well-formed sequence. *)
Definition runeSize (c : ascii) (rest : string) : nat :=
  if byte c <? 128 then 1%nat
  else
    match first c with
    | None => 1%nat
    | Some (size, (lo, hi)) =>
        if (String.length rest <? size - 1)%nat then 1%nat
        else
          match size, rest with
          | 2%nat, String c1 _ => if within lo hi c1 then 2%nat else 1%nat
          | 3%nat, String c1 (String c2 _) =>
              if within lo hi c1 && within locb hicb c2 then 3%nat else 1%nat
          | 4%nat, String c1 (String c2 (String c3 _)) =>
              if within lo hi c1 && within locb hicb c2 && within locb hicb c3
              then 4%nat else 1%nat
          | _, _ => 1%nat
          end
    end.

(** The loop of [RuneCountInString]; [skip] bytes of the current rune
    are still to be passed. *)
Fixpoint runeCount (skip : nat) (s : string) : nat :=
  match s with
  | EmptyString => O
  | String c s' =>
      match skip with
      | S skip' => runeCount skip' s'
      | O => S (runeCount (runeSize c s' - 1) s')
      end
  end.

Definition RuneCountInString (s : string) : nat := runeCount 0 s.

End Utf8.

(** ** The verbs of [fmt.Printf] that the report uses *)

Module FmtPrint.

Fixpoint spaces (n : nat) : string :=
  match n with O => "" | S n' => String " "%char (spaces n') end.

(** [writePadding]: the spaces that fill [s] up to [wid] runes. *)
Definition padding (wid : nat) (s : string) : string :=
  spaces (wid - Utf8.RuneCountInString s).

(** [%-30s]: padded on the right. *)
Definition padRight (wid : nat) (s : string) : string := (s ++ padding wid s)%string.

(** [%5d]: padded on the left. *)
Definition padLeft (wid : nat) (s : string) : string := (padding wid s ++ s)%string.

(** [%d]: the sign of a negative number and its decimal digits. *)
Definition formatInt (x : Z) : string :=
  ((if (x <? 0)%Z then "-" else "")
     ++ GoTime.digits (S (Z.to_nat (Z.log2 (Z.abs x)))) (Z.abs x) "")%string.

End FmtPrint.

(** ** Ranging over maps and sorting slices

    Go leaves the order of a [range] over a map unspecified, and
    [sort.Slice] is not stable: both are relations between the input and
    the sequence the program sees. *)

Module GoMap.

(** [entries] is an order in which [for k, v := range m] may visit [m]. *)
Definition ranges {A : Type} (m : gmap string A) (entries : list (string * A)) : Prop :=
  entries ≡ₚ map_to_list m.

(** The loop [for k, v := range m { acc = body k v acc }] run in the
    order [entries]. *)
Definition rangeLoop {A B : Type} (body : string -> A -> B -> B)
    (entries : list (string * A)) (acc : B) : B :=
  fold_left (fun acc kv => body (fst kv) (snd kv) acc) entries acc.

End GoMap.

Module GoSort.

(** [output] is a result [sort.Slice(s, less)] (or [sort.Strings]) may
    leave in [s] when it held [input]: the same elements, and no later
    one less than an earlier one. *)
Definition sorts {A : Type} (less : A -> A -> bool) (input output : list A) : Prop :=
  output ≡ₚ input /\ StronglySorted (fun x y => less y x = false) output.

End GoSort.

(** ** main.go *)

Module Gitstats.

Import GoStrings.

Record ChangesStats : Type := mkChangesStats { Insertions : Z; Deletions : Z }.

Record GlobalStats : Type := mkGlobalStats {
  Stats : gmap string (gmap string ChangesStats);
  totalInsertions : Z;
  totalDeletions : Z
}.

(** [(\d+) insertions?\(\+\)] and [(\d+) deletions?\(-\)]. *)
Definition insertionRegex : Regexp.Regexp :=
  [Regexp.CaptureDigits; Regexp.Literal " insertion"; Regexp.Optional "s"; Regexp.Literal "(+)"].
Definition deletionRegex : Regexp.Regexp :=
  [Regexp.CaptureDigits; Regexp.Literal " deletion"; Regexp.Optional "s"; Regexp.Literal "(-)"].

(** Lines 83-84: the test that makes a line a statistics line. *)
Definition isStatLine (line : string) : bool :=
  Contains line "files changed" || Contains line "file changed".

(** Lines 85-94 for one of the two counts: [var n int], set by [Sscanf]
    from capture group 1 when the pattern matches and the scan succeeds. *)
Definition extractCount (re : Regexp.Regexp) (line : string) : Z :=
  match Regexp.FindStringSubmatch re line with
  | Some group =>
      match Fmt.Sscanf_d group with
      | Some n => n
      | None => 0
      end
  | None => 0
  end.

(** The variables the loop over the lines updates: the [author]
    register, the scan-local [stats] map and the captured [gb]. *)
Record scanState : Type := mkScanState {
  author : string;
  stats : gmap string (Z * Z);
  gb : GlobalStats
}.

(** Lines 78-106: the body of the loop over the lines. *)
Definition lineStep (st : scanState) (line : string) : scanState :=
  if String.eqb line "" then st
  else if isStatLine line then
    let ins := extractCount insertionRegex line in
    let del := extractCount deletionRegex line in
    let userStats := default (0, 0) (stats st !! author st) in
    mkScanState (author st)
      (<[author st := (GoInt.add (fst userStats) ins, GoInt.add (snd userStats) del)]>
         (stats st))
      (mkGlobalStats (Stats (gb st))
         (GoInt.add (totalInsertions (gb st)) ins)
         (GoInt.add (totalDeletions (gb st)) del))
  else mkScanState line (stats st) (gb st).

(** Lines 109-118: the body of the loop that moves the scan's counts
    into [gb.Stats] under the month's key. *)
Definition accumulate (monthStr : string) (author : string) (counts : Z * Z)
    (all : gmap string (gmap string ChangesStats)) : gmap string (gmap string ChangesStats) :=
  let months := default ∅ (all !! author) in
  let authorMonthStats := default (mkChangesStats 0 0) (months !! monthStr) in
  <[author := <[monthStr := mkChangesStats
                              (GoInt.add (Insertions authorMonthStats) (fst counts))
                              (GoInt.add (Deletions authorMonthStats) (snd counts))]>
                months]> all.

(** Lines 74-106: the loop over the lines of the output. *)
Definition scanLines (output : string) (g : GlobalStats) : scanState :=
  fold_left lineStep (Split output newline) (mkScanState "" ∅ g).

(** Lines 109-118: the loop over [stats], visiting it in the order
    [entries]. *)
Definition accumulateAll (monthStr : string) (entries : list (string * (Z * Z)))
    (g : GlobalStats) : GlobalStats :=
  mkGlobalStats (GoMap.rangeLoop (accumulate monthStr) entries (Stats g))
    (totalInsertions g) (totalDeletions g).

Definition monthKey (firstDayOfMonth : GoTime.Time) : string :=
  GoTime.Format firstDayOfMonth GoTime.layoutMonth.

(** Lines 74-120: what [processDir] does with the output of [git]. The
    range over [stats] is taken in the order of [map_to_list]; the result
    does not depend on it ([accumulateAll_ranges]). *)
Definition processOutput (firstDayOfMonth : GoTime.Time) (output : string)
    (g : GlobalStats) : GlobalStats :=
  let st := scanLines output g in
  accumulateAll (monthKey firstDayOfMonth) (map_to_list (stats st)) (gb st).

(** The Record Parser of the specification, read off the same loop: the
    [(author, ins, del)] with which lines 96-101 are run, one for each
    statistics line, in order. *)
Definition tuple : Type := string * Z * Z.

Fixpoint attributions (author : string) (lines : list string) : list tuple :=
  match lines with
  | [] => []
  | line :: lines' =>
      if String.eqb line "" then attributions author lines'
      else if isStatLine line then
        (author, extractCount insertionRegex line, extractCount deletionRegex line)
          :: attributions author lines'
      else attributions line lines'
  end.

Definition RecordParser (output : string) : list tuple :=
  attributions "" (Split output newline).

(** The Aggregator of the specification: one tuple folded into the
    Aggregate under a month key. *)
Definition foldTuple (monthStr : string) (g : GlobalStats) (t : tuple) : GlobalStats :=
  let '(who, ins, del) := t in
  mkGlobalStats (accumulate monthStr who (ins, del) (Stats g))
    (GoInt.add (totalInsertions g) ins) (GoInt.add (totalDeletions g) del).

Definition Aggregator (monthStr : string) (tuples : list tuple) (g : GlobalStats) : GlobalStats :=
  fold_left (foldTuple monthStr) tuples g.

(** *** The external collaborators *)

Inductive result (A : Type) : Type :=
| Ok (a : A)
| Err (msg : string).
Arguments Ok {A} a.
Arguments Err {A} msg.

Record DirEntry : Type := mkDirEntry { Name : string; IsDir : bool }.

Record Env : Type := mkEnv {
  monthsBack : Z;                                   (* flag -m *)
  allRepos : bool;                                  (* flag -a *)
  baseDir : string;                                 (* flag -p *)
  Now : Z -> GoTime.Time;                           (* time.Now() in iteration i *)
  ReadDir : Z -> string -> result (list DirEntry);  (* os.ReadDir in iteration i *)
  filepathJoin : string -> string -> string;        (* filepath.Join *)
  Output : Z -> list string -> result string        (* exec.Command("git", args...).Output() *)
}.

Inductive Event : Type :=
| LogPrintln (s : string)
| Println (s : string).

(** Lines 54-63. *)
Definition gitArgs (dir : string) (firstDayOfMonth lastDayOfMonth : GoTime.Time) : list string :=
  ["--no-pager"; "-C"; dir; "log"; "--pretty=%ae"; "--shortstat";
   ("--since=" ++ GoTime.Format firstDayOfMonth GoTime.layoutDate)%string;
   ("--until=" ++ GoTime.Format lastDayOfMonth GoTime.layoutDate)%string;
   "--"; "*.swift"; "--"; "*.yml"; "--"; "*.java"; "--"; "*.kt"; "--"; "*.md"; "--"; "*.php"].

(** Lines 53-121: the closure [processDir] of iteration [i]. *)
Definition processDir (env : Env) (i : Z) (firstDayOfMonth lastDayOfMonth : GoTime.Time)
    (dir : string) (g : GlobalStats) : list Event * result GlobalStats :=
  let args := gitArgs dir firstDayOfMonth lastDayOfMonth in
  ([LogPrintln (Join args " ")],
   match Output env i args with
   | Err e => Err ("failed to execute command: " ++ e)%string
   | Ok output => Ok (processOutput firstDayOfMonth output g)
   end).

(** Lines 130-137. *)
Fixpoint dirsLoop (env : Env) (i : Z) (firstDayOfMonth lastDayOfMonth : GoTime.Time)
    (dirs : list DirEntry) (g : GlobalStats) : list Event * GlobalStats :=
  match dirs with
  | [] => ([], g)
  | dir :: dirs' =>
      if IsDir dir then
        let dirPath := filepathJoin env (baseDir env) (Name dir) in
        let (log, r) := processDir env i firstDayOfMonth lastDayOfMonth dirPath g in
        match r with
        | Err e =>
            let (rest, g') := dirsLoop env i firstDayOfMonth lastDayOfMonth dirs' g in
            ((log ++ Println e :: rest)%list, g')
        | Ok g1 =>
            let (rest, g') := dirsLoop env i firstDayOfMonth lastDayOfMonth dirs' g1 in
            ((log ++ rest)%list, g')
        end
      else dirsLoop env i firstDayOfMonth lastDayOfMonth dirs' g
  end.

(** Lines 47-49: the month of iteration [i] and its first and last day. *)
Definition iterationMonth (now : GoTime.Time) (i : Z) : Z * Z :=
  let t := GoTime.AddDate now 0 (- i) 0 in (GoTime.Year t, GoTime.Month t).

Definition firstDayOfMonth (now : GoTime.Time) (i : Z) : GoTime.Time :=
  let (year, month) := iterationMonth now i in GoTime.Date year month 1.

Definition lastDayOfMonth (now : GoTime.Time) (i : Z) : GoTime.Time :=
  GoTime.AddDate (firstDayOfMonth now i) 0 1 (-1).

(** How [main] leaves the loop over the months. *)
Inductive exit : Type :=
| LoopDone      (* the loop ran to its end: [printStats] is called *)
| Returned.     (* [return] from inside the loop: nothing is reported *)

(** Lines 44-144, [n] iterations from iteration [i]. *)
Fixpoint monthsLoop (env : Env) (n : nat) (i : Z) (g : GlobalStats)
    : list Event * GlobalStats * exit :=
  match n with
  | O => ([], g, LoopDone)
  | S n' =>
      let first := firstDayOfMonth (Now env i) i in
      let last := lastDayOfMonth (Now env i) i in
      if allRepos env then
        match ReadDir env i (baseDir env) with
        | Err e => ([Println ("Failed to read directory: " ++ e)%string], g, Returned)
        | Ok dirs =>
            let (log, g1) := dirsLoop env i first last dirs g in
            let '(rest, g', x) := monthsLoop env n' (i + 1) g1 in
            ((log ++ rest)%list, g', x)
        end
      else
        let (log, r) := processDir env i first last (baseDir env) g in
        match r with
        | Err e => ((log ++ [Println e])%list, g, Returned)
        | Ok g1 =>
            let '(rest, g', x) := monthsLoop env n' (i + 1) g1 in
            ((log ++ rest)%list, g', x)
        end
  end.

(** Lines 31-32: [var gb GlobalStats] with an empty [Stats] map. *)
Definition gb0 : GlobalStats := mkGlobalStats ∅ 0 0.

(** Lines 30-144: [main] up to the call of [printStats]. *)
Definition mainLoop (env : Env) : list Event * GlobalStats * exit :=
  monthsLoop env (Z.to_nat (monthsBack env)) 0 gb0.

(** *** printStats *)

(** What [printStats] writes, one constructor for each [Printf]. *)
Inductive Line : Type :=
| Rule                                        (* line 173 *)
| MonthHeader (month : string)                (* line 174 *)
| AuthorRow (who : string) (insertions : Z)   (* line 199 *)
| MonthSummary (total : Z)                    (* line 202 *)
| BlueRule                                    (* lines 205 and 236 *)
| DeveloperHeader                             (* line 231 *)
| DeveloperRow (who : string) (insertions : Z) (* line 233 *)
| TotalSummary (total : Z).                   (* line 237 *)

(** Lines 159-164: the keys of [uniqueMonths]. *)
Definition uniqueMonths (g : GlobalStats) : gset string :=
  map_fold (fun _ months acc => dom months ∪ acc) ∅ (Stats g).

(** Lines 184-190: the body of the loop that collects a month's rows
    and totals. *)
Definition collectMonth (month : string) (who : string) (monthsStats : gmap string ChangesStats)
    (acc : list (string * Z) * Z * Z) : list (string * Z) * Z * Z :=
  let '(monthStats, totalIns, totalDel) := acc in
  match monthsStats !! month with
  | Some st =>
      ((monthStats ++ [(who, Insertions st)])%list,
       GoInt.add totalIns (Insertions st), GoInt.add totalDel (Deletions st))
  | None => acc
  end.

(** The comparison of lines 193-195 and 226-228. *)
Definition moreInsertions (a b : string * Z) : bool := snd b <? snd a.

(** Lines 172-204 for one month: [block] is what may be printed. *)
Definition monthBlock (g : GlobalStats) (month : string) (block : list Line) : Prop :=
  exists entries sorted,
    GoMap.ranges (Stats g) entries /\
    let '(monthStats, totalIns, _) :=
      GoMap.rangeLoop (collectMonth month) entries ([], 0, 0) in
    GoSort.sorts moreInsertions monthStats sorted /\
    block = ([Rule; MonthHeader month]
               ++ map (fun r => AuthorRow (fst r) (snd r)) sorted
               ++ [MonthSummary totalIns])%list.

(** Lines 208-213: the body of the two nested loops. *)
Definition addAuthorInsertions (who : string) (st : ChangesStats) (acc : gmap string Z)
    : gmap string Z :=
  <[who := GoInt.add (default 0 (acc !! who)) (Insertions st)]> acc.

Definition authorInsertions (g : GlobalStats) : gmap string Z :=
  map_fold
    (fun who months acc => map_fold (fun _ st acc' => addAuthorInsertions who st acc') acc months)
    ∅ (Stats g).

(** Lines 149-238. *)
Definition printStats (g : GlobalStats) (out : list Line) : Prop :=
  if decide (size (Stats g) = 0%nat) then out = []
  else
    exists monthsSeen monthsOrdered blocks byAuthor sortedAuthors,
      monthsSeen ≡ₚ elements (uniqueMonths g) /\
      GoSort.sorts Less monthsSeen monthsOrdered /\
      Forall2 (monthBlock g) monthsOrdered blocks /\
      GoMap.ranges (authorInsertions g) byAuthor /\
      GoSort.sorts moreInsertions byAuthor sortedAuthors /\
      out = (concat blocks
               ++ [BlueRule; DeveloperHeader]
               ++ map (fun r => DeveloperRow (fst r) (snd r)) sortedAuthors
               ++ [BlueRule; TotalSummary (totalInsertions g)])%list.

(** [main]: the trace of the loop and, when the loop ran to its end,
    the report. *)
Definition main (env : Env) (log : list Event) (out : list Line) : Prop :=
  let '(log', g, x) := mainLoop env in
  log = log' /\
  match x with
  | LoopDone => printStats g out
  | Returned => out = []
  end.

(** *** The text of the report *)

(** Lines 151-154. *)
Definition esc : ascii := "027"%char.
Definition green : string := String esc "[32m".
Definition yellow : string := String esc "[33m".
Definition blue : string := String esc "[94m".
Definition reset : string := String esc "[0m".

Definition dashes : string := "-----------------------------".

Definition endl : string := String newline "".

(** Lines 199 and 233: ["  %-30s %s%5d%s lines\n"]. *)
Definition rowText (who : string) (insertions : Z) : string :=
  ("  " ++ FmtPrint.padRight 30 who ++ " "
     ++ green ++ FmtPrint.padLeft 5 (FmtPrint.formatInt insertions) ++ reset ++ " lines" ++ endl)%string.

(** What each [Printf] of [printStats] writes; the one of line 205
    writes an empty line first, which [stdout] adds. *)
Definition lineText (l : Line) : string :=
  match l with
  | Rule => (dashes ++ endl)%string
  | MonthHeader month => (yellow ++ month ++ reset ++ endl)%string
  | AuthorRow who n => rowText who n
  | MonthSummary total =>
      (yellow ++ "Summary:" ++ reset ++ " "
         ++ green ++ FmtPrint.formatInt total ++ reset ++ " "
         ++ yellow ++ "total lines" ++ reset ++ endl)%string
  | BlueRule => (blue ++ dashes ++ reset ++ endl)%string
  | DeveloperHeader => (blue ++ "Total lines by developer:" ++ reset ++ endl)%string
  | DeveloperRow who n => rowText who n
  | TotalSummary total =>
      ("Total summary: "
         ++ green ++ FmtPrint.formatInt total ++ reset ++ " total lines" ++ endl)%string
  end.

(** The text that [printStats] writes for the lines [out]; [ruled] tells
    that the rule of line 205 has been written. *)
Fixpoint stdout (ruled : bool) (out : list Line) : string :=
  match out with
  | [] => ""
  | BlueRule :: out' =>
      ((if ruled then "" else endl) ++ lineText BlueRule ++ stdout true out')%string
  | l :: out' => (lineText l ++ stdout ruled out')%string
  end.

End Gitstats.

(** ** Vocabulary of the statements *)

Module Spec.

Import GoStrings Gitstats.

Definition nl : string := String newline "".

(** A string of decimal digits. *)
Fixpoint allDigits (s : string) : bool :=
  match s with
  | EmptyString => true
  | String c s' => Regexp.isDigit c && allDigits s'
  end.

Fixpoint hasByte (c : ascii) (s : string) : bool :=
  match s with
  | EmptyString => false
  | String d s' => Ascii.eqb d c || hasByte c s'
  end.

Fixpoint lastByteIsDigit (s : string) : bool :=
  match s with
  | EmptyString => false
  | String c EmptyString => Regexp.isDigit c
  | String _ s' => lastByteIsDigit s'
  end.

(** The pattern [(\d+)unit s?close]. *)
Definition clauseRe (unit close : string) : Regexp.Regexp :=
  [Regexp.CaptureDigits; Regexp.Literal unit; Regexp.Optional "s"; Regexp.Literal close].

Definition startsWithDigit (s : string) : bool :=
  match s with String c _ => Regexp.isDigit c | EmptyString => false end.

(** What follows the digits of a clause: the unit word, an optional
    [s], the sign. *)
Definition clauseTail (unit close g r : string) : option string :=
  Regexp.matchHere [Regexp.Literal unit; Regexp.Optional "s"; Regexp.Literal close] g r.

(** [line] has a clause: an integer [ds], then the unit word in the
    singular or the plural, then the sign in brackets; [before] and
    [after] are the rest of the line. *)
Definition clauseAt (unit close line before ds after : string) : Prop :=
  exists plural,
  line = (before ++ ds ++ unit ++ plural ++ close ++ after)%string /\
  (plural = "" \/ plural = "s") /\
  ds <> "" /\ allDigits ds = true.

Definition hasClause (unit close line : string) : Prop :=
  exists before ds after, clauseAt unit close line before ds after.

(** The [int] a run of digits denotes for [Sscanf]: its value, or the
    zero the variable keeps when the value does not fit. *)
Definition countOf (ds : string) (n : Z) : Prop :=
  exists v, Fmt.decimal 0 ds = Some v /\ n = (if v <=? GoInt.maxInt then v else 0).

(** The count [n] is the whole integer next to the unit word of the
    first clause of [line]. *)
Definition adjacentCount (unit close line : string) (n : Z) : Prop :=
  exists before ds after,
  clauseAt unit close line before ds after /\
  lastByteIsDigit before = false /\
  countOf ds n.

(** Lines of the output of [git], as the parser tells them apart. *)
Definition isStatisticsLine (line : string) : bool :=
  negb (String.eqb line "") && isStatLine line.

Definition isAuthorLine (line : string) : bool :=
  negb (String.eqb line "") && negb (isStatLine line).

(** The most recently seen author line. *)
Definition lastAuthorLine (lines : list string) : option string :=
  last (List.filter isAuthorLine lines).

(** The summary line that [git log --shortstat] prints for [files]
    files, [ins] insertions and [del] deletions, the three numbers given
    by their digits and each noun in the singular or the plural. *)
Definition shortstat (files pf ins pi del pd : string) : string :=
  (" " ++ files ++ " file" ++ pf ++ " changed, "
    ++ ins ++ " insertion" ++ pi ++ "(+), "
    ++ del ++ " deletion" ++ pd ++ "(-)")%string.

Definition isPlural (p : string) : Prop := p = "" \/ p = "s".

(** *** The Aggregate *)

(** The sum of [f] over the values of a map. *)
Definition mapSum {A : Type} (f : A -> Z) (m : gmap string A) : Z :=
  map_fold (fun _ x acc => f x + acc) 0 m.

(** The sum of a field over every (author, month) cell. *)
Definition cellSum (f : ChangesStats -> Z) (all : gmap string (gmap string ChangesStats)) : Z :=
  mapSum (mapSum f) all.

(** The cell of an author and a month, when there is one. *)
Definition cell (g : GlobalStats) (who month : string) : option ChangesStats :=
  Stats g !! who ≫= fun months => months !! month.

(** The running totals are the sums of the cells, as [int]s. *)
Definition consistent (g : GlobalStats) : Prop :=
  totalInsertions g = GoInt.wrap (cellSum Insertions (Stats g)) /\
  totalDeletions g = GoInt.wrap (cellSum Deletions (Stats g)).

(** Lines 96-99 for one tuple. *)
Definition addLocal (s : gmap string (Z * Z)) (t : tuple) : gmap string (Z * Z) :=
  let '(who, ins, del) := t in
  let userStats := default (0, 0) (s !! who) in
  <[who := (GoInt.add (fst userStats) ins, GoInt.add (snd userStats) del)]> s.

(** Lines 100-101 for one tuple. *)
Definition addTotals (g : GlobalStats) (t : tuple) : GlobalStats :=
  let '(_, ins, del) := t in
  mkGlobalStats (Stats g) (GoInt.add (totalInsertions g) ins) (GoInt.add (totalDeletions g) del).

Definition tupleIns (t : tuple) : Z := snd (fst t).
Definition tupleDel (t : tuple) : Z := snd t.

Definition addIns (acc : Z) (t : tuple) : Z := GoInt.add acc (tupleIns t).
Definition addDel (acc : Z) (t : tuple) : Z := GoInt.add acc (tupleDel t).

(** The exact sum of a list of integers. *)
Definition sumList (l : list Z) : Z := fold_right Z.add 0 l.

(** Lines 110-117 for one tuple. *)
Definition addCell (monthStr : string) (all : gmap string (gmap string ChangesStats))
  (t : tuple) : gmap string (gmap string ChangesStats) :=
  let '(who, ins, del) := t in accumulate monthStr who (ins, del) all.

Definition bump (c : ChangesStats) (counts : Z * Z) : ChangesStats :=
  mkChangesStats (GoInt.add (Insertions c) (fst counts)) (GoInt.add (Deletions c) (snd counts)).

Definition monthsOf (all : gmap string (gmap string ChangesStats)) (who : string)
  : gmap string ChangesStats :=
  default ∅ (all !! who).

Definition cellOr0 (all : gmap string (gmap string ChangesStats)) (who month : string)
  : ChangesStats :=
  default (mkChangesStats 0 0) (monthsOf all who !! month).

(** The entry of [who] after a scan whose counts for [who] are [counts]. *)
Definition mergedEntry (monthStr : string) (all : gmap string (gmap string ChangesStats))
  (who : string) (counts : option (Z * Z)) : option (gmap string ChangesStats) :=
  match counts with
  | Some c => Some (<[monthStr := bump (cellOr0 all who monthStr) c]> (monthsOf all who))
  | None => all !! who
  end.

(** Every cell and both totals are non-negative. *)
Definition nonNegative (g : GlobalStats) : Prop :=
  (forall who month c, cell g who month = Some c -> 0 <= Insertions c /\ 0 <= Deletions c) /\
  0 <= totalInsertions g /\ 0 <= totalDeletions g.

(** No cell of [g] and neither total is smaller in [g']. *)
Definition neverDecreases (g g' : GlobalStats) : Prop :=
  (forall who month c, cell g who month = Some c ->
    exists c', cell g' who month = Some c' /\
    Insertions c <= Insertions c' /\ Deletions c <= Deletions c') /\
  totalInsertions g <= totalInsertions g' /\ totalDeletions g <= totalDeletions g'.

(** The totals are the sums of the cells without any wrap-around. *)
Definition exact (g : GlobalStats) : Prop :=
  totalInsertions g = cellSum Insertions (Stats g) /\
  totalDeletions g = cellSum Deletions (Stats g).

(** A date of the calendar. *)
Definition validDate (t : GoTime.Time) : Prop :=
  1 <= GoTime.Month t <= 12 /\ 1 <= GoTime.Day t <= GoTime.daysIn (GoTime.Year t) (GoTime.Month t).

(** A month whose year the layout [2006] writes with four digits. *)
Definition fourDigitYear (t : GoTime.Time) : Prop :=
  0 <= GoTime.Year t <= 9999 /\ 1 <= GoTime.Month t <= 12.

(** The month of [t1] is before the month of [t2] in the calendar. *)
Definition monthBefore (t1 t2 : GoTime.Time) : Prop :=
  GoTime.Year t1 < GoTime.Year t2 \/
  (GoTime.Year t1 = GoTime.Year t2 /\ GoTime.Month t1 < GoTime.Month t2).

(** *** The report *)

(** The insertions of a month, summed over the authors. *)
Definition monthSum (g : GlobalStats) (month : string) : Z :=
  mapSum (fun months => from_option Insertions 0 (months !! month)) (Stats g).

(** Rows in the order of descending insertions. *)
Definition descending (rows : list (string * Z)) : Prop :=
  StronglySorted (fun r1 r2 => snd r2 <= snd r1) rows.

(** Keys in ascending lexical order. *)
Definition ascending (keys : list string) : Prop :=
  StronglySorted (fun a b => GoStrings.Less a b = true) keys.

(** [months] lists the months of the Aggregate, in ascending order. *)
Definition monthsOfAggregate (g : GlobalStats) (months : list string) : Prop :=
  ascending months /\
  forall month, month ∈ months <-> exists who c, cell g who month = Some c.

(** [block] is the block of [month]: its header, one row for each author
    of the month with the insertions of the cell, in descending order, and
    the subtotal of the month. *)
Definition blockOf (g : GlobalStats) (month : string) (block : list Line) : Prop :=
  exists rows,
  block = ([Rule; MonthHeader month]
    ++ map (fun r => AuthorRow (fst r) (snd r)) rows
    ++ [MonthSummary (GoInt.wrap (monthSum g month))])%list /\
  descending rows /\ NoDup (rows.*1) /\
  forall who n, (who, n) ∈ rows <-> exists c, cell g who month = Some c /\ n = Insertions c.

(** [ranking] has one row for each author, with the insertions of the
    author summed over the months, in descending order. *)
Definition rankingOf (g : GlobalStats) (ranking : list (string * Z)) : Prop :=
  descending ranking /\ NoDup (ranking.*1) /\
  forall who n, (who, n) ∈ ranking <->
  exists months, Stats g !! who = Some months /\ months <> ∅ /\
  n = GoInt.wrap (mapSum Insertions months).

(** [out] is a report of [g] with the blocks of [months]: the blocks,
    then the ranking of the authors, then the grand total. *)
Definition reportOf (g : GlobalStats) (months : list string) (out : list Line) : Prop :=
  exists blocks ranking,
    out = (concat blocks
             ++ [BlueRule; DeveloperHeader]
             ++ map (fun r => DeveloperRow (fst r) (snd r)) ranking
             ++ [BlueRule; TotalSummary (totalInsertions g)])%list /\
    monthsOfAggregate g months /\
    Forall2 (blockOf g) months blocks /\
    rankingOf g ranking.

(** The grand total is the sum of the subtotals that the blocks of
    [months] show, as an [int]. *)
Definition totalOfMonths (g : GlobalStats) (months : list string) : Prop :=
  totalInsertions g
  = GoInt.wrap (sumList ((fun month => GoInt.wrap (monthSum g month)) <$> months)).

(** What [collectMonth] takes from one entry of [Stats]. *)
Definition pickMonth (month : string) (entry : string * gmap string ChangesStats)
  : option (string * Z) :=
  (fun c => (fst entry, Insertions c)) <$> snd entry !! month.

Definition cellIns (month : string) (entry : string * gmap string ChangesStats) : Z :=
  from_option Insertions 0 (snd entry !! month).

Definition cellDel (month : string) (entry : string * gmap string ChangesStats) : Z :=
  from_option Deletions 0 (snd entry !! month).

(** A scan: the first day of its month and the output of [git]. *)
Definition scan : Type := GoTime.Time * string.

Definition runScans (scans : list scan) (g : GlobalStats) : GlobalStats :=
  fold_left (fun g s => processOutput (fst s) (snd s) g) scans g.

(** Scans as the specification has them: a month key and the tuples. *)
Definition foldScans (scans : list (string * list tuple)) (g : GlobalStats) : GlobalStats :=
  fold_left (fun g s => Aggregator (fst s) (snd s) g) scans g.

(** *** Scans, author by author *)

Definition tupleAuthor (t : tuple) : string := fst (fst t).

(** The tuples of an author. *)
Definition tuplesOf (who : string) (ts : list tuple) : list tuple :=
  List.filter (fun t => String.eqb (tupleAuthor t) who) ts.

(** A key under which the parser can file counts: a line that is not
    a statistics line. *)
Definition authorKey (who : string) : Prop :=
  hasByte newline who = false /\ isStatLine who = false.

Definition cleanKeys (g : GlobalStats) : Prop :=
  forall who, is_Some (Stats g !! who) -> authorKey who.

(** *** The scans of a run *)

(** The scans that the loop over the entries of the base path folds:
    one for each entry that is a directory and for which [git] succeeds. *)
Definition dirScans (env : Env) (i : Z) (first last : GoTime.Time) (dirs : list DirEntry)
  : list scan :=
  omap (fun d : DirEntry =>
    if IsDir d then
      match Output env i (gitArgs (filepathJoin env (baseDir env) (Name d)) first last) with
      | Ok output => Some (first, output)
      | Err _ => None
      end
    else None) dirs.

(** The scans of iteration [i]; [None] when the iteration ends the run. *)
Definition iterationScans (env : Env) (i : Z) : option (list scan) :=
  let first := firstDayOfMonth (Now env i) i in
  let last := lastDayOfMonth (Now env i) i in
  if allRepos env then
    match ReadDir env i (baseDir env) with
    | Ok dirs => Some (dirScans env i first last dirs)
    | Err _ => None
    end
  else
    match Output env i (gitArgs (baseDir env) first last) with
    | Ok output => Some [(first, output)]
    | Err _ => None
    end.

(** The scans of [n] iterations from iteration [i], up to the one that
    ends the run. *)
Fixpoint loopScans (env : Env) (n : nat) (i : Z) : list scan :=
  match n with
  | O => []
  | S n' =>
      match iterationScans env i with
      | Some scans => (scans ++ loopScans env n' (i + 1))%list
      | None => []
      end
  end.

(** The command lines written to the log, and the lines printed. *)
Definition commands (log : list Event) : list string :=
  omap (fun e => match e with LogPrintln s => Some s | Println _ => None end) log.

Definition printed (log : list Event) : list string :=
  omap (fun e => match e with Println s => Some s | LogPrintln _ => None end) log.

(** The errors that the loop over the entries of the base path prints:
    one for each entry that is a directory and for which [git] fails. *)
Definition dirErrors (env : Env) (i : Z) (first last : GoTime.Time) (dirs : list DirEntry)
  : list string :=
  omap (fun d : DirEntry =>
    if IsDir d then
      match Output env i (gitArgs (filepathJoin env (baseDir env) (Name d)) first last) with
      | Ok _ => None
      | Err e => Some ("failed to execute command: " ++ e)%string
      end
    else None) dirs.

(** The command line of a scan. *)
Definition commandLine (dir : string) (first last : GoTime.Time) : string :=
  Join (gitArgs dir first last) " ".

(** The months of the Aggregate are months of the iterations of the run. *)
Definition monthsWithin (env : Env) (g : GlobalStats) : Prop :=
  forall who month, is_Some (cell g who month) ->
  exists i, 0 <= i < monthsBack env /\
    month = monthKey (firstDayOfMonth (Now env i) i).

(** Every author of the Aggregate has a cell. *)
Definition noEmptyAuthor (g : GlobalStats) : Prop :=
  forall who months, Stats g !! who = Some months -> months <> ∅.

(** The clause of [line] that starts first. *)
Definition firstClause (unit close line before ds after : string) : Prop :=
  clauseAt unit close line before ds after /\
  forall before' ds' after',
    clauseAt unit close line before' ds' after' ->
    (String.length before <= String.length before')%nat.

(** *** Months *)

(** The months of the calendar, numbered in a row. *)
Definition monthIndex (y m : Z) : Z := 12 * y + (m - 1).

(** The day of [now] does not exist in the month [i] months before. *)
Definition dayOverflows (now : GoTime.Time) (i : Z) : bool :=
  let (y, m) := GoTime.normMonth (GoTime.Year now) (GoTime.Month now - i) in
  GoTime.daysIn y m <? GoTime.Day now.

(** A reader of dates written as [YYYY-MM-DD]. *)
Definition parseDate (s : string) : option GoTime.Time :=
  match s with
  | String y1 (String y2 (String y3 (String y4 (String sep1
      (String m1 (String m2 (String sep2 (String d1 (String d2 EmptyString))))))))) =>
      if Ascii.eqb sep1 "-" && Ascii.eqb sep2 "-" then
        y ← Fmt.decimal 0 (String y1 (String y2 (String y3 (String y4 ""))));
        m ← Fmt.decimal 0 (String m1 (String m2 ""));
        d ← Fmt.decimal 0 (String d1 (String d2 ""));
        Some (GoTime.mkTime y m d)
      else None
  | _ => None
  end.

(** *** Reports *)

(** Two Aggregates with the same authors, the same insertions in every
    cell and the same total of insertions; the deletions may differ. *)
Definition sameInsertions (g g' : GlobalStats) : Prop :=
  totalInsertions g = totalInsertions g' /\
  (forall who, is_Some (Stats g !! who) <-> is_Some (Stats g' !! who)) /\
  forall who month, Insertions <$> cell g who month = Insertions <$> cell g' who month.

(** A line of the report without the name of its author. *)
Definition shape (l : Line) : Line :=
  match l with
  | AuthorRow _ n => AuthorRow "" n
  | DeveloperRow _ n => DeveloperRow "" n
  | _ => l
  end.

(** The order that [sort.Slice] and [sort.Strings] leave behind. *)
Definition notAfter {A : Type} (less : A -> A -> bool) (x y : A) : Prop := less y x = false.

Definition notAfter_dec {A : Type} (less : A -> A -> bool) (x y : A)
  : Decision (notAfter less x y) := decide (less y x = false).

(** *** The text of the report *)

Fixpoint countByte (c : ascii) (s : string) : nat :=
  match s with
  | EmptyString => O
  | String d s' => ((if Ascii.eqb d c then 1 else 0) + countByte c s')%nat
  end.

(** A string of ASCII bytes. *)
Fixpoint isASCII (s : string) : bool :=
  match s with
  | EmptyString => true
  | String c s' => (Utf8.byte c <? 128) && isASCII s'
  end.

(** The months of the Aggregate are written on one line. *)
Definition cleanMonths (g : GlobalStats) : Prop :=
  forall who month, is_Some (cell g who month) -> hasByte newline month = false.

(** Lines that are not the blue rule, one line of text each. *)
Definition plain (l : Line) : Prop :=
  l <> BlueRule /\ countByte newline (lineText l) = 1%nat.

End Spec.

(** ** Sample environments *)

Module Samples.

Import Gitstats.

Definition march : GoTime.Time := GoTime.mkTime 2024 3 1.

Definition marchKey : string := "(2024-03) March 2024".

Definition oneInsertion : string :=
  ("a@x" ++ Spec.nl ++ " 1 file changed, 1 insertion(+)" ++ Spec.nl)%string.

Definition slash (dir name : string) : string := (dir ++ "/" ++ name)%string.

(** One directory, three months; [git] fails in the second iteration. *)
Definition envSingle : Env :=
  mkEnv 3 false "." (fun _ => GoTime.mkTime 2024 5 15)
  (fun _ _ => Err "not called") slash
  (fun i _ => if i =? 1 then Err "exit status 128" else Ok oneInsertion).

(** Three entries under the base path; [git] fails in [./r1]. *)
Definition envMulti : Env :=
  mkEnv 2 true "." (fun _ => GoTime.mkTime 2024 5 15)
  (fun _ _ => Ok [mkDirEntry "r1" true; mkDirEntry "notes.txt" false; mkDirEntry "r2" true])
  slash
  (fun _ args => if String.eqb (nth 2 args "") "./r1" then Err "exit status 128"
    else Ok oneInsertion).

(** The base path cannot be listed. *)
Definition envNoListing : Env :=
  mkEnv 2 true "/nowhere" (fun _ => GoTime.mkTime 2024 5 15)
  (fun _ _ => Err "open /nowhere: no such file or directory") slash
  (fun _ _ => Ok oneInsertion).

(** Two months asked on 31 March 2024; the repository has one commit, made
    in March, which [git] reports when the window contains March. *)
Definition envMonthEnd : Env :=
  mkEnv 2 false "." (fun _ => GoTime.mkTime 2024 3 31)
  (fun _ _ => Err "not called") slash
  (fun _ args => if String.eqb (nth 6 args "") "--since=2024-03-01" then Ok oneInsertion
    else Ok "").

(** One directory, one month, two authors. *)
Definition twoAuthors : string :=
  ("a@x" ++ Spec.nl ++ " 1 file changed, 1 insertion(+)" ++ Spec.nl
    ++ "b@y" ++ Spec.nl ++ " 2 files changed, 5 insertions(+), 3 deletions(-)" ++ Spec.nl)%string.

Definition envReport : Env :=
  mkEnv 1 false "." (fun _ => GoTime.mkTime 2024 5 15)
  (fun _ _ => Err "not called") slash (fun _ _ => Ok twoAuthors).

Definition mayKey : string := "(2024-05) May 2024".

Definition reportOfMay : list Line :=
  [Rule; MonthHeader mayKey; AuthorRow "b@y" 5; AuthorRow "a@x" 1; MonthSummary 6;
    BlueRule; DeveloperHeader; DeveloperRow "b@y" 5; DeveloperRow "a@x" 1;
    BlueRule; TotalSummary 6].

(** A log whose first line is a statistics line. *)
Definition noAuthor : string := (" 1 file changed, 3 insertions(+)" ++ Spec.nl)%string.

(** Two logs whose insertions add up to [2^63]. *)
Definition hugeInsertions : string :=
  ("a@x" ++ Spec.nl ++ " 1 file changed, 9223372036854775807 insertions(+)" ++ Spec.nl)%string.

(** One author with two commits. *)
Definition twoCommits : string :=
  ("a@x" ++ Spec.nl ++ " 1 file changed, 1 insertion(+)" ++ Spec.nl
     ++ " 2 files changed, 4 insertions(+), 3 deletions(-)" ++ Spec.nl)%string.

(** Commits that touch none of the files asked for: authors only. *)
Definition onlyAuthors : string := ("a@x" ++ Spec.nl ++ Spec.nl ++ "b@y" ++ Spec.nl)%string.

(** No month asked for. *)
Definition envNoMonths : Env :=
  mkEnv 0 false "." (fun _ => GoTime.mkTime 2024 5 15)
    (fun _ _ => Err "not called") slash (fun _ _ => Ok oneInsertion).

(** Two authors with the same number of insertions. *)
Definition tied : string :=
  ("a@x" ++ Spec.nl ++ " 1 file changed, 1 insertion(+)" ++ Spec.nl
     ++ "b@y" ++ Spec.nl ++ " 1 file changed, 1 insertion(+)" ++ Spec.nl)%string.

Definition reportTied (first second : string) : list Line :=
  [Rule; MonthHeader marchKey; AuthorRow first 1; AuthorRow second 1; MonthSummary 2;
   BlueRule; DeveloperHeader; DeveloperRow first 1; DeveloperRow second 1;
   BlueRule; TotalSummary 2].

(** One cell, with and without its deletions. *)
Definition oneCell (deletions : Z) : GlobalStats :=
  mkGlobalStats {[ "a@x" := {[ marchKey := mkChangesStats 1 deletions ]} ]} 1 deletions.

Definition reportOneCell : list Line :=
  [Rule; MonthHeader marchKey; AuthorRow "a@x" 1; MonthSummary 1;
   BlueRule; DeveloperHeader; DeveloperRow "a@x" 1; BlueRule; TotalSummary 1].

End Samples.

(** * Properties *)

(** ** Go's [int] *)

Module GoIntFacts.

Import GoInt.

Lemma wrap_inRange z : inRange (wrap z).
Proof.
  unfold inRange, wrap, minInt, maxInt, modulus, half, bits.
  pose proof (Z.mod_pos_bound (z + 2 ^ (64 - 1)) (2 ^ 64) ltac:(lia)). lia.
Qed.

Lemma wrap_id z : inRange z -> wrap z = z.
Proof.
  unfold inRange, wrap, minInt, maxInt, modulus, half, bits. intros H.
  rewrite Z.mod_small by lia. lia.
Qed.

Lemma wrap_wrap_add_l a b : wrap (wrap a + b) = wrap (a + b).
Proof.
  unfold wrap, modulus, half, bits.
  f_equal.
  replace ((a + 2 ^ (64 - 1)) mod 2 ^ 64 - 2 ^ (64 - 1) + b + 2 ^ (64 - 1))
    with ((a + 2 ^ (64 - 1)) mod 2 ^ 64 + b) by lia.
  rewrite Zplus_mod_idemp_l. f_equal. lia.
Qed.

Lemma wrap_wrap_add_r a b : wrap (a + wrap b) = wrap (a + b).
Proof. rewrite (Z.add_comm a (wrap b)), wrap_wrap_add_l. f_equal. lia. Qed.

Lemma add_comm a b : add a b = add b a.
Proof. unfold add. f_equal. lia. Qed.

Lemma add_assoc a b c : add (add a b) c = add a (add b c).
Proof. unfold add. rewrite wrap_wrap_add_l, wrap_wrap_add_r. f_equal. lia. Qed.

Lemma add_0_l a : inRange a -> add 0 a = a.
Proof. intros. unfold add. by rewrite Z.add_0_l, wrap_id. Qed.

Lemma add_exact a b : inRange (a + b) -> add a b = a + b.
Proof. apply wrap_id. Qed.

Lemma add_inRange a b : inRange (add a b).
Proof. apply wrap_inRange. Qed.

(** Adding on both sides of [wrap]. *)
Lemma add_wrap_l a b : add (wrap a) b = wrap (a + b).
Proof. apply wrap_wrap_add_l. Qed.

Lemma add_wrap_r a b : add a (wrap b) = wrap (a + b).
Proof. apply wrap_wrap_add_r. Qed.

End GoIntFacts.

(** ** Strings *)

Module GoStringsFacts.

Import GoStrings Spec.

Lemma append_assoc (a b c : string) : ((a ++ b) ++ c = a ++ (b ++ c))%string.
Proof. induction a as [|x a IH]; simpl; [done | by rewrite IH]. Qed.

Lemma append_nil_r (a : string) : (a ++ "")%string = a.
Proof. induction a as [|x a IH]; simpl; [done | by rewrite IH]. Qed.

Lemma CutPrefix_Some s p r : CutPrefix s p = Some r <-> s = (p ++ r)%string.
Proof.
  revert s. induction p as [|c p IH]; intros s; simpl.
  - split; intros H; by simplify_eq/=.
  - destruct s as [|d s]; [split; intros; discriminate |].
    destruct (Ascii.eqb_spec c d) as [->|Hne].
    + rewrite IH. split; intros H; by simplify_eq.
    + split; intros H; [discriminate | by simplify_eq].
Qed.

Lemma CutPrefix_app p r : CutPrefix (p ++ r) p = Some r.
Proof. by apply CutPrefix_Some. Qed.

Lemma HasPrefix_app p r : HasPrefix (p ++ r) p = true.
Proof.
  induction p as [|c p IH]; simpl; [by destruct r |].
  by rewrite Ascii.eqb_refl.
Qed.

Lemma Contains_HasPrefix s p : HasPrefix s p = true -> Contains s p = true.
Proof. intros H. destruct s; simpl; by rewrite H. Qed.

Lemma Contains_app a b c : Contains (a ++ b ++ c) b = true.
Proof.
  induction a as [|x a IH]; simpl.
  - apply Contains_HasPrefix, HasPrefix_app.
  - rewrite IH. apply orb_true_r.
Qed.

Lemma hasByte_app c a b : hasByte c (a ++ b) = hasByte c a || hasByte c b.
Proof. induction a as [|x a IH]; simpl; [done | by rewrite IH, orb_assoc]. Qed.

Lemma Split_cons_piece s sep : exists piece pieces, Split s sep = piece :: pieces.
Proof.
  induction s as [|c s IH]; simpl; [by eexists _, _ |].
  destruct (Ascii.eqb c sep); [by eexists _, _ |].
  destruct IH as (piece & pieces & ->). by eexists _, _.
Qed.

Lemma Split_app_sep a b sep :
  hasByte sep a = false -> Split (a ++ String sep b) sep = a :: Split b sep.
Proof.
  induction a as [|x a IH]; simpl; intros H.
  - by rewrite Ascii.eqb_refl.
  - apply orb_false_iff in H as [Hx Ha]. rewrite Hx, IH by done. done.
Qed.

Lemma allDigits_app a b : allDigits (a ++ b) = allDigits a && allDigits b.
Proof. induction a as [|x a IH]; simpl; [done | by rewrite IH, andb_assoc]. Qed.

Lemma allDigits_hasByte c s : Regexp.isDigit c = false -> allDigits s = true -> hasByte c s = false.
Proof.
  intros Hc. induction s as [|d s IH]; simpl; [done |].
  intros [Hd Hs]%andb_true_iff. rewrite IH by done.
  destruct (Ascii.eqb_spec d c) as [->|]; [congruence | done].
Qed.

End GoStringsFacts.

(** ** The clause patterns *)

Module RegexpFacts.

Import GoStrings Regexp Spec GoStringsFacts.

Lemma firstMatch_Some {A B} (f : A -> option B) l b :
  firstMatch f l = Some b -> exists a, a ∈ l /\ f a = Some b.
Proof.
  induction l as [|a l IH]; simpl; [done |].
  destruct (f a) eqn:E.
  - intros [= ->]. exists a. split; [left | done].
  - intros (a' & ? & ?)%IH. exists a'. split; [by right | done].
Qed.

Lemma firstMatch_None {A B} (f : A -> option B) l a :
  firstMatch f l = None -> a ∈ l -> f a = None.
Proof.
  induction l as [|x l IH]; simpl; [by intros _ ?%elem_of_nil |].
  destruct (f x) eqn:E; [done |].
  intros H [->|?]%elem_of_cons; auto.
Qed.

Lemma digitRuns_elem s ds r :
  (ds, r) ∈ digitRuns s -> s = (ds ++ r)%string /\ ds <> "" /\ allDigits ds = true.
Proof.
  revert ds. induction s as [|c s IH]; simpl; intros ds; [by intros ?%elem_of_nil |].
  destruct (isDigit c) eqn:Hc; [| by intros ?%elem_of_nil].
  intros [H|H]%elem_of_app.
  - apply (list_elem_of_fmap_1 (fun dr => (String c (fst dr), snd dr))) in H as ([ds' r'] & [= -> ->] & H).
    apply IH in H as (-> & ? & ?). simpl. by rewrite Hc.
  - apply list_elem_of_singleton in H as [= -> ->]. simpl. by rewrite Hc.
Qed.

Lemma digitRuns_longest ds r :
  ds <> "" -> allDigits ds = true -> startsWithDigit r = false ->
  exists shorter, digitRuns (ds ++ r) = (ds, r) :: shorter.
Proof.
  induction ds as [|c ds IH]; [done |]. intros _ [Hc Hds]%andb_true_iff Hr.
  simpl. rewrite Hc. destruct ds as [|d ds].
  - simpl. destruct r as [|x r]; simpl in *; [by eexists |].
    rewrite Hr. by eexists.
  - destruct IH as (shorter & ->); [done.. |]. simpl. by eexists.
Qed.

#[local] Arguments clauseTail : simpl never.

Lemma clauseTail_Some unit close g r g' :
  clauseTail unit close g r = Some g' ->
  g' = g /\ exists plural after,
  r = (unit ++ plural ++ close ++ after)%string /\ isPlural plural.
Proof.
  unfold clauseTail. simpl.
  destruct (CutPrefix r unit) as [r1|] eqn:E1; [| done].
  apply CutPrefix_Some in E1 as ->.
  assert (forall r2, match CutPrefix r2 close with Some _ => Some g | None => None end = Some g' ->
      g' = g /\ exists after, r2 = (close ++ after)%string) as Hclose.
  { intros r2. destruct (CutPrefix r2 close) eqn:E; [| by intros ?].
    apply CutPrefix_Some in E as ->. intros [= <-]. eauto. }
  destruct r1 as [|d r1].
  - intros (-> & after & E)%Hclose. split; [done |].
    exists "", after. split; [simpl; congruence | by left].
  - destruct (Ascii.eqb_spec "s" d) as [<-|Hd].
    + destruct (CutPrefix r1 close) as [after|] eqn:E2.
      * apply CutPrefix_Some in E2 as ->. intros [= <-]. split; [done |].
        exists "s", after. split; [done | by right].
      * intros (-> & after & E)%Hclose. split; [done |].
        exists "", after. split; [simpl; congruence | by left].
    + intros (-> & after & E)%Hclose. split; [done |].
      exists "", after. split; [simpl; congruence | by left].
Qed.

Lemma clauseTail_hit unit close g plural after :
  isPlural plural ->
  clauseTail unit close g (unit ++ plural ++ close ++ after) = Some g.
Proof.
  unfold clauseTail. simpl. rewrite CutPrefix_app.
  intros [-> | ->]; simpl.
  - destruct (close ++ after)%string as [|d r] eqn:E.
    + by rewrite <- E, CutPrefix_app.
    + destruct (Ascii.eqb "s" d); rewrite <- E, ?CutPrefix_app; [| done].
      by destruct (CutPrefix r close).
  - by rewrite CutPrefix_app.
Qed.

Lemma matchHere_clause unit close cap s :
  matchHere (clauseRe unit close) cap s
  = firstMatch (fun dr => clauseTail unit close (fst dr) (snd dr)) (digitRuns s).
Proof. reflexivity. Qed.

Lemma matchHere_Some unit close cap s g :
  matchHere (clauseRe unit close) cap s = Some g ->
  exists after, clauseAt unit close s "" g after.
Proof.
  rewrite matchHere_clause. intros ([ds r] & Hin & Htail)%firstMatch_Some.
  apply digitRuns_elem in Hin as (-> & ? & ?). simpl in Htail.
  apply clauseTail_Some in Htail as (-> & plural & after & -> & ?).
  exists after, plural. simpl. done.
Qed.

Lemma startsWithDigit_app unit rest :
  unit <> "" -> startsWithDigit unit = false -> startsWithDigit (unit ++ rest) = false.
Proof. by destruct unit. Qed.

Lemma matchHere_clauseAt unit close cap s ds after :
  unit <> "" -> startsWithDigit unit = false ->
  clauseAt unit close s "" ds after ->
  matchHere (clauseRe unit close) cap s = Some ds.
Proof.
  intros Hu Hnd (plural & -> & Hpl & Hne & Hds).
  rewrite matchHere_clause. change ("" ++ ?x)%string with x.
  destruct (digitRuns_longest ds (unit ++ plural ++ close ++ after)) as (shorter & ->);
    [done | done | by apply startsWithDigit_app |].
  simpl. by rewrite clauseTail_hit.
Qed.

Lemma FindStringSubmatch_unfold re s :
  FindStringSubmatch re s =
  match matchHere re "" s with
  | Some g => Some g
  | None => match s with
    | EmptyString => None
    | String _ s' => FindStringSubmatch re s'
    end
  end.
Proof. by destruct s. Qed.

(** A match is a clause of the line, and the one that starts first: the
    digits it captures are not the tail of a longer integer. *)
Lemma FindStringSubmatch_Some unit close s g :
  unit <> "" -> startsWithDigit unit = false ->
  FindStringSubmatch (clauseRe unit close) s = Some g ->
  exists before after,
  clauseAt unit close s before g after /\ lastByteIsDigit before = false.
Proof.
  intros Hu Hnd. induction s as [|x s IH]; rewrite FindStringSubmatch_unfold.
  - destruct (matchHere _ _ _) as [g0|] eqn:E; [| done].
    intros [= ->]. apply matchHere_Some in E as [after E]. by exists "", after.
  - destruct (matchHere _ _ _) as [g0|] eqn:E.
    + intros [= ->]. apply matchHere_Some in E as [after E]. by exists "", after.
    + intros (before & after & (plural & -> & Hpl & Hne & Hds) & Hlast)%IH.
      exists (String x before), after. split.
      * exists plural. by simpl.
      * simpl. destruct before as [|y before]; [| done].
        destruct (isDigit x) eqn:Hx; [| done]. exfalso.
        rewrite (matchHere_clauseAt unit close "" _ (String x g) after) in E; [done.. |].
        exists plural. simpl. by rewrite Hx, Hds.
Qed.

(** A line with a clause has a match. *)
Lemma FindStringSubmatch_complete unit close s :
  unit <> "" -> startsWithDigit unit = false ->
  hasClause unit close s -> exists g, FindStringSubmatch (clauseRe unit close) s = Some g.
Proof.
  intros Hu Hnd (before & ds & after & plural & -> & Hpl & Hne & Hds).
  induction before as [|x before IH]; rewrite FindStringSubmatch_unfold.
  - rewrite (matchHere_clauseAt unit close "" _ ds after); [by eexists | done.. |].
    by exists plural.
  - destruct (matchHere _ _ _); [by eexists |]. simpl. apply IH.
Qed.

Lemma FindStringSubmatch_None unit close s :
  unit <> "" -> startsWithDigit unit = false ->
  FindStringSubmatch (clauseRe unit close) s = None -> ~ hasClause unit close s.
Proof.
  intros Hu Hnd E [g Hg]%FindStringSubmatch_complete; [congruence | done..].
Qed.

Lemma decimal_allDigits s acc :
  allDigits s = true -> exists v, Fmt.decimal acc s = Some v.
Proof.
  revert acc. induction s as [|c s IH]; simpl; intros acc; [by eexists |].
  intros [-> Hs]%andb_true_iff. by apply IH.
Qed.

Lemma Sscanf_d_countOf ds :
  ds <> "" -> allDigits ds = true ->
  countOf ds (match Fmt.Sscanf_d ds with Some n => n | None => 0 end).
Proof.
  intros Hne Hds. destruct (decimal_allDigits ds 0 Hds) as [v Hv].
  exists v. split; [done |]. unfold Fmt.Sscanf_d. destruct ds; [done |].
  rewrite Hv. by destruct (v <=? GoInt.maxInt).
Qed.

End RegexpFacts.

(** ** The counts of a statistics line *)

Module ParserFacts.

Import GoStrings Gitstats Spec GoStringsFacts RegexpFacts.

Lemma extractCount_absent unit close line :
  unit <> "" -> startsWithDigit unit = false ->
  ~ hasClause unit close line -> extractCount (clauseRe unit close) line = 0.
Proof.
  intros Hu Hnd Hno. unfold extractCount.
  destruct (Regexp.FindStringSubmatch _ _) as [g|] eqn:E; [| done].
  destruct Hno. apply FindStringSubmatch_Some in E as (before & after & ? & _); [| done..].
  by exists before, g, after.
Qed.

Lemma extractCount_present unit close line :
  unit <> "" -> startsWithDigit unit = false ->
  hasClause unit close line ->
  adjacentCount unit close line (extractCount (clauseRe unit close) line).
Proof.
  intros Hu Hnd [g E]%FindStringSubmatch_complete; [| done..].
  unfold extractCount. rewrite E.
  apply FindStringSubmatch_Some in E as (before & after & Hat & Hlast); [| done..].
  exists before, g, after. split_and!; [done.. |].
  destruct Hat as (? & _ & _ & ? & ?). by apply Sscanf_d_countOf.
Qed.

End ParserFacts.

(** ** Skipping what is not a clause *)

Module SkipFacts.

Import GoStrings Regexp Spec GoStringsFacts RegexpFacts.

Lemma firstMatch_all_None {A B} (f : A -> option B) l :
  (forall a, a ∈ l -> f a = None) -> firstMatch f l = None.
Proof.
  induction l as [|x l IH]; simpl; [done |]. intros H.
  rewrite (H x) by left. apply IH. intros a ?. apply H. by right.
Qed.

Lemma FindStringSubmatch_skip_byte unit close x s :
  isDigit x = false ->
  FindStringSubmatch (clauseRe unit close) (String x s)
  = FindStringSubmatch (clauseRe unit close) s.
Proof.
  intros Hx. rewrite FindStringSubmatch_unfold, matchHere_clause. simpl.
  by rewrite Hx.
Qed.

Lemma digitRuns_rest ds r g rest :
  allDigits ds = true -> startsWithDigit r = false ->
  (g, rest) ∈ digitRuns (ds ++ r) -> rest = r \/ startsWithDigit rest = true.
Proof.
  revert g. induction ds as [|c ds IH]; simpl; intros g.
  - intros _ Hr. destruct r as [|x r]; simpl in *; [by intros ?%elem_of_nil |].
    rewrite Hr. by intros ?%elem_of_nil.
  - intros [Hc Hds]%andb_true_iff Hr. rewrite Hc.
    intros [H|H]%elem_of_app.
    + apply (list_elem_of_fmap_1 (fun dr => (String c (fst dr), snd dr))) in H
        as ([g' rest'] & [= -> ->] & H). by eapply IH.
    + apply list_elem_of_singleton in H as [= -> ->].
      destruct ds as [|d ds]; [by left | right].
      simpl in *. by apply andb_true_iff in Hds as [-> _].
Qed.

Lemma CutPrefix_digit_first unit rest :
  unit <> "" -> startsWithDigit unit = false -> startsWithDigit rest = true ->
  CutPrefix rest unit = None.
Proof.
  destruct unit as [|c unit]; [done |]. destruct rest as [|d rest]; [done |].
  simpl. intros _ Hc Hd. destruct (Ascii.eqb_spec c d) as [->|]; [congruence | done].
Qed.

Lemma clauseTail_no_unit unit close g rest :
  CutPrefix rest unit = None -> clauseTail unit close g rest = None.
Proof. unfold clauseTail. simpl. by intros ->. Qed.

Lemma FindStringSubmatch_skip_digits unit close ds r :
  unit <> "" -> startsWithDigit unit = false ->
  allDigits ds = true -> startsWithDigit r = false -> CutPrefix r unit = None ->
  FindStringSubmatch (clauseRe unit close) (ds ++ r)
  = FindStringSubmatch (clauseRe unit close) r.
Proof.
  intros Hu Hnd Hds Hr Hcut. induction ds as [|c ds IH]; [done |].
  rewrite FindStringSubmatch_unfold, matchHere_clause.
  rewrite firstMatch_all_None.
  - simpl. apply IH. simpl in Hds. by apply andb_true_iff in Hds as [_ ?].
  - intros [g rest] Hin. apply clauseTail_no_unit.
    apply (digitRuns_rest (String c ds)) in Hin as [->|Hd]; [done | | done..].
    by apply CutPrefix_digit_first.
Qed.

Lemma FindStringSubmatch_hit unit close s ds after :
  unit <> "" -> startsWithDigit unit = false ->
  clauseAt unit close s "" ds after ->
  FindStringSubmatch (clauseRe unit close) s = Some ds.
Proof.
  intros Hu Hnd Hat. rewrite FindStringSubmatch_unfold.
  by rewrite (matchHere_clauseAt unit close "" s ds after).
Qed.

Lemma Contains_cons x s p : Contains s p = true -> Contains (String x s) p = true.
Proof. simpl. intros ->. apply orb_true_r. Qed.

Lemma Contains_app_l a s p : Contains s p = true -> Contains (a ++ s) p = true.
Proof. induction a as [|x a IH]; simpl; [done |]. intros ->%IH. apply orb_true_r. Qed.

Lemma decimal_allDigits_inv s acc v : Fmt.decimal acc s = Some v -> allDigits s = true.
Proof.
  revert acc. induction s as [|c s IH]; simpl; intros acc; [done |].
  destruct (isDigit c); [apply IH | done].
Qed.

End SkipFacts.

(** ** The loop over the lines, as a list of tuples *)

Module RecordFacts.

Import GoStrings Gitstats Spec GoStringsFacts RegexpFacts SkipFacts.

Lemma last_filter_cons (l : string) ls a :
  default a (last (l :: ls)) = default l (last ls).
Proof.
  destruct ls as [|x ls]; [done |].
  change (last (l :: x :: ls)) with (last (x :: ls)).
  assert (is_Some (last (x :: ls))) as [y ->]; [| done].
  revert x. induction ls as [|z ls IH]; intros x; [by eexists | apply IH].
Qed.

Lemma attributions_app a l1 l2 :
  attributions a (l1 ++ l2)
  = (attributions a l1 ++ attributions (default a (lastAuthorLine l1)) l2)%list.
Proof.
  revert a. induction l1 as [|l l1 IH]; intros a; [done |].
  unfold lastAuthorLine, isAuthorLine. simpl.
  destruct (String.eqb l ""); simpl; [apply IH |].
  destruct (isStatLine l); simpl.
  - f_equal. apply IH.
  - rewrite IH. f_equal. f_equal. unfold lastAuthorLine, isAuthorLine.
    symmetry. apply last_filter_cons.
Qed.

Lemma attributions_length a ls :
  length (attributions a ls) = length (List.filter isStatisticsLine ls).
Proof.
  revert a. induction ls as [|l ls IH]; intros a; [done |].
  unfold isStatisticsLine. simpl.
  destruct (String.eqb l ""); simpl; [apply IH |].
  destruct (isStatLine l); simpl; by rewrite IH.
Qed.

Lemma attributions_at a before line after :
  isStatisticsLine line = true ->
  attributions a (before ++ line :: after) !! length (List.filter isStatisticsLine before)
  = Some (default a (lastAuthorLine before),
    extractCount insertionRegex line, extractCount deletionRegex line).
Proof.
  intros [Hne Hstat]%andb_true_iff. rewrite attributions_app.
  rewrite <- (attributions_length a before).
  rewrite lookup_app_r, Nat.sub_diag by done.
  simpl. apply negb_true_iff in Hne. by rewrite Hne, Hstat.
Qed.

End RecordFacts.

(** ** The summary line of [git log --shortstat] *)

Module ShortstatFacts.

Import GoStrings Gitstats Spec GoStringsFacts RegexpFacts SkipFacts RecordFacts.

#[local] Arguments Regexp.FindStringSubmatch : simpl never.

Section line.

Variables files pf ins pi del pd : string.
Hypothesis files_digits : allDigits files = true.
Hypothesis ins_digits : allDigits ins = true.
Hypothesis del_digits : allDigits del = true.
Hypothesis ins_ne : ins <> "".
Hypothesis del_ne : del <> "".
Hypothesis pf_plural : isPlural pf.
Hypothesis pi_plural : isPlural pi.
Hypothesis pd_plural : isPlural pd.

Let line := shortstat files pf ins pi del pd.

Lemma shortstat_isStatLine : isStatLine line = true.
Proof.
  unfold isStatLine, line, shortstat. apply orb_true_iff.
  destruct pf_plural as [-> | ->]; [right | left];
    apply Contains_cons, Contains_app_l, Contains_cons, Contains_HasPrefix; reflexivity.
Qed.

Lemma shortstat_no_newline : hasByte newline line = false.
Proof.
  unfold line, shortstat.
  rewrite !hasByte_app.
  rewrite (allDigits_hasByte newline files), (allDigits_hasByte newline ins),
    (allDigits_hasByte newline del) by done.
  by destruct pf_plural as [-> | ->], pi_plural as [-> | ->], pd_plural as [-> | ->].
Qed.

Lemma shortstat_insertions :
  Regexp.FindStringSubmatch insertionRegex line = Some ins.
Proof.
  change insertionRegex with (clauseRe " insertion" "(+)").
  unfold line, shortstat. simpl.
  rewrite FindStringSubmatch_skip_byte by done.
  rewrite FindStringSubmatch_skip_digits by done.
  destruct pf_plural as [-> | ->]; simpl;
    rewrite !FindStringSubmatch_skip_byte by done;
    (apply FindStringSubmatch_hit with (after := (", " ++ del ++ " deletion" ++ pd ++ "(-)")%string);
      [done | done | by exists pi]).
Qed.

Lemma shortstat_deletions :
  Regexp.FindStringSubmatch deletionRegex line = Some del.
Proof.
  change deletionRegex with (clauseRe " deletion" "(-)").
  unfold line, shortstat. simpl.
  rewrite FindStringSubmatch_skip_byte by done.
  rewrite FindStringSubmatch_skip_digits by done.
  assert (Regexp.FindStringSubmatch (clauseRe " deletion" "(-)")
      (ins ++ " insertion" ++ pi ++ "(+), " ++ del ++ " deletion" ++ pd ++ "(-)")
      = Some del) as Hrest.
  { rewrite FindStringSubmatch_skip_digits by done.
    destruct pi_plural as [-> | ->]; simpl;
      rewrite !FindStringSubmatch_skip_byte by done;
      (apply FindStringSubmatch_hit with (after := ""); [done | done |];
        exists pd; by rewrite !append_nil_r). }
  destruct pf_plural as [-> | ->]; simpl;
    by rewrite !FindStringSubmatch_skip_byte by done.
Qed.

End line.

Lemma Sscanf_d_decimal ds n :
  ds <> "" -> Fmt.decimal 0 ds = Some n -> n <= GoInt.maxInt -> Fmt.Sscanf_d ds = Some n.
Proof.
  intros Hne Hn Hle. unfold Fmt.Sscanf_d. destruct ds; [done |].
  rewrite Hn. by rewrite (proj2 (Z.leb_le _ _) Hle).
Qed.

(** One author line and one summary line make one tuple. *)
Lemma RecordParser_single who files pf ins pi del pd N M :
  isAuthorLine who = true -> hasByte newline who = false ->
  allDigits files = true -> isPlural pf ->
  ins <> "" -> Fmt.decimal 0 ins = Some N -> N <= GoInt.maxInt -> isPlural pi ->
  del <> "" -> Fmt.decimal 0 del = Some M -> M <= GoInt.maxInt -> isPlural pd ->
  RecordParser (who ++ nl ++ shortstat files pf ins pi del pd ++ nl) = [(who, N, M)].
Proof.
  intros Hwho Hnl Hfiles Hpf Hins HN HNle Hpi Hdel HM HMle Hpd.
  pose proof (decimal_allDigits_inv _ _ _ HN) as Hinsd.
  pose proof (decimal_allDigits_inv _ _ _ HM) as Hdeld.
  unfold RecordParser, nl.
  change (String newline "" ++ ?x)%string with (String newline x).
  rewrite Split_app_sep by done.
  rewrite Split_app_sep by by apply shortstat_no_newline.
  apply andb_true_iff in Hwho as [Hne Hnot].
  apply negb_true_iff in Hne, Hnot.
  simpl. rewrite Hne, Hnot.
  rewrite shortstat_isStatLine by done.
  unfold extractCount.
  rewrite shortstat_insertions, shortstat_deletions by done.
  rewrite (Sscanf_d_decimal ins N), (Sscanf_d_decimal del M) by done.
  unfold shortstat. done.
Qed.

End ShortstatFacts.

(** ** The Aggregator *)

Module AggregateFacts.

Import GoStrings Gitstats Spec GoIntFacts RecordFacts.

Lemma accumulate_eq month who counts (all : gmap string (gmap string ChangesStats)) :
  accumulate month who counts all
  = <[who := <[month := bump (cellOr0 all who month) counts]> (monthsOf all who)]> all.
Proof. reflexivity. Qed.

Lemma accumulate_lookup month who counts (all : gmap string (gmap string ChangesStats)) a :
  accumulate month who counts all !! a
  = if decide (who = a) then mergedEntry month all who (Some counts) else all !! a.
Proof. rewrite accumulate_eq, lookup_insert. by case_decide. Qed.

Lemma mergedEntry_accumulate_ne month who counts (all : gmap string (gmap string ChangesStats)) a o :
  who <> a ->
  mergedEntry month (accumulate month who counts all) a o = mergedEntry month all a o.
Proof.
  intros Hne. unfold mergedEntry, cellOr0, monthsOf.
  rewrite accumulate_lookup, decide_False by done. done.
Qed.

(** The loop over [stats], read author by author. *)
Lemma rangeLoop_accumulate_lookup month entries (all : gmap string (gmap string ChangesStats)) a :
  NoDup (entries.*1) ->
  GoMap.rangeLoop (accumulate month) entries all !! a
  = mergedEntry month all a ((list_to_map entries : gmap string (Z * Z)) !! a).
Proof.
  unfold GoMap.rangeLoop. revert all.
  induction entries as [|[k p] entries IH]; intros all Hnd; [done |].
  apply NoDup_cons in Hnd as [Hk Hnd]. simpl.
  rewrite IH by done. destruct (decide (k = a)) as [->|Hne].
  - rewrite lookup_insert_eq.
    rewrite (not_elem_of_list_to_map_1 entries a) by done. simpl.
    by rewrite accumulate_lookup, decide_True.
  - rewrite lookup_insert_ne by done. by apply mergedEntry_accumulate_ne.
Qed.

Lemma bump_bump c p ins del :
  bump (bump c p) (ins, del) = bump c (GoInt.add (fst p) ins, GoInt.add (snd p) del).
Proof. unfold bump. simpl. by rewrite !add_assoc. Qed.

Lemma bump_zero_l c ins del :
  bump c (GoInt.add 0 ins, GoInt.add 0 del) = bump c (ins, del).
Proof.
  unfold bump. simpl. unfold GoInt.add at 2 4. rewrite !Z.add_0_l.
  by rewrite !add_wrap_r.
Qed.

(** The tuples of a scan folded one by one, read author by author. *)
Lemma fold_addCell_lookup month ts (all : gmap string (gmap string ChangesStats)) a :
  fold_left (addCell month) ts all !! a
  = mergedEntry month all a (fold_left addLocal ts ∅ !! a).
Proof.
  induction ts as [|[[who ins] del] ts IH] using rev_ind; [done |].
  rewrite !fold_left_app. simpl.
  set (all' := fold_left (addCell month) ts all) in *.
  set (s := fold_left addLocal ts ∅) in *.
  rewrite accumulate_lookup, lookup_insert.
  destruct (decide (who = a)) as [->|Hne]; [| done].
  unfold mergedEntry at 1. unfold cellOr0 at 1, monthsOf at 1 2. rewrite IH.
  destruct (s !! a) as [p|] eqn:Es; simpl.
  - rewrite lookup_insert_eq. simpl. by rewrite insert_insert_eq, bump_bump.
  - fold (monthsOf all a). fold (cellOr0 all a month). by rewrite bump_zero_l.
Qed.

(** Lines 109-118 do for the whole scan what folding its tuples one by
    one does, in whatever order the range visits [stats]. *)
Lemma rangeLoop_accumulate_fold month ts entries (all : gmap string (gmap string ChangesStats)) :
  GoMap.ranges (fold_left addLocal ts ∅) entries ->
  GoMap.rangeLoop (accumulate month) entries all = fold_left (addCell month) ts all.
Proof.
  unfold GoMap.ranges. intros Hperm. apply map_eq. intros a.
  assert (NoDup (entries.*1)) as Hnd.
  { rewrite Hperm. apply NoDup_fst_map_to_list. }
  rewrite rangeLoop_accumulate_lookup, fold_addCell_lookup by done.
  by rewrite (list_to_map_proper _ _ Hnd Hperm), list_to_map_to_list.
Qed.

(** The loop over the lines, tuple by tuple. *)
Lemma lineStep_fold lines a s g :
  fold_left lineStep lines (mkScanState a s g)
  = mkScanState (default a (lastAuthorLine lines))
  (fold_left addLocal (attributions a lines) s)
  (fold_left addTotals (attributions a lines) g).
Proof.
  revert a s g. induction lines as [|l lines IH]; intros a s g; [done |].
  unfold lastAuthorLine, isAuthorLine. simpl. unfold lineStep at 2. simpl.
  destruct (String.eqb l ""); simpl; [apply IH |].
  destruct (isStatLine l); simpl; rewrite IH; [done |].
  f_equal. unfold lastAuthorLine, isAuthorLine. symmetry. apply last_filter_cons.
Qed.

Lemma fold_addTotals ts g :
  fold_left addTotals ts g
  = mkGlobalStats (Stats g) (fold_left addIns ts (totalInsertions g))
  (fold_left addDel ts (totalDeletions g)).
Proof.
  revert g. induction ts as [|[[who ins] del] ts IH]; intros g; [by destruct g |].
  simpl. by rewrite IH.
Qed.

Lemma Aggregator_eq month ts g :
  Aggregator month ts g
  = mkGlobalStats (fold_left (addCell month) ts (Stats g))
  (fold_left addIns ts (totalInsertions g))
  (fold_left addDel ts (totalDeletions g)).
Proof.
  unfold Aggregator. revert g.
  induction ts as [|[[who ins] del] ts IH]; intros g; [by destruct g |].
  simpl. by rewrite IH.
Qed.

(** [processDir] on the output of [git] is the Aggregator run on the
    tuples of the Record Parser. *)
Lemma processOutput_Aggregator first output g :
  processOutput first output g = Aggregator (monthKey first) (RecordParser output) g.
Proof.
  unfold processOutput, scanLines, RecordParser. rewrite lineStep_fold. simpl.
  rewrite Aggregator_eq, fold_addTotals. unfold accumulateAll. simpl. f_equal.
  apply rangeLoop_accumulate_fold. by unfold GoMap.ranges.
Qed.

(** The order in which the range visits [stats] does not matter. *)
Lemma accumulateAll_ranges month (s : gmap string (Z * Z)) entries g :
  GoMap.ranges s entries ->
  accumulateAll month entries g = accumulateAll month (map_to_list s) g.
Proof.
  unfold GoMap.ranges. intros Hperm. unfold accumulateAll. f_equal.
  apply map_eq. intros a.
  assert (NoDup (entries.*1)) as Hnd.
  { rewrite Hperm. apply NoDup_fst_map_to_list. }
  rewrite !rangeLoop_accumulate_lookup by (done || apply NoDup_fst_map_to_list).
  by rewrite (list_to_map_proper _ _ Hnd Hperm).
Qed.

(** *** Sums over maps *)

Lemma mapSum_empty {A} (f : A -> Z) : mapSum f ∅ = 0.
Proof. apply map_fold_empty. Qed.

Lemma mapSum_insert_None {A} (f : A -> Z) (m : gmap string A) k x :
  m !! k = None -> mapSum f (<[k:=x]> m) = f x + mapSum f m.
Proof.
  intros Hk. unfold mapSum. rewrite map_fold_insert_L; [done | intros; lia | done].
Qed.

Lemma mapSum_delete {A} (f : A -> Z) (m : gmap string A) k x :
  m !! k = Some x -> mapSum f m = f x + mapSum f (delete k m).
Proof.
  intros Hk. rewrite <- (insert_delete_id m k x) at 1 by done.
  apply mapSum_insert_None, lookup_delete_eq.
Qed.

Lemma mapSum_insert {A} (f : A -> Z) (m : gmap string A) k x :
  mapSum f (<[k:=x]> m) = f x + mapSum f m - from_option f 0 (m !! k).
Proof.
  destruct (m !! k) as [y|] eqn:Hk; simpl.
  - rewrite <- insert_delete_eq, mapSum_insert_None by apply lookup_delete_eq.
    rewrite (mapSum_delete f m k y) by done. lia.
  - rewrite mapSum_insert_None by done. lia.
Qed.

Lemma mapSum_nonneg {A} (f : A -> Z) (m : gmap string A) :
  (forall k x, m !! k = Some x -> 0 <= f x) -> 0 <= mapSum f m.
Proof.
  induction m as [|k x m Hk IH] using map_ind; intros Hf.
  - by rewrite mapSum_empty.
  - rewrite mapSum_insert_None by done.
    pose proof (Hf k x (lookup_insert_eq _ _ _)).
    assert (0 <= mapSum f m); [| lia].
    apply IH. intros k' x' Hk'. apply (Hf k').
    rewrite lookup_insert_ne; [done | congruence].
Qed.

Lemma mapSum_lookup_le {A} (f : A -> Z) (m : gmap string A) k x :
  (forall k x, m !! k = Some x -> 0 <= f x) -> m !! k = Some x -> f x <= mapSum f m.
Proof.
  intros Hf Hk. rewrite (mapSum_delete f m k x) by done.
  assert (0 <= mapSum f (delete k m)); [| lia].
  apply mapSum_nonneg. intros k' x' [_ Hk']%lookup_delete_Some. by eapply Hf.
Qed.

Lemma cellSum_accumulate f month who counts (all : gmap string (gmap string ChangesStats)) :
  f (mkChangesStats 0 0) = 0 ->
  cellSum f (accumulate month who counts all)
  = cellSum f all - f (cellOr0 all who month) + f (bump (cellOr0 all who month) counts).
Proof.
  intros Hf0. rewrite accumulate_eq. unfold cellSum.
  rewrite mapSum_insert, mapSum_insert.
  unfold cellOr0, monthsOf.
  destruct (all !! who) as [months|]; simpl.
  - destruct (months !! month); simpl; lia.
  - rewrite lookup_empty, mapSum_empty. simpl. lia.
Qed.

(** *** The totals follow the cells *)

Lemma consistent_gb0 : consistent gb0.
Proof. split; reflexivity. Qed.

Lemma consistent_foldTuple month g t : consistent g -> consistent (foldTuple month g t).
Proof.
  destruct t as [[who ins] del]. intros [Hi Hd]. split; simpl.
  - rewrite (cellSum_accumulate Insertions) by done.
    rewrite Hi. simpl. unfold GoInt.add. rewrite wrap_wrap_add_l, wrap_wrap_add_r.
    f_equal. lia.
  - rewrite (cellSum_accumulate Deletions) by done.
    rewrite Hd. simpl. unfold GoInt.add. rewrite wrap_wrap_add_l, wrap_wrap_add_r.
    f_equal. lia.
Qed.

Lemma consistent_Aggregator month ts g : consistent g -> consistent (Aggregator month ts g).
Proof.
  unfold Aggregator. revert g. induction ts as [|t ts IH]; intros g Hg; [done |].
  simpl. by apply IH, consistent_foldTuple.
Qed.

Lemma consistent_processOutput first output g :
  consistent g -> consistent (processOutput first output g).
Proof. rewrite processOutput_Aggregator. apply consistent_Aggregator. Qed.

(** *** Folding commutes *)

Lemma monthsOf_accumulate_ne month who counts (all : gmap string (gmap string ChangesStats)) a :
  who <> a -> monthsOf (accumulate month who counts all) a = monthsOf all a.
Proof. intros. unfold monthsOf. by rewrite accumulate_lookup, decide_False. Qed.

Lemma cellOr0_accumulate_ne month month' who counts
  (all : gmap string (gmap string ChangesStats)) a :
  who <> a -> cellOr0 (accumulate month who counts all) a month' = cellOr0 all a month'.
Proof. intros. unfold cellOr0. by rewrite monthsOf_accumulate_ne. Qed.

Lemma monthsOf_accumulate month who counts (all : gmap string (gmap string ChangesStats)) :
  monthsOf (accumulate month who counts all) who
  = <[month := bump (cellOr0 all who month) counts]> (monthsOf all who).
Proof. unfold monthsOf at 1. by rewrite accumulate_lookup, decide_True. Qed.

Lemma bump_comm c p q : bump (bump c p) q = bump (bump c q) p.
Proof.
  unfold bump. simpl. f_equal.
  - by rewrite !add_assoc, (add_comm (fst p)).
  - by rewrite !add_assoc, (add_comm (snd p)).
Qed.

Lemma accumulate_comm m1 a1 p1 m2 a2 p2 (all : gmap string (gmap string ChangesStats)) :
  accumulate m1 a1 p1 (accumulate m2 a2 p2 all)
  = accumulate m2 a2 p2 (accumulate m1 a1 p1 all).
Proof.
  destruct (decide (a1 = a2)) as [->|Hne].
  - rewrite (accumulate_eq m1), (accumulate_eq m2 a2 p2 (accumulate _ _ _ _)).
    unfold cellOr0. rewrite !monthsOf_accumulate.
    rewrite !accumulate_eq, !insert_insert_eq. f_equal.
    destruct (decide (m1 = m2)) as [->|Hm].
    + rewrite !lookup_insert_eq, !insert_insert_eq. simpl. by rewrite bump_comm.
    + rewrite !lookup_insert_ne by done. by apply insert_insert_ne.
  - rewrite (accumulate_eq m1), (accumulate_eq m2 a2 p2 (accumulate _ _ _ _)).
    rewrite !cellOr0_accumulate_ne, !monthsOf_accumulate_ne by done.
    rewrite !accumulate_eq. by apply insert_insert_ne.
Qed.

Lemma foldTuple_comm m1 t1 m2 t2 g :
  foldTuple m1 (foldTuple m2 g t2) t1 = foldTuple m2 (foldTuple m1 g t1) t2.
Proof.
  destruct t1 as [[a1 i1] d1], t2 as [[a2 i2] d2]. unfold foldTuple. simpl. f_equal.
  - apply accumulate_comm.
  - by rewrite !add_assoc, (add_comm i1).
  - by rewrite !add_assoc, (add_comm d1).
Qed.

Lemma fold_left_comm {A B C} (f : A -> B -> A) (h : A -> C -> A) l1 l2 x :
  (forall x b c, f (h x c) b = h (f x b) c) ->
  fold_left f l1 (fold_left h l2 x) = fold_left h l2 (fold_left f l1 x).
Proof.
  intros Hfh.
  assert (forall b y, f (fold_left h l2 y) b = fold_left h l2 (f y b)) as Hstep.
  { intros b. induction l2 as [|c l2 IH]; intros y; [done |].
    simpl. by rewrite IH, Hfh. }
  revert x. induction l1 as [|b l1 IH]; intros x; [done |].
  simpl. by rewrite Hstep, IH.
Qed.

Lemma fold_left_Permutation {A B} (f : A -> B -> A) l1 l2 x :
  (forall x b c, f (f x b) c = f (f x c) b) ->
  l1 ≡ₚ l2 -> fold_left f l1 x = fold_left f l2 x.
Proof.
  intros Hf Hperm. revert x.
  induction Hperm as [|b l1 l2 _ IH|b c l|l1 l2 l3 _ IH1 _ IH2]; intros x; simpl.
  - done.
  - apply IH.
  - by rewrite Hf.
  - by rewrite IH1.
Qed.

Lemma Aggregator_comm m1 ts1 m2 ts2 g :
  Aggregator m1 ts1 (Aggregator m2 ts2 g) = Aggregator m2 ts2 (Aggregator m1 ts1 g).
Proof. apply fold_left_comm. intros. apply foldTuple_comm. Qed.

Lemma Aggregator_Permutation month ts1 ts2 g :
  ts1 ≡ₚ ts2 -> Aggregator month ts1 g = Aggregator month ts2 g.
Proof. apply fold_left_Permutation. intros. apply foldTuple_comm. Qed.

Lemma processOutput_comm first1 out1 first2 out2 g :
  processOutput first1 out1 (processOutput first2 out2 g)
  = processOutput first2 out2 (processOutput first1 out1 g).
Proof. rewrite !processOutput_Aggregator. apply Aggregator_comm. Qed.

Lemma runScans_Permutation scans1 scans2 g :
  scans1 ≡ₚ scans2 -> runScans scans1 g = runScans scans2 g.
Proof. apply fold_left_Permutation. intros. apply processOutput_comm. Qed.

(** *** Without overflow nothing decreases *)

Lemma isDigit_digitValue c : Regexp.isDigit c = true -> 0 <= Fmt.digitValue c <= 9.
Proof.
  unfold Regexp.isDigit, Fmt.digitValue.
  intros [H1 H2]%andb_true_iff. apply Nat.leb_le in H1, H2. lia.
Qed.

Lemma decimal_nonneg s acc v : 0 <= acc -> Fmt.decimal acc s = Some v -> 0 <= v.
Proof.
  revert acc. induction s as [|c s IH]; simpl; intros acc Hacc; [by intros [= <-] |].
  destruct (Regexp.isDigit c) eqn:Hc; [| done].
  apply IH. pose proof (isDigit_digitValue c Hc). lia.
Qed.

Lemma Sscanf_d_range s n : Fmt.Sscanf_d s = Some n -> 0 <= n <= GoInt.maxInt.
Proof.
  unfold Fmt.Sscanf_d. destruct s as [|c s]; [done |].
  destruct (Fmt.decimal 0 (String c s)) as [v|] eqn:Hv; [| done].
  destruct (v <=? GoInt.maxInt) eqn:Hle; [| done]. intros [= <-].
  split; [by eapply decimal_nonneg | by apply Z.leb_le].
Qed.

(** The counts are non-negative [int]s by construction of the patterns. *)
Lemma extractCount_range re line : 0 <= extractCount re line <= GoInt.maxInt.
Proof.
  unfold extractCount. destruct (Regexp.FindStringSubmatch re line) as [g|]; [| done].
  destruct (Fmt.Sscanf_d g) as [n|] eqn:Hn; [by eapply Sscanf_d_range | done].
Qed.

Lemma attributions_nonneg a lines :
  Forall (fun t => 0 <= tupleIns t /\ 0 <= tupleDel t) (attributions a lines).
Proof.
  revert a. induction lines as [|l lines IH]; intros a; simpl; [constructor |].
  destruct (String.eqb l ""); [apply IH |].
  destruct (isStatLine l); [| apply IH].
  constructor; [| apply IH]. unfold tupleIns, tupleDel. simpl.
  split; apply extractCount_range.
Qed.

Lemma neverDecreases_refl g : neverDecreases g g.
Proof. split; [| lia]. intros who month c Hc. exists c. split; [done | lia]. Qed.

Lemma neverDecreases_trans g1 g2 g3 :
  neverDecreases g1 g2 -> neverDecreases g2 g3 -> neverDecreases g1 g3.
Proof.
  intros [H1 ?] [H2 ?]. split; [| lia].
  intros who month c (c' & Hc' & ?)%H1. apply H2 in Hc' as (c'' & ? & ?).
  exists c''. split; [done | lia].
Qed.

Lemma cell_cellOr0 g who month c :
  cell g who month = Some c -> cellOr0 (Stats g) who month = c.
Proof.
  unfold cell, cellOr0, monthsOf. destruct (Stats g !! who); simpl; [| done].
  by intros ->.
Qed.

Lemma cellOr0_bounds g who month :
  nonNegative g ->
  0 <= Insertions (cellOr0 (Stats g) who month) <= cellSum Insertions (Stats g) /\
  0 <= Deletions (cellOr0 (Stats g) who month) <= cellSum Deletions (Stats g).
Proof.
  intros [Hcells _].
  assert (forall f : ChangesStats -> Z,
      (forall a m c, cell g a m = Some c -> 0 <= f c) -> f (mkChangesStats 0 0) = 0 ->
      0 <= f (cellOr0 (Stats g) who month) <= cellSum f (Stats g)) as Hf.
  { intros f Hpos Hf0.
    assert (forall a months, Stats g !! a = Some months ->
        forall m c, months !! m = Some c -> 0 <= f c) as Hin.
    { intros a months Ha m c Hc. apply (Hpos a m). unfold cell. by rewrite Ha. }
    assert (0 <= cellSum f (Stats g)) as Hsum.
    { apply mapSum_nonneg. intros a months Ha. apply mapSum_nonneg. by eapply Hin. }
    unfold cellOr0, monthsOf.
    destruct (Stats g !! who) as [months|] eqn:Ha; simpl;
      [| rewrite lookup_empty; simpl; lia].
    destruct (months !! month) as [c|] eqn:Hc; simpl; [| lia].
    split; [by eapply Hin |].
    etrans; [by apply (mapSum_lookup_le f months month c); [eapply Hin |] |].
    apply (mapSum_lookup_le (mapSum f) (Stats g) who months); [| done].
    intros a' months' Ha'. apply mapSum_nonneg. by eapply Hin. }
  split; apply Hf; try done; intros a m c Hc; by destruct (Hcells _ _ _ Hc).
Qed.

Lemma cell_accumulate g month who counts a m :
  cell (mkGlobalStats (accumulate month who counts (Stats g))
    (totalInsertions g) (totalDeletions g)) a m
  = if decide (who = a /\ month = m)
  then Some (bump (cellOr0 (Stats g) who month) counts)
  else cell g a m.
Proof.
  unfold cell. simpl. rewrite accumulate_lookup.
  destruct (decide (who = a)) as [->|Hne]; simpl.
  - rewrite lookup_insert. destruct (decide (month = m)) as [->|Hm].
    + by rewrite decide_True.
    + rewrite decide_False by (intros [_ ?]; congruence). unfold monthsOf.
      by destruct (Stats g !! a).
  - by rewrite decide_False by (intros [? _]; congruence).
Qed.

Lemma foldTuple_no_overflow month g who ins del :
  nonNegative g -> exact g -> 0 <= ins -> 0 <= del ->
  totalInsertions g + ins <= GoInt.maxInt -> totalDeletions g + del <= GoInt.maxInt ->
  let g' := foldTuple month g (who, ins, del) in
  nonNegative g' /\ exact g' /\ neverDecreases g g' /\
  totalInsertions g' = totalInsertions g + ins /\ totalDeletions g' = totalDeletions g + del.
Proof.
  intros Hnn [Hei Hed] Hins Hdel Hi Hd.
  destruct (cellOr0_bounds g who month Hnn) as [Hci Hcd].
  destruct Hnn as (Hcells & Hti & Htd).
  set (c0 := cellOr0 (Stats g) who month) in *.
  assert (forall a b, 0 <= a -> 0 <= b -> a + b <= GoInt.maxInt -> GoInt.add a b = a + b) as Hadd.
  { intros a b ? ? ?. apply add_exact. unfold GoInt.inRange, GoInt.minInt, GoInt.maxInt in *.
    change GoInt.half with (2 ^ 63) in *. lia. }
  assert (bump c0 (ins, del) = mkChangesStats (Insertions c0 + ins) (Deletions c0 + del)) as Hbump.
  { unfold bump. simpl. rewrite !Hadd; [done | lia..]. }
  simpl. split_and!.
  - split_and!; simpl; [| rewrite Hadd; lia..].
    intros a m c. pose proof (cell_accumulate g month who (ins, del) a m) as Hcell.
    unfold cell in *. simpl in *. rewrite Hcell. fold c0. rewrite Hbump.
    case_decide; [intros [= <-]; simpl; lia | apply Hcells].
  - split; simpl.
    + rewrite (cellSum_accumulate Insertions) by done. fold c0. rewrite Hbump. simpl.
      rewrite Hadd; lia.
    + rewrite (cellSum_accumulate Deletions) by done. fold c0. rewrite Hbump. simpl.
      rewrite Hadd; lia.
  - split_and!; simpl; [| rewrite Hadd; lia..].
    intros a m c Hc. pose proof (cell_accumulate g month who (ins, del) a m) as Hcell.
    unfold cell in *. simpl in *. rewrite Hcell. fold c0. rewrite Hbump.
    case_decide as Hdec.
    + destruct Hdec as [<- <-]. eexists. split; [done |].
      pose proof (cell_cellOr0 g who month c Hc) as Hc0. fold c0 in Hc0. subst c.
      simpl. lia.
    + exists c. split; [done | lia].
  - rewrite Hadd; lia.
  - rewrite Hadd; lia.
Qed.

Lemma Aggregator_no_overflow month ts g :
  Forall (fun t => 0 <= tupleIns t /\ 0 <= tupleDel t) ts ->
  nonNegative g -> exact g ->
  totalInsertions g + sumList (tupleIns <$> ts) <= GoInt.maxInt ->
  totalDeletions g + sumList (tupleDel <$> ts) <= GoInt.maxInt ->
  let g' := Aggregator month ts g in
  nonNegative g' /\ exact g' /\ neverDecreases g g'.
Proof.
  intros Hts. revert g. induction Hts as [|[[who ins] del] ts [Hi Hd] Hts IH];
    intros g Hnn Hex Hsi Hsd.
  { simpl. split_and!; [done.. | apply neverDecreases_refl]. }
  unfold tupleIns, tupleDel in Hi, Hd. simpl in Hi, Hd.
  change (sumList (tupleIns <$> (who, ins, del) :: ts))
    with (ins + sumList (tupleIns <$> ts)) in Hsi.
  change (sumList (tupleDel <$> (who, ins, del) :: ts))
    with (del + sumList (tupleDel <$> ts)) in Hsd.
  assert (0 <= sumList (tupleIns <$> ts) /\ 0 <= sumList (tupleDel <$> ts)) as [? ?].
  { clear -Hts. induction Hts as [|t ts [? ?] _ [? ?]]; [done |].
    change (sumList (tupleIns <$> t :: ts)) with (tupleIns t + sumList (tupleIns <$> ts)).
    change (sumList (tupleDel <$> t :: ts)) with (tupleDel t + sumList (tupleDel <$> ts)).
    lia. }
  destruct (foldTuple_no_overflow month g who ins del) as (Hnn' & Hex' & Hmono & Eti & Etd);
    [done | done | lia..|].
  destruct (IH (foldTuple month g (who, ins, del))) as (? & ? & ?);
    [done | done | rewrite Eti; lia | rewrite Etd; lia |].
  simpl. split_and!; [done.. |]. by eapply neverDecreases_trans.
Qed.

Lemma processOutput_no_overflow first output g :
  nonNegative g -> exact g ->
  totalInsertions g + sumList (tupleIns <$> RecordParser output) <= GoInt.maxInt ->
  totalDeletions g + sumList (tupleDel <$> RecordParser output) <= GoInt.maxInt ->
  let g' := processOutput first output g in
  nonNegative g' /\ exact g' /\ neverDecreases g g'.
Proof.
  intros. subst g'. rewrite processOutput_Aggregator.
  apply Aggregator_no_overflow; [apply attributions_nonneg | done..].
Qed.

Lemma nonNegative_gb0 : nonNegative gb0.
Proof. split; [| done]. intros who month c. unfold cell. simpl. by rewrite lookup_empty. Qed.

Lemma exact_gb0 : exact gb0.
Proof. split; reflexivity. Qed.

End AggregateFacts.

(** ** The loops of [main] *)

Module LoopFacts.

Import GoStrings Gitstats Spec AggregateFacts.

Lemma processDir_Ok env i first last dir g output :
  Output env i (gitArgs dir first last) = Ok output ->
  processDir env i first last dir g
  = ([LogPrintln (Join (gitArgs dir first last) " ")], Ok (processOutput first output g)).
Proof. unfold processDir. by intros ->. Qed.

Lemma processDir_Err env i first last dir g e :
  Output env i (gitArgs dir first last) = Err e ->
  processDir env i first last dir g
  = ([LogPrintln (Join (gitArgs dir first last) " ")],
    Err ("failed to execute command: " ++ e)%string).
Proof. unfold processDir. by intros ->. Qed.

Lemma processDir_cases env i first last dir g :
  (exists output, (processDir env i first last dir g).2 = Ok (processOutput first output g)) \/
  (exists e, (processDir env i first last dir g).2 = Err e).
Proof.
  unfold processDir. simpl. destruct (Output env i _); [left | right]; by eexists.
Qed.

Section invariant.

Variable P : GlobalStats -> Prop.
Hypothesis P_processOutput : forall first output g, P g -> P (processOutput first output g).

Lemma dirsLoop_invariant env i first last dirs g :
  P g -> P (dirsLoop env i first last dirs g).2.
Proof.
  revert g. induction dirs as [|dir dirs IH]; intros g Hg; [done |].
  simpl. destruct (IsDir dir); [| by apply IH].
  destruct (Output env i _) as [output|e].
  - specialize (IH (processOutput first output g) (P_processOutput _ _ _ Hg)).
    by destruct (dirsLoop env i first last dirs _).
  - specialize (IH g Hg). by destruct (dirsLoop env i first last dirs g).
Qed.

Lemma monthsLoop_invariant env n i g :
  P g -> P (monthsLoop env n i g).1.2.
Proof.
  revert i g. induction n as [|n IH]; intros i g Hg; [done |].
  simpl. destruct (allRepos env).
  - destruct (ReadDir env i (baseDir env)) as [dirs|e]; [| done].
    pose proof (dirsLoop_invariant env i (firstDayOfMonth (Now env i) i)
        (lastDayOfMonth (Now env i) i) dirs g Hg) as Hd.
    destruct (dirsLoop env i _ _ dirs g) as [log g1]. simpl in Hd.
    specialize (IH (i + 1) g1 Hd).
    by destruct (monthsLoop env n (i + 1) g1) as [[rest g'] x].
  - destruct (Output env i _) as [output|e]; [| done].
    specialize (IH (i + 1) _ (P_processOutput (firstDayOfMonth (Now env i) i) output g Hg)).
    by destruct (monthsLoop env n (i + 1) _) as [[rest g'] x].
Qed.

Lemma runScans_invariant scans g : P g -> P (runScans scans g).
Proof.
  unfold runScans. revert g. induction scans as [|s scans IH]; intros g Hg; [done |].
  simpl. by apply IH, P_processOutput.
Qed.

End invariant.

Lemma dirsLoop_app env i first last dirs1 dirs2 g :
  dirsLoop env i first last (dirs1 ++ dirs2) g
  = let (log1, g1) := dirsLoop env i first last dirs1 g in
  let (log2, g2) := dirsLoop env i first last dirs2 g1 in
  ((log1 ++ log2)%list, g2).
Proof.
  revert g. induction dirs1 as [|dir dirs1 IH]; intros g.
  - simpl. by destruct (dirsLoop env i first last dirs2 g).
  - simpl. destruct (IsDir dir); [| apply IH].
    destruct (Output env i _) as [output|e]; rewrite IH.
    + destruct (dirsLoop env i first last dirs1 _) as [log1 g1].
      by destruct (dirsLoop env i first last dirs2 g1) as [log2 g2].
    + destruct (dirsLoop env i first last dirs1 _) as [log1 g1].
      by destruct (dirsLoop env i first last dirs2 g1) as [log2 g2].
Qed.

Lemma monthsLoop_app env n1 n2 i g :
  monthsLoop env (n1 + n2) i g
  = match monthsLoop env n1 i g with
  | (log1, g1, Returned) => (log1, g1, Returned)
  | (log1, g1, LoopDone) =>
    let '(log2, g2, x) := monthsLoop env n2 (i + Z.of_nat n1) g1 in
    ((log1 ++ log2)%list, g2, x)
  end.
Proof.
  revert i g. induction n1 as [|n1 IH]; intros i g.
  - simpl. rewrite Z.add_0_r. by destruct (monthsLoop env n2 i g) as [[log2 g2] x].
  - change (S n1 + n2)%nat with (S (n1 + n2)).
    assert (i + Z.of_nat (S n1) = i + 1 + Z.of_nat n1) as -> by lia.
    simpl. destruct (allRepos env).
    + destruct (ReadDir env i (baseDir env)) as [dirs|e]; [| done].
      destruct (dirsLoop env i _ _ dirs g) as [log g1]. rewrite IH.
      destruct (monthsLoop env n1 (i + 1) g1) as [[rest g'] [|]]; [| done].
      destruct (monthsLoop env n2 _ g') as [[log2 g2] x]. by rewrite <- app_assoc.
    + destruct (Output env i _) as [output|e]; [| done]. rewrite IH.
      destruct (monthsLoop env n1 (i + 1) _) as [[rest g'] [|]]; [| done].
      by destruct (monthsLoop env n2 _ g') as [[log2 g2] x].
Qed.

Lemma fold_addLocal_is_Some ts (s : gmap string (Z * Z)) a :
  is_Some (s !! a) \/ a ∈ (fun t : tuple => t.1.1) <$> ts ->
  is_Some (fold_left addLocal ts s !! a).
Proof.
  revert s. induction ts as [|[[who ins] del] ts IH]; intros s.
  - intros [? | ?%elem_of_nil]; done.
  - intros H. simpl. apply IH. destruct (decide (who = a)) as [->|Hne].
    + left. by rewrite lookup_insert_eq.
    + destruct H as [H | [H|H]%elem_of_cons]; [| done | by right].
      left. by rewrite lookup_insert_ne.
Qed.

(** Every author of a tuple has an entry in the Aggregate. *)
Lemma processOutput_author first output g a :
  a ∈ (fun t : tuple => t.1.1) <$> RecordParser output ->
  is_Some (Stats (processOutput first output g) !! a).
Proof.
  intros Ha. rewrite processOutput_Aggregator, Aggregator_eq. simpl.
  rewrite fold_addCell_lookup.
  destruct (fold_addLocal_is_Some (RecordParser output) ∅ a) as [c ->]; [by right |].
  by eexists.
Qed.

Lemma monthsLoop_S env n i g :
  monthsLoop env (S n) i g
  = let first := firstDayOfMonth (Now env i) i in
  let last := lastDayOfMonth (Now env i) i in
  if allRepos env then
  match ReadDir env i (baseDir env) with
  | Err e => ([Println ("Failed to read directory: " ++ e)%string], g, Returned)
  | Ok dirs =>
    let (log, g1) := dirsLoop env i first last dirs g in
    let '(rest, g', x) := monthsLoop env n (i + 1) g1 in
    ((log ++ rest)%list, g', x)
  end
  else
  let (log, r) := processDir env i first last (baseDir env) g in
  match r with
  | Err e => ((log ++ [Println e])%list, g, Returned)
  | Ok g1 =>
    let '(rest, g', x) := monthsLoop env n (i + 1) g1 in
    ((log ++ rest)%list, g', x)
  end.
Proof. reflexivity. Qed.

Lemma dirsLoop_cons env i first last dir dirs g :
  dirsLoop env i first last (dir :: dirs) g
  = if IsDir dir then
  let dirPath := filepathJoin env (baseDir env) (Name dir) in
  let (log, r) := processDir env i first last dirPath g in
  match r with
  | Err e =>
    let (rest, g') := dirsLoop env i first last dirs g in
    ((log ++ Println e :: rest)%list, g')
  | Ok g1 =>
    let (rest, g') := dirsLoop env i first last dirs g1 in
    ((log ++ rest)%list, g')
  end
  else dirsLoop env i first last dirs g.
Proof. reflexivity. Qed.

End LoopFacts.

(** ** Months *)

Module TimeFacts.

Import GoTime Gitstats Spec.

Lemma daysIn_range y m : 28 <= daysIn y m <= 31.
Proof.
  unfold daysIn. destruct (m =? 2); [destruct (isLeap y); lia |].
  destruct ((m =? 4) || (m =? 6) || (m =? 9) || (m =? 11)); lia.
Qed.

Lemma normMonth_valid y m : 1 <= m <= 12 -> normMonth y m = (y, m).
Proof.
  intros Hm. unfold normMonth.
  rewrite Z.div_small, Z.mod_small by lia. f_equal; lia.
Qed.

Lemma normMonth_range y m : 1 <= (normMonth y m).2 <= 12.
Proof.
  unfold normMonth. simpl. pose proof (Z.mod_pos_bound (m - 1) 12 ltac:(lia)). lia.
Qed.

Lemma normDay_valid fuel y m d : 1 <= d <= daysIn y m -> normDay fuel y m d = mkTime y m d.
Proof.
  intros Hd. destruct fuel as [|fuel]; [done |]. simpl.
  destruct (Z.ltb_spec d 1); [lia |]. destruct (Z.ltb_spec (daysIn y m) d); [lia | done].
Qed.

(** A date that exists is its own normal form. *)
Lemma Date_valid y m d : 1 <= m <= 12 -> 1 <= d <= daysIn y m -> Date y m d = mkTime y m d.
Proof. intros Hm Hd. unfold Date. rewrite normMonth_valid by done. by apply normDay_valid. Qed.

Lemma prevMonth_range y m : 1 <= m <= 12 -> 1 <= (prevMonth y m).2 <= 12.
Proof. unfold prevMonth. destruct (Z.eqb_spec m 1); simpl; lia. Qed.

Lemma nextMonth_range y m : 1 <= m <= 12 -> 1 <= (nextMonth y m).2 <= 12.
Proof. unfold nextMonth. destruct (Z.eqb_spec m 12); simpl; lia. Qed.

Lemma normDay_month_range fuel y m d :
  1 <= m <= 12 -> 1 <= Month (normDay fuel y m d) <= 12.
Proof.
  revert y m d. induction fuel as [|fuel IH]; intros y m d Hm; [done |]. simpl.
  destruct (d <? 1).
  - pose proof (prevMonth_range y m Hm). destruct (prevMonth y m). by apply IH.
  - destruct (daysIn y m <? d); [| done].
    pose proof (nextMonth_range y m Hm). destruct (nextMonth y m). by apply IH.
Qed.

Lemma Date_month_range y m d : 1 <= Month (Date y m d) <= 12.
Proof.
  unfold Date. pose proof (normMonth_range y m). destruct (normMonth y m).
  by apply normDay_month_range.
Qed.

Lemma normDay_validDate fuel y m d :
  1 <= m <= 12 ->
  1 - 28 * Z.of_nat fuel <= d <= daysIn y m + 28 * Z.of_nat fuel ->
  validDate (normDay fuel y m d).
Proof.
  revert y m d. induction fuel as [|fuel IH]; intros y m d Hm Hd.
  - simpl. split; simpl; lia.
  - cbn [normDay]. destruct (Z.ltb_spec d 1).
    + pose proof (prevMonth_range y m Hm). destruct (prevMonth y m) as [y' m'].
      pose proof (daysIn_range y' m'). apply IH; [done | lia].
    + destruct (Z.ltb_spec (daysIn y m) d); [| split; simpl; lia].
      pose proof (nextMonth_range y m Hm). destruct (nextMonth y m) as [y' m'].
      pose proof (daysIn_range y m). pose proof (daysIn_range y' m').
      apply IH; [done | lia].
Qed.

(** [time.Date] always yields a date of the calendar: the fuel that
    [Date] hands to [normDay] is enough to bring any day into its month. *)
Lemma Date_validDate y m d : validDate (Date y m d).
Proof.
  unfold Date. pose proof (normMonth_range y m). destruct (normMonth y m) as [y' m'].
  pose proof (daysIn_range y' m'). apply normDay_validDate; [done | lia].
Qed.

Lemma iterationMonth_range now i : 1 <= (iterationMonth now i).2 <= 12.
Proof. unfold iterationMonth, AddDate. simpl. apply Date_month_range. Qed.

(** The first day of the month of iteration [i]. *)
Lemma firstDayOfMonth_eq now i :
  firstDayOfMonth now i = mkTime (iterationMonth now i).1 (iterationMonth now i).2 1.
Proof.
  unfold firstDayOfMonth. pose proof (iterationMonth_range now i).
  destruct (iterationMonth now i) as [y m]. simpl in *.
  apply Date_valid; [done |]. pose proof (daysIn_range y m). lia.
Qed.

(** The last day of the month of iteration [i]. *)
Lemma lastDayOfMonth_eq now i :
  lastDayOfMonth now i
  = mkTime (iterationMonth now i).1 (iterationMonth now i).2
  (daysIn (iterationMonth now i).1 (iterationMonth now i).2).
Proof.
  unfold lastDayOfMonth. rewrite firstDayOfMonth_eq.
  pose proof (iterationMonth_range now i) as Hm.
  destruct (iterationMonth now i) as [y m]. simpl in *.
  unfold AddDate, Date. cbn [Year Month Day].
  change (1 + -1) with 0. change (Z.to_nat (Z.abs 0)) with 0%nat.
  replace (y + 0) with y by lia.
  destruct (Z.eq_dec m 12) as [->|Hne].
  - unfold normMonth. change ((12 + 1 - 1) `div` 12) with 1.
    change ((12 + 1 - 1) `mod` 12 + 1) with 1. simpl.
    replace (y + 1 - 1) with y by lia. done.
  - rewrite normMonth_valid by lia. simpl. unfold prevMonth.
    destruct (Z.eqb_spec (m + 1) 1); [lia |].
    replace (m + 1 - 1) with m by lia. done.
Qed.

(** In the first 28 days of a month, iteration [i] is the month [i]
    calendar months before the current one. *)
Lemma iterationMonth_early now i :
  1 <= Day now <= 28 -> iterationMonth now i = normMonth (Year now) (Month now - i).
Proof.
  intros Hd. unfold iterationMonth, AddDate, Date.
  replace (Year now + 0) with (Year now) by lia.
  replace (Month now + - i) with (Month now - i) by lia.
  replace (Day now + 0) with (Day now) by lia.
  destruct (normMonth (Year now) (Month now - i)) as [y m].
  rewrite normDay_valid; [done |]. pose proof (daysIn_range y m). lia.
Qed.

(** Iteration 0 is the current month. *)
Lemma iterationMonth_0 now :
  1 <= Month now <= 12 -> 1 <= Day now <= daysIn (Year now) (Month now) ->
  iterationMonth now 0 = (Year now, Month now).
Proof.
  intros Hm Hd. unfold iterationMonth, AddDate.
  replace (Year now + 0) with (Year now) by lia.
  replace (Month now + - 0) with (Month now) by lia.
  replace (Day now + 0) with (Day now) by lia.
  by rewrite Date_valid.
Qed.

Lemma monthKey_eq t :
  monthKey t = ("(" ++ appendInt (Year t) 4 ++ "-" ++ appendInt (Month t) 2 ++ ") "
    ++ MonthString (Month t) ++ " " ++ appendInt (Year t) 4)%string.
Proof.
  unfold monthKey, Format, layoutMonth. simpl.
  by rewrite !GoStringsFacts.append_nil_r.
Qed.

(** The key depends on the year and the month only. *)
Lemma monthKey_year_month t1 t2 :
  Year t1 = Year t2 -> Month t1 = Month t2 -> monthKey t1 = monthKey t2.
Proof. intros Hy Hm. by rewrite !monthKey_eq, Hy, Hm. Qed.

(** *** The order of the keys *)

Ltac digit_cases a :=
  let H := fresh in
  assert (a = 0 \/ a = 1 \/ a = 2 \/ a = 3 \/ a = 4 \/ a = 5 \/ a = 6 \/ a = 7 \/ a = 8 \/ a = 9)
  as H by lia;
  destruct H as [->|[->|[->|[->|[->|[->|[->|[->|[->| ->]]]]]]]]].

Lemma digitChar_compare a b :
  0 <= a <= 9 -> 0 <= b <= 9 -> Ascii.compare (digitChar a) (digitChar b) = (a ?= b).
Proof. intros Ha Hb. digit_cases a; digit_cases b; reflexivity. Qed.

Lemma compare_digit_cons a b s1 s2 :
  0 <= a <= 9 -> 0 <= b <= 9 ->
  String.compare (String (digitChar a) s1) (String (digitChar b) s2)
  = match a ?= b with Eq => String.compare s1 s2 | c => c end.
Proof. intros Ha Hb. simpl. by rewrite digitChar_compare. Qed.

Lemma compare_same_cons c s1 s2 :
  String.compare (String c s1) (String c s2) = String.compare s1 s2.
Proof.
  simpl. assert (Ascii.compare c c = Eq) as ->; [| done].
  unfold Ascii.compare. apply N.compare_refl.
Qed.

Lemma compare_refl s : String.compare s s = Eq.
Proof. induction s as [|c s IH]; [done |]. by rewrite compare_same_cons. Qed.

Lemma appendInt_year y :
  0 <= y <= 9999 ->
  appendInt y 4
  = String (digitChar (y / 1000)) (String (digitChar (y / 100 mod 10))
    (String (digitChar (y / 10 mod 10)) (String (digitChar (y mod 10)) ""))).
Proof.
  intros Hy. unfold appendInt.
  destruct (Z.ltb_spec y 0); [lia |]. rewrite Z.abs_eq by lia.
  destruct (Z.ltb_spec y 10000); [| lia]. reflexivity.
Qed.

Lemma appendInt_month m :
  1 <= m <= 12 ->
  appendInt m 2 = String (digitChar (m / 10)) (String (digitChar (m mod 10)) "").
Proof.
  intros Hm. unfold appendInt.
  destruct (Z.ltb_spec m 0); [lia |]. rewrite Z.abs_eq by lia.
  destruct (Z.ltb_spec m 100); [| lia]. reflexivity.
Qed.

Lemma year_digits y :
  0 <= y <= 9999 ->
  0 <= y / 1000 <= 9 /\ 0 <= y / 100 mod 10 <= 9 /\ 0 <= y / 10 mod 10 <= 9 /\
  0 <= y mod 10 <= 9 /\
  y = 1000 * (y / 1000) + 100 * (y / 100 mod 10) + 10 * (y / 10 mod 10) + y mod 10.
Proof. intros Hy. Z.div_mod_to_equations. lia. Qed.

Lemma month_digits m :
  1 <= m <= 12 -> 0 <= m / 10 <= 9 /\ 0 <= m mod 10 <= 9 /\ m = 10 * (m / 10) + m mod 10.
Proof. intros Hm. Z.div_mod_to_equations. lia. Qed.

(** For four-digit years the keys compare as the (year, month) pairs. *)
Lemma monthKey_compare t1 t2 :
  fourDigitYear t1 -> fourDigitYear t2 ->
  String.compare (monthKey t1) (monthKey t2)
  = match Year t1 ?= Year t2 with
  | Eq => Month t1 ?= Month t2
  | c => c
  end.
Proof.
  destruct t1 as [y1 m1 d1], t2 as [y2 m2 d2]. unfold fourDigitYear. cbn [Year Month].
  intros [Hy1 Hm1] [Hy2 Hm2]. rewrite !monthKey_eq. cbn [Year Month].
  rewrite !appendInt_year, !appendInt_month by done.
  destruct (year_digits y1 Hy1) as (A3 & A2 & A1 & A0 & Ey1).
  destruct (year_digits y2 Hy2) as (B3 & B2 & B1 & B0 & Ey2).
  destruct (month_digits m1 Hm1) as (M1 & M0 & Em1).
  destruct (month_digits m2 Hm2) as (N1 & N0 & Em2).
  set (a3 := y1 / 1000) in *. set (a2 := y1 / 100 mod 10) in *.
  set (a1 := y1 / 10 mod 10) in *. set (a0 := y1 mod 10) in *.
  set (b3 := y2 / 1000) in *. set (b2 := y2 / 100 mod 10) in *.
  set (b1 := y2 / 10 mod 10) in *. set (b0 := y2 mod 10) in *.
  set (p1 := m1 / 10) in *. set (p0 := m1 mod 10) in *.
  set (q1 := m2 / 10) in *. set (q0 := m2 mod 10) in *.
  cbn [String.append]. rewrite compare_same_cons.
  rewrite !compare_digit_cons by done. rewrite compare_same_cons.
  rewrite !compare_digit_cons by done.
  destruct (Z.compare_spec a3 b3);
    [| rewrite (proj2 (Z.compare_lt_iff y1 y2)) by lia; done
    | rewrite (proj2 (Z.compare_gt_iff y1 y2)) by lia; done].
  destruct (Z.compare_spec a2 b2);
    [| rewrite (proj2 (Z.compare_lt_iff y1 y2)) by lia; done
    | rewrite (proj2 (Z.compare_gt_iff y1 y2)) by lia; done].
  destruct (Z.compare_spec a1 b1);
    [| rewrite (proj2 (Z.compare_lt_iff y1 y2)) by lia; done
    | rewrite (proj2 (Z.compare_gt_iff y1 y2)) by lia; done].
  destruct (Z.compare_spec a0 b0);
    [| rewrite (proj2 (Z.compare_lt_iff y1 y2)) by lia; done
    | rewrite (proj2 (Z.compare_gt_iff y1 y2)) by lia; done].
  assert (y1 = y2) as -> by lia. rewrite Z.compare_refl.
  destruct (Z.compare_spec p1 q1);
    [| rewrite (proj2 (Z.compare_lt_iff m1 m2)) by lia; done
    | rewrite (proj2 (Z.compare_gt_iff m1 m2)) by lia; done].
  destruct (Z.compare_spec p0 q0);
    [| rewrite (proj2 (Z.compare_lt_iff m1 m2)) by lia; done
    | rewrite (proj2 (Z.compare_gt_iff m1 m2)) by lia; done].
  assert (m1 = m2) as -> by lia. rewrite Z.compare_refl. apply compare_refl.
Qed.

Lemma monthKey_Less t1 t2 :
  fourDigitYear t1 -> fourDigitYear t2 ->
  GoStrings.Less (monthKey t1) (monthKey t2) = true <-> monthBefore t1 t2.
Proof.
  intros H1 H2. unfold GoStrings.Less, String.ltb, monthBefore.
  rewrite monthKey_compare by done.
  destruct (Z.compare_spec (Year t1) (Year t2)) as [Hy|Hy|Hy].
  - destruct (Z.compare_spec (Month t1) (Month t2)); split; try done; lia.
  - split; [by left | done].
  - split; [done | lia].
Qed.

End TimeFacts.

(** ** The report *)

Module ReportFacts.

Import GoStrings Gitstats Spec GoIntFacts AggregateFacts.

(** *** Sorting *)

Lemma sorts_elem_of {A} (less : A -> A -> bool) input output x :
  GoSort.sorts less input output -> x ∈ output <-> x ∈ input.
Proof. intros [Hperm _]. by rewrite Hperm. Qed.

Lemma sorts_NoDup_fst {A B} (less : A * B -> A * B -> bool) input output :
  GoSort.sorts less input output -> NoDup (input.*1) -> NoDup (output.*1).
Proof. intros [Hperm _]. by rewrite Hperm. Qed.

Lemma StronglySorted_weaken {A} (R1 R2 : A -> A -> Prop) l :
  (forall x y, x ∈ l -> y ∈ l -> x <> y -> R1 x y -> R2 x y) ->
  NoDup l -> StronglySorted R1 l -> StronglySorted R2 l.
Proof.
  intros HR Hnd Hs. induction Hs as [|x l Hs IH Hall]; [constructor |].
  apply NoDup_cons in Hnd as [Hx Hnd]. constructor.
  - apply IH; [| done]. intros a b Ha Hb. apply HR; by right.
  - apply Forall_forall. intros y Hy. apply HR; [by left | by right | |].
    + intros ->. done.
    + by eapply Forall_forall in Hall.
Qed.

Lemma StronglySorted_impl {A} (R1 R2 : A -> A -> Prop) l :
  (forall x y, R1 x y -> R2 x y) -> StronglySorted R1 l -> StronglySorted R2 l.
Proof.
  intros HR Hs. induction Hs as [|x l Hs IH Hall]; constructor; [done |].
  eapply Forall_impl; [done | auto].
Qed.

Lemma sorts_descending input output :
  GoSort.sorts moreInsertions input output -> descending output.
Proof.
  intros [_ Hs]. eapply StronglySorted_impl; [| done].
  intros x y. unfold moreInsertions. intros H%Z.ltb_ge. done.
Qed.

Lemma Less_total a b : Less b a = false -> a <> b -> Less a b = true.
Proof.
  unfold Less, String.ltb. intros Hba Hne.
  rewrite String.compare_antisym.
  destruct (String.compare b a) eqn:E; [| done | done].
  apply String.compare_eq_iff in E. congruence.
Qed.

Lemma sorts_ascending input output :
  GoSort.sorts Less input output -> NoDup input -> ascending output.
Proof.
  intros [Hperm Hs] Hnd. eapply StronglySorted_weaken; [| by rewrite Hperm | done].
  intros x y _ _ Hne Hyx. by apply Less_total.
Qed.

(** *** The months *)

Lemma uniqueMonths_elem_of g month :
  month ∈ uniqueMonths g <-> exists who c, cell g who month = Some c.
Proof.
  unfold uniqueMonths, cell.
  apply (map_fold_weak_ind
      (fun (r : gset string) (m : gmap string (gmap string ChangesStats)) =>
        month ∈ r <-> exists who c, m !! who ≫= (fun months => months !! month) = Some c)).
  - split; [by intros ?%not_elem_of_empty |]. intros (who & c & H).
    by rewrite lookup_empty in H.
  - intros who months m r Hfresh IH. rewrite elem_of_union, IH, elem_of_dom. split.
    + intros [[c Hc] | (who' & c & Hc)].
      * exists who, c. by rewrite lookup_insert_eq.
      * exists who', c. rewrite lookup_insert_ne; [done |]. intros <-.
        by rewrite Hfresh in Hc.
    + intros (who' & c & Hc). destruct (decide (who = who')) as [<-|Hne].
      * rewrite lookup_insert_eq in Hc. left. by exists c.
      * rewrite lookup_insert_ne in Hc by done. right. by exists who', c.
Qed.

(** *** The block of a month *)

Lemma sumList_cons x l : sumList (x :: l) = x + sumList l.
Proof. reflexivity. Qed.

Lemma sumList_app l1 l2 : sumList (l1 ++ l2) = sumList l1 + sumList l2.
Proof. induction l1 as [|x l1 IH]; simpl; [done |]. rewrite IH. lia. Qed.

Lemma sumList_Permutation l1 l2 : l1 ≡ₚ l2 -> sumList l1 = sumList l2.
Proof.
  induction 1 as [|x l1 l2 _ IH|x y l|l1 l2 l3 _ IH1 _ IH2]; simpl; lia.
Qed.

Lemma mapSum_sumList {A} (f : A -> Z) (m : gmap string A) :
  mapSum f m = sumList ((fun kv => f (snd kv)) <$> map_to_list m).
Proof.
  unfold mapSum. rewrite map_fold_foldr.
  induction (map_to_list m) as [|[k x] l IH]; simpl; [done |]. by rewrite IH.
Qed.

Lemma mapSum_ranges {A} (f : A -> Z) (m : gmap string A) entries :
  GoMap.ranges m entries -> mapSum f m = sumList ((fun kv => f (snd kv)) <$> entries).
Proof.
  unfold GoMap.ranges. intros Hperm. rewrite mapSum_sumList.
  apply sumList_Permutation. by rewrite Hperm.
Qed.

Lemma collectMonth_step month who months rows x y :
  collectMonth month who months (rows, GoInt.wrap x, GoInt.wrap y)
  = ((rows ++ option_list (pickMonth month (who, months)))%list,
    GoInt.wrap (x + cellIns month (who, months)),
    GoInt.wrap (y + cellDel month (who, months))).
Proof.
  unfold collectMonth, pickMonth, cellIns, cellDel. simpl.
  destruct (months !! month) as [c|]; simpl.
  - by rewrite !add_wrap_l.
  - by rewrite app_nil_r, !Z.add_0_r.
Qed.

Lemma collectMonth_fold month entries rows x y :
  GoMap.rangeLoop (collectMonth month) entries (rows, GoInt.wrap x, GoInt.wrap y)
  = ((rows ++ omap (pickMonth month) entries)%list,
    GoInt.wrap (x + sumList (cellIns month <$> entries)),
    GoInt.wrap (y + sumList (cellDel month <$> entries))).
Proof.
  unfold GoMap.rangeLoop. revert rows x y.
  induction entries as [|[who months] entries IH]; intros rows x y.
  - simpl. by rewrite app_nil_r, !Z.add_0_r.
  - cbn [fold_left fst snd]. rewrite collectMonth_step, IH.
    rewrite !fmap_cons, !sumList_cons. cbn [omap list_omap].
    rewrite <- app_assoc.
    destruct (pickMonth month (who, months)); cbn [option_list app];
      (f_equal; [f_equal |]; f_equal; lia).
Qed.

Lemma pickMonth_elem_of g month entries who n :
  GoMap.ranges (Stats g) entries ->
  (who, n) ∈ omap (pickMonth month) entries
  <-> exists c, cell g who month = Some c /\ n = Insertions c.
Proof.
  unfold GoMap.ranges. intros Hperm. rewrite list_elem_of_omap. split.
  - intros ([who' months] & Hin & Hpick). rewrite Hperm in Hin.
    apply elem_of_map_to_list in Hin. unfold pickMonth in Hpick. simpl in Hpick.
    destruct (months !! month) as [c|] eqn:Hc; [| done]. simpl in Hpick.
    injection Hpick as -> <-. exists c. unfold cell. by rewrite Hin.
  - intros (c & Hc & ->). unfold cell in Hc.
    destruct (Stats g !! who) as [months|] eqn:Hwho; [| done]. simpl in Hc.
    exists (who, months). split.
    + rewrite Hperm. by apply elem_of_map_to_list.
    + unfold pickMonth. simpl. by rewrite Hc.
Qed.

Lemma pickMonth_NoDup month (entries : list (string * gmap string ChangesStats)) :
  NoDup (entries.*1) -> NoDup ((omap (pickMonth month) entries).*1).
Proof.
  induction entries as [|[who months] entries IH]; [done |].
  intros [Hwho Hnd]%NoDup_cons. simpl. unfold pickMonth at 1. simpl.
  destruct (months !! month) as [c|]; simpl; [| by apply IH].
  apply NoDup_cons. split; [| by apply IH].
  intros Hin. apply Hwho. apply list_elem_of_fmap in Hin as ([who' n] & -> & Hin).
  apply list_elem_of_omap in Hin as ([who'' months'] & Hin & Hpick).
  unfold pickMonth in Hpick. simpl in Hpick.
  destruct (months' !! month); [| done]. injection Hpick as -> _.
  apply list_elem_of_fmap. by exists (who', months').
Qed.

Lemma ranges_NoDup_fst {A} (m : gmap string A) entries :
  GoMap.ranges m entries -> NoDup (entries.*1).
Proof. unfold GoMap.ranges. intros ->. apply NoDup_fst_map_to_list. Qed.

(** What [printStats] prints for a month is the block of the month. *)
Lemma monthBlock_blockOf g month block : monthBlock g month block -> blockOf g month block.
Proof.
  intros (entries & sorted & Hranges & Hblock).
  change ([], 0, 0) with (@nil (string * Z), GoInt.wrap 0, GoInt.wrap 0) in Hblock.
  rewrite collectMonth_fold in Hblock. simpl in Hblock.
  destruct Hblock as [Hsorts ->]. exists sorted. split_and!.
  - do 3 f_equal. unfold monthSum. by rewrite (mapSum_ranges _ _ entries).
  - by eapply sorts_descending.
  - eapply sorts_NoDup_fst; [done |]. by eapply pickMonth_NoDup, ranges_NoDup_fst.
  - intros who n. rewrite (sorts_elem_of _ _ _ _ Hsorts). by apply pickMonth_elem_of.
Qed.

(** *** The ranking of the authors *)

(** The inner loop of lines 209-213 for one author. *)
Lemma addAuthorInsertions_fold who (months : gmap string ChangesStats) (acc : gmap string Z) :
  let r := map_fold (fun _ st acc' => addAuthorInsertions who st acc') acc months in
  (forall a, a <> who -> r !! a = acc !! a) /\
  r !! who = if decide (months = ∅) then acc !! who
  else Some (GoInt.wrap (default 0 (acc !! who) + mapSum Insertions months)).
Proof.
  cbv zeta.
  refine (map_fold_weak_ind
      (fun (r : gmap string Z) (m : gmap string ChangesStats) =>
        (forall a, a <> who -> r !! a = acc !! a) /\
        r !! who = if decide (m = ∅) then acc !! who
        else Some (GoInt.wrap (default 0 (acc !! who) + mapSum Insertions m)))
      _ _ _ _ months).
  - split; [done |]. by rewrite decide_True.
  - intros k st m r Hfresh [Hother Hwho]. unfold addAuthorInsertions. split.
    + intros a Ha. rewrite lookup_insert_ne by done. by apply Hother.
    + rewrite lookup_insert_eq, Hwho.
      rewrite (decide_False (P := <[k:=st]> m = ∅)) by apply insert_non_empty.
      rewrite mapSum_insert_None by done. f_equal.
      destruct (decide (m = ∅)) as [->|Hne].
      * rewrite mapSum_empty. unfold GoInt.add. f_equal. lia.
      * simpl. rewrite add_wrap_l. f_equal. lia.
Qed.

Lemma authorInsertions_lookup g who :
  authorInsertions g !! who
  = Stats g !! who ≫= fun months =>
  if decide (months = ∅) then None else Some (GoInt.wrap (mapSum Insertions months)).
Proof.
  unfold authorInsertions. revert who.
  refine (map_fold_weak_ind
      (fun (r : gmap string Z) (m : gmap string (gmap string ChangesStats)) =>
        forall a, r !! a = m !! a ≫= fun months =>
        if decide (months = ∅) then None
        else Some (GoInt.wrap (mapSum Insertions months)))
      _ _ _ _ (Stats g)).
  - intros a. by rewrite !lookup_empty.
  - intros k months m r Hfresh IH a.
    destruct (addAuthorInsertions_fold k months r) as [Hother Hk].
    destruct (decide (a = k)) as [->|Hne].
    + rewrite Hk, lookup_insert_eq, IH, Hfresh. simpl. by case_decide.
    + rewrite Hother, lookup_insert_ne by done. apply IH.
Qed.

Lemma authorInsertions_elem_of g byAuthor who n :
  GoMap.ranges (authorInsertions g) byAuthor ->
  (who, n) ∈ byAuthor
  <-> exists months, Stats g !! who = Some months /\ months <> ∅ /\
  n = GoInt.wrap (mapSum Insertions months).
Proof.
  unfold GoMap.ranges. intros ->. rewrite elem_of_map_to_list, authorInsertions_lookup.
  split.
  - destruct (Stats g !! who) as [months|]; [| done]. simpl.
    case_decide; [done |]. intros [= <-]. by exists months.
  - intros (months & -> & Hne & ->). simpl. by rewrite decide_False.
Qed.

(** *** The grand total *)

Lemma mapSum_ext {A} (f h : A -> Z) (m : gmap string A) :
  (forall k x, m !! k = Some x -> f x = h x) -> mapSum f m = mapSum h m.
Proof.
  induction m as [|k x m Hk IH] using map_ind; intros Hfh.
  - by rewrite !mapSum_empty.
  - rewrite !mapSum_insert_None by done.
    rewrite (Hfh k x) by apply lookup_insert_eq. f_equal.
    apply IH. intros k' x' Hk'. apply (Hfh k').
    rewrite lookup_insert_ne; [done | congruence].
Qed.

Lemma mapSum_plus {A} (f h : A -> Z) (m : gmap string A) :
  mapSum (fun x => f x + h x) m = mapSum f m + mapSum h m.
Proof.
  induction m as [|k x m Hk IH] using map_ind.
  - by rewrite !mapSum_empty.
  - rewrite !mapSum_insert_None by done. lia.
Qed.

Lemma mapSum_zero {A} (m : gmap string A) : mapSum (fun _ => 0) m = 0.
Proof.
  induction m as [|k x m Hk IH] using map_ind.
  - by rewrite mapSum_empty.
  - rewrite mapSum_insert_None by done. lia.
Qed.

(** Summing the months of a list inside or outside the sum over the
    authors is the same. *)
Lemma sumList_monthSum g (keys : list string) :
  sumList (monthSum g <$> keys)
  = mapSum (fun months =>
    sumList ((fun month => from_option Insertions 0 (months !! month)) <$> keys))
  (Stats g).
Proof.
  induction keys as [|k keys IH].
  - simpl. by rewrite mapSum_zero.
  - rewrite fmap_cons, sumList_cons, IH. unfold monthSum at 1.
    rewrite <- mapSum_plus. done.
Qed.

(** The cells of one author, summed over a list that has each of its
    months once. *)
Lemma sumList_cells (months : gmap string ChangesStats) (keys : list string) :
  NoDup keys -> (forall k, is_Some (months !! k) -> k ∈ keys) ->
  sumList ((fun month => from_option Insertions 0 (months !! month)) <$> keys)
  = mapSum Insertions months.
Proof.
  revert months. induction keys as [|k keys IH]; intros months Hnd Hdom.
  - assert (months = ∅) as ->.
    { apply map_empty. intros k. apply eq_None_not_Some. by intros ?%Hdom%elem_of_nil. }
    by rewrite mapSum_empty.
  - apply NoDup_cons in Hnd as [Hk Hnd].
    rewrite fmap_cons, sumList_cons.
    assert (sumList ((fun month => from_option Insertions 0 (months !! month)) <$> keys)
        = mapSum Insertions (delete k months)) as ->.
    { rewrite <- (IH (delete k months)); [| done |].
      - f_equal. apply list_fmap_ext. intros _ k' Hk'%list_elem_of_lookup_2.
        rewrite lookup_delete_ne; [done |]. by intros ->.
      - intros k' [x [Hne Hx]%lookup_delete_Some].
        assert (k' ∈ k :: keys) as Hin by (apply Hdom; by eexists).
        apply elem_of_cons in Hin as [->|?]; done. }
    destruct (months !! k) as [c|] eqn:Hc; simpl.
    + by rewrite (mapSum_delete Insertions months k c).
    + by rewrite delete_id.
Qed.

Lemma wrap_sumList_wrap (f : string -> Z) keys :
  GoInt.wrap (sumList ((fun k => GoInt.wrap (f k)) <$> keys)) = GoInt.wrap (sumList (f <$> keys)).
Proof.
  induction keys as [|k keys IH]; [done |].
  rewrite !fmap_cons, !sumList_cons.
  rewrite wrap_wrap_add_l, <- wrap_wrap_add_r, IH, wrap_wrap_add_r. done.
Qed.

(** The total of a consistent Aggregate is the sum of the subtotals of
    its months. *)
Lemma total_sum_of_months g months :
  consistent g -> monthsOfAggregate g months -> NoDup months ->
  totalInsertions g
  = GoInt.wrap (sumList ((fun month => GoInt.wrap (monthSum g month)) <$> months)).
Proof.
  intros [Hins _] [_ Hmonths] Hnd.
  rewrite wrap_sumList_wrap, sumList_monthSum, Hins. f_equal.
  unfold cellSum. apply mapSum_ext. intros who ms Hwho.
  symmetry. apply sumList_cells; [done |].
  intros k [c Hc]. apply Hmonths. exists who, c. unfold cell. by rewrite Hwho.
Qed.

(** An Aggregate without authors is not reported at all (lines 156-158). *)
Lemma printStats_empty g out :
  size (Stats g) = 0%nat -> printStats g out -> out = [].
Proof. intros Hsize. unfold printStats. by rewrite decide_True. Qed.

End ReportFacts.

(** ** One scan, author by author *)

Module ScanFacts.

Import GoStrings Gitstats Spec GoIntFacts GoStringsFacts RecordFacts AggregateFacts LoopFacts.

Lemma tuplesOf_cons who t ts :
  tuplesOf who (t :: ts)
  = if String.eqb (tupleAuthor t) who then t :: tuplesOf who ts else tuplesOf who ts.
Proof. reflexivity. Qed.

(** The scan-local map after the loop over the lines, author by author. *)
Lemma fold_addLocal_lookup ts (s : gmap string (Z * Z)) a :
  fold_left addLocal ts s !! a
  = match tuplesOf a ts with
    | [] => s !! a
    | _ =>
        Some (GoInt.wrap (fst (default (0, 0) (s !! a)) + sumList (tupleIns <$> tuplesOf a ts)),
              GoInt.wrap (snd (default (0, 0) (s !! a)) + sumList (tupleDel <$> tuplesOf a ts)))
    end.
Proof.
  revert s. induction ts as [|[[who ins] del] ts IH]; intros s; [done |].
  cbn [fold_left]. rewrite IH, !tuplesOf_cons.
  change (tupleAuthor (who, ins, del)) with who. cbn [fst snd addLocal].
  destruct (String.eqb_spec who a) as [->|Hne].
  - rewrite lookup_insert_eq. cbn [default fst snd].
    change (sumList (tupleIns <$> (a, ins, del) :: tuplesOf a ts))
      with (ins + sumList (tupleIns <$> tuplesOf a ts)).
    change (sumList (tupleDel <$> (a, ins, del) :: tuplesOf a ts))
      with (del + sumList (tupleDel <$> tuplesOf a ts)).
    destruct (tuplesOf a ts) as [|t ts'] eqn:E.
    + unfold GoInt.add. cbn. by rewrite !Z.add_0_r.
    + unfold GoInt.add. cbn [id fst snd]. rewrite !wrap_wrap_add_l. do 3 f_equal; lia.
  - by rewrite lookup_insert_ne.
Qed.

Lemma fold_addLocal_empty ts a :
  fold_left addLocal ts ∅ !! a
  = match tuplesOf a ts with
    | [] => None
    | _ => Some (GoInt.wrap (sumList (tupleIns <$> tuplesOf a ts)),
                 GoInt.wrap (sumList (tupleDel <$> tuplesOf a ts)))
    end.
Proof. rewrite fold_addLocal_lookup, lookup_empty. by destruct (tuplesOf a ts). Qed.

(** The entry of an author after a scan. *)
Lemma processOutput_lookup first output g a :
  Stats (processOutput first output g) !! a
  = mergedEntry (monthKey first) (Stats g) a (fold_left addLocal (RecordParser output) ∅ !! a).
Proof.
  rewrite processOutput_Aggregator, Aggregator_eq. cbn [Stats]. apply fold_addCell_lookup.
Qed.

Lemma processOutput_touched first output g a :
  tuplesOf a (RecordParser output) <> [] ->
  Stats (processOutput first output g) !! a
  = Some (<[monthKey first :=
        mkChangesStats
          (GoInt.wrap (Insertions (cellOr0 (Stats g) a (monthKey first))
                       + sumList (tupleIns <$> tuplesOf a (RecordParser output))))
          (GoInt.wrap (Deletions (cellOr0 (Stats g) a (monthKey first))
                       + sumList (tupleDel <$> tuplesOf a (RecordParser output))))]>
      (monthsOf (Stats g) a)).
Proof.
  intros Hne. rewrite processOutput_lookup, fold_addLocal_empty.
  destruct (tuplesOf a (RecordParser output)) as [|t ts] eqn:E; [done |].
  cbn [mergedEntry]. unfold bump. cbn [fst snd]. by rewrite !add_wrap_r.
Qed.

Lemma processOutput_untouched first output g a :
  tuplesOf a (RecordParser output) = [] ->
  Stats (processOutput first output g) !! a = Stats g !! a.
Proof. intros He. by rewrite processOutput_lookup, fold_addLocal_empty, He. Qed.

Lemma cell_monthsOf g who month : cell g who month = monthsOf (Stats g) who !! month.
Proof. unfold cell, monthsOf. by destruct (Stats g !! who). Qed.

Lemma processOutput_cell_ne first output g who month :
  month <> monthKey first -> cell (processOutput first output g) who month = cell g who month.
Proof.
  intros Hne. destruct (tuplesOf who (RecordParser output)) as [|t ts] eqn:E.
  - unfold cell. by rewrite processOutput_untouched.
  - unfold cell at 1. rewrite processOutput_touched by (by rewrite E). cbn.
    rewrite lookup_insert_ne by done. by rewrite cell_monthsOf.
Qed.

Lemma processOutput_cell_is_Some first output g who month :
  is_Some (cell (processOutput first output g) who month)
  <-> is_Some (cell g who month)
      \/ (month = monthKey first /\ tuplesOf who (RecordParser output) <> []).
Proof.
  destruct (decide (month = monthKey first)) as [->|Hne].
  - destruct (tuplesOf who (RecordParser output)) as [|t ts] eqn:E.
    + unfold cell. rewrite processOutput_untouched by done.
      split; [by left | by intros [? | [_ ?]]].
    + unfold cell at 1. rewrite processOutput_touched by (by rewrite E). cbn.
      rewrite lookup_insert_eq. split; [| by eexists]. intros _. right. done.
  - rewrite processOutput_cell_ne by done. split; [by left | by intros [? | [? _]]].
Qed.

(** Without a statistics line nothing is folded. *)
Lemma RecordParser_nil output :
  List.filter isStatisticsLine (Split output newline) = [] <-> RecordParser output = [].
Proof.
  rewrite <- !length_zero_iff_nil. unfold RecordParser.
  by rewrite attributions_length.
Qed.

Lemma processOutput_nil first output g :
  RecordParser output = [] -> processOutput first output g = g.
Proof.
  intros He. rewrite processOutput_Aggregator, He. by destruct g.
Qed.

(** *** The keys *)

Lemma Split_no_sep s sep : Forall (fun piece => hasByte sep piece = false) (Split s sep).
Proof.
  induction s as [|c s IH]; cbn [Split]; [by constructor |].
  destruct (Ascii.eqb_spec c sep) as [->|Hne].
  - by constructor.
  - destruct (Split s sep) as [|piece pieces].
    + constructor; [| done]. cbn. apply Ascii.eqb_neq in Hne. by rewrite Hne.
    + apply Forall_cons in IH as [Hp Hps]. constructor; [| done].
      cbn. apply Ascii.eqb_neq in Hne. by rewrite Hne.
Qed.

Lemma attributions_author a lines t :
  t ∈ attributions a lines ->
  tupleAuthor t = a \/ (tupleAuthor t ∈ lines /\ isAuthorLine (tupleAuthor t) = true).
Proof.
  revert a. induction lines as [|l lines IH]; intros a; cbn [attributions]; [by intros ?%elem_of_nil |].
  destruct (String.eqb l "") eqn:El.
  - intros [H|[H1 H2]]%IH; [by left | right]. split; [by right | done].
  - destruct (isStatLine l) eqn:Es.
    + intros [->|H]%elem_of_cons; [by left |].
      apply IH in H as [H|[H1 H2]]; [by left | right]. split; [by right | done].
    + intros [H|[H1 H2]]%IH; right.
      * rewrite H. split; [left |]. unfold isAuthorLine. by rewrite El, Es.
      * split; [by right | done].
Qed.

Lemma RecordParser_author output t :
  t ∈ RecordParser output ->
  tupleAuthor t = ""
  \/ (tupleAuthor t ∈ Split output newline /\ isAuthorLine (tupleAuthor t) = true).
Proof. apply attributions_author. Qed.

Lemma RecordParser_authorKey output t : t ∈ RecordParser output -> authorKey (tupleAuthor t).
Proof.
  intros [->|[Hin Ha]]%RecordParser_author; [by split |].
  split.
  - pose proof (Split_no_sep output newline) as Hall.
    rewrite Forall_forall in Hall. by apply Hall.
  - unfold isAuthorLine in Ha. apply andb_true_iff in Ha as [_ Ha]. by apply negb_true_iff.
Qed.

Lemma tuplesOf_elem who ts : tuplesOf who ts <> [] -> exists t, t ∈ ts /\ tupleAuthor t = who.
Proof.
  intros Hne. destruct (tuplesOf who ts) as [|t ts'] eqn:E; [done |].
  assert (t ∈ tuplesOf who ts) as Hin by (rewrite E; left).
  unfold tuplesOf in Hin. apply list_elem_of_In, filter_In in Hin as [Hin Heq].
  exists t. split; [by apply list_elem_of_In | by apply String.eqb_eq].
Qed.

Lemma cleanKeys_gb0 : cleanKeys gb0.
Proof. intros who [x Hx]. cbn in Hx. by rewrite lookup_empty in Hx. Qed.

Lemma cleanKeys_processOutput first output g :
  cleanKeys g -> cleanKeys (processOutput first output g).
Proof.
  intros Hg who Hwho.
  destruct (tuplesOf who (RecordParser output)) as [|t ts] eqn:E.
  - rewrite processOutput_untouched in Hwho by done. by apply Hg.
  - destruct (tuplesOf_elem who (RecordParser output)) as (t' & Hin & <-); [by rewrite E |].
    by eapply RecordParser_authorKey.
Qed.

Lemma noEmptyAuthor_gb0 : noEmptyAuthor gb0.
Proof. intros who months Hx. cbn in Hx. by rewrite lookup_empty in Hx. Qed.

Lemma noEmptyAuthor_processOutput first output g :
  noEmptyAuthor g -> noEmptyAuthor (processOutput first output g).
Proof.
  intros Hg who months.
  destruct (tuplesOf who (RecordParser output)) as [|t ts] eqn:E.
  - rewrite processOutput_untouched by done. apply Hg.
  - rewrite processOutput_touched by (by rewrite E). intros [= <-].
    apply insert_non_empty.
Qed.

End ScanFacts.

(** ** The scans of a run *)

Module RunFacts.

Import GoStrings Gitstats Spec AggregateFacts LoopFacts ScanFacts.

Lemma runScans_app scans1 scans2 g :
  runScans (scans1 ++ scans2) g = runScans scans2 (runScans scans1 g).
Proof. apply fold_left_app. Qed.

Lemma runScans_cons s scans g :
  runScans (s :: scans) g = runScans scans (processOutput (fst s) (snd s) g).
Proof. reflexivity. Qed.

(** The loop over the entries folds the scans of the directories for
    which [git] succeeds, in the order of the listing. *)
Lemma dirsLoop_scans env i first last dirs g :
  (dirsLoop env i first last dirs g).2 = runScans (dirScans env i first last dirs) g.
Proof.
  revert g. induction dirs as [|d dirs IH]; intros g; [done |].
  rewrite dirsLoop_cons. unfold dirScans. cbn [omap list_omap]. fold (dirScans env i first last dirs).
  destruct (IsDir d); [| apply IH]. cbv zeta. unfold processDir.
  destruct (Output env i _) as [output|e].
  - specialize (IH (processOutput first output g)).
    destruct (dirsLoop env i first last dirs _) as [rest g']. cbn in *. by rewrite IH.
  - specialize (IH g). destruct (dirsLoop env i first last dirs g) as [rest g']. by cbn in *.
Qed.

Lemma commands_app log1 log2 : commands (log1 ++ log2) = (commands log1 ++ commands log2)%list.
Proof. apply omap_app. Qed.

Lemma printed_app log1 log2 : printed (log1 ++ log2) = (printed log1 ++ printed log2)%list.
Proof. apply omap_app. Qed.

(** [git] is run for the entries that are directories, and for no
    other entry. *)
Lemma dirsLoop_commands env i first last dirs g :
  commands (dirsLoop env i first last dirs g).1
  = (fun d => commandLine (filepathJoin env (baseDir env) (Name d)) first last)
      <$> List.filter IsDir dirs.
Proof.
  revert g. induction dirs as [|d dirs IH]; intros g; [done |].
  rewrite dirsLoop_cons. cbn [List.filter].
  destruct (IsDir d); [| apply IH]. cbv zeta. unfold processDir.
  destruct (Output env i _) as [output|e].
  - specialize (IH (processOutput first output g)).
    destruct (dirsLoop env i first last dirs _) as [rest g']. cbn in *. by rewrite IH.
  - specialize (IH g). destruct (dirsLoop env i first last dirs g) as [rest g']. cbn in *.
    by rewrite IH.
Qed.

Lemma dirsLoop_printed env i first last dirs g :
  printed (dirsLoop env i first last dirs g).1 = dirErrors env i first last dirs.
Proof.
  revert g. induction dirs as [|d dirs IH]; intros g; [done |].
  rewrite dirsLoop_cons. unfold dirErrors. cbn [omap list_omap].
  fold (dirErrors env i first last dirs).
  destruct (IsDir d); [| apply IH]. cbv zeta. unfold processDir.
  destruct (Output env i _) as [output|e].
  - specialize (IH (processOutput first output g)).
    destruct (dirsLoop env i first last dirs _) as [rest g']. cbn in *. by rewrite IH.
  - specialize (IH g). destruct (dirsLoop env i first last dirs g) as [rest g']. cbn in *.
    by rewrite IH.
Qed.

(** The listing order does not matter to the Aggregate. *)
Lemma dirsLoop_Permutation env i first last dirs1 dirs2 g :
  dirs1 ≡ₚ dirs2 ->
  (dirsLoop env i first last dirs1 g).2 = (dirsLoop env i first last dirs2 g).2.
Proof.
  intros Hperm. rewrite !dirsLoop_scans. apply runScans_Permutation.
  unfold dirScans. by apply omap_Permutation.
Qed.

(** The loop over the months folds the scans of its iterations. *)
Lemma monthsLoop_scans env n i g :
  (monthsLoop env n i g).1.2 = runScans (loopScans env n i) g.
Proof.
  revert i g. induction n as [|n IH]; intros i g; [done |].
  rewrite monthsLoop_S. cbn [loopScans]. unfold iterationScans. cbv zeta.
  destruct (allRepos env).
  - destruct (ReadDir env i (baseDir env)) as [dirs|e]; [| done].
    rewrite runScans_app, <- dirsLoop_scans.
    destruct (dirsLoop env i _ _ dirs g) as [log g1]. cbn [snd].
    specialize (IH (i + 1) g1).
    by destruct (monthsLoop env n (i + 1) g1) as [[rest g'] x].
  - unfold processDir. destruct (Output env i _) as [output|e]; [| done].
    specialize (IH (i + 1) (processOutput (firstDayOfMonth (Now env i) i) output g)).
    by destruct (monthsLoop env n (i + 1) _) as [[rest g'] x].
Qed.

(** The loop runs to its end when no iteration ends the run. *)
Lemma monthsLoop_LoopDone env n i g :
  (monthsLoop env n i g).2 = LoopDone
  <-> forall k, 0 <= k < Z.of_nat n -> is_Some (iterationScans env (i + k)).
Proof.
  revert i g. induction n as [|n IH]; intros i g.
  - split; [intros _ k; lia | done].
  - rewrite monthsLoop_S. unfold iterationScans at 1. cbv zeta.
    assert (forall (P : Z -> Prop),
      (forall k, 0 <= k < Z.of_nat (S n) -> P (i + k))
      <-> P i /\ forall k, 0 <= k < Z.of_nat n -> P (i + 1 + k)) as Hsplit.
    { intros P. split.
      - intros H. split; [rewrite <- (Z.add_0_r i); apply H; lia |].
        intros k Hk. replace (i + 1 + k) with (i + (1 + k)) by lia. apply H. lia.
      - intros [H0 H] k Hk. destruct (decide (k = 0)) as [->|Hne]; [by rewrite Z.add_0_r |].
        replace (i + k) with (i + 1 + (k - 1)) by lia. apply H. lia. }
    rewrite (Hsplit (fun j => is_Some (iterationScans env j))).
    unfold iterationScans at 1. cbv zeta.
    destruct (allRepos env).
    + destruct (ReadDir env i (baseDir env)) as [dirs|e].
      * destruct (dirsLoop env i _ _ dirs g) as [log g1].
        specialize (IH (i + 1) g1).
        destruct (monthsLoop env n (i + 1) g1) as [[rest g'] x]. cbn [snd] in *.
        rewrite IH. split; [intros H; split; [by eexists | done] | by intros [_ H]].
      * cbn [snd]. split; [done | intros [[? ?] _]; done].
    + unfold processDir. destruct (Output env i _) as [output|e].
      * specialize (IH (i + 1) (processOutput (firstDayOfMonth (Now env i) i) output g)).
        destruct (monthsLoop env n (i + 1) _) as [[rest g'] x]. cbn [snd] in *.
        rewrite IH. split; [intros H; split; [by eexists | done] | by intros [_ H]].
      * cbn [snd]. split; [done | intros [[? ?] _]; done].
Qed.

(** A run that [return]s from the loop has printed an error last. *)
Lemma monthsLoop_Returned env n i g :
  (monthsLoop env n i g).2 = Returned ->
  exists log msg, (monthsLoop env n i g).1.1 = (log ++ [Println msg])%list.
Proof.
  revert i g. induction n as [|n IH]; intros i g; [done |].
  rewrite monthsLoop_S. cbv zeta.
  destruct (allRepos env).
  - destruct (ReadDir env i (baseDir env)) as [dirs|e].
    + destruct (dirsLoop env i _ _ dirs g) as [log g1].
      specialize (IH (i + 1) g1).
      destruct (monthsLoop env n (i + 1) g1) as [[rest g'] x]. cbn [fst snd] in *.
      intros (log' & msg & ->)%IH. exists (log ++ log')%list, msg. by rewrite app_assoc.
    + intros _. by exists [], ("Failed to read directory: " ++ e)%string.
  - unfold processDir. destruct (Output env i _) as [output|e].
    + specialize (IH (i + 1) (processOutput (firstDayOfMonth (Now env i) i) output g)).
      destruct (monthsLoop env n (i + 1) _) as [[rest g'] x]. cbn [fst snd] in *.
      intros (log' & msg & ->)%IH. eexists (_ :: log')%list, msg. done.
    + intros _. cbn [fst]. by eexists _, _.
Qed.

(** With one directory, a run without failure logs one command for each
    month and prints nothing. *)
Lemma monthsLoop_single env n i g :
  allRepos env = false ->
  (monthsLoop env n i g).2 = LoopDone ->
  (monthsLoop env n i g).1.1
  = (fun j => LogPrintln (commandLine (baseDir env)
                (firstDayOfMonth (Now env j) j) (lastDayOfMonth (Now env j) j)))
      <$> seqZ i (Z.of_nat n).
Proof.
  intros Hone. revert i g. induction n as [|n IH]; intros i g; [done |].
  rewrite monthsLoop_S, Hone. cbv zeta.
  replace (Z.of_nat (S n)) with (Z.succ (Z.of_nat n)) by lia.
  rewrite seqZ_cons by lia. rewrite Z.pred_succ, fmap_cons.
  unfold processDir. destruct (Output env i _) as [output|e]; [| done].
  specialize (IH (i + 1) (processOutput (firstDayOfMonth (Now env i) i) output g)).
  destruct (monthsLoop env n (i + 1) _) as [[rest g'] x]. cbn [fst snd] in *.
  intros Hx. rewrite (IH Hx). replace (Z.succ i) with (i + 1) by lia. done.
Qed.

(** *** The months of the Aggregate *)

Lemma runScans_cell_is_Some scans g who month :
  is_Some (cell (runScans scans g) who month) ->
  is_Some (cell g who month) \/ exists s, s ∈ scans /\ month = monthKey (fst s).
Proof.
  revert g. induction scans as [|s scans IH]; intros g; [by left |].
  rewrite runScans_cons. intros [H|(s' & Hin & Heq)]%IH.
  - apply processOutput_cell_is_Some in H as [H|[H _]]; [by left |].
    right. exists s. split; [left | done].
  - right. exists s'. split; [by right | done].
Qed.

Lemma dirScans_first env i first last dirs s : s ∈ dirScans env i first last dirs -> fst s = first.
Proof.
  unfold dirScans. intros (d & Hin & Hs)%list_elem_of_omap.
  destruct (IsDir d); [| done]. destruct (Output env i _); [| done]. by injection Hs as <-.
Qed.

Lemma iterationScans_first env i scans s :
  iterationScans env i = Some scans -> s ∈ scans -> fst s = firstDayOfMonth (Now env i) i.
Proof.
  unfold iterationScans. cbv zeta. destruct (allRepos env).
  - destruct (ReadDir env i (baseDir env)); [| done]. intros [= <-]. apply dirScans_first.
  - destruct (Output env i _); [| done]. intros [= <-]. by intros ->%list_elem_of_singleton.
Qed.

Lemma loopScans_first env n i s :
  s ∈ loopScans env n i ->
  exists j, i <= j < i + Z.of_nat n /\ fst s = firstDayOfMonth (Now env j) j.
Proof.
  revert i. induction n as [|n IH]; intros i; [by intros ?%elem_of_nil |].
  cbn [loopScans]. destruct (iterationScans env i) as [scans|] eqn:E; [| by intros ?%elem_of_nil].
  intros [Hin|Hin]%elem_of_app.
  - exists i. split; [lia |]. by eapply iterationScans_first.
  - apply IH in Hin as (j & Hj & Heq). exists j. split; [lia | done].
Qed.

Lemma mainLoop_scans env :
  (mainLoop env).1.2 = runScans (loopScans env (Z.to_nat (monthsBack env)) 0) gb0.
Proof. apply monthsLoop_scans. Qed.

Lemma mainLoop_monthsWithin env : monthsWithin env (mainLoop env).1.2.
Proof.
  intros who month Hcell. rewrite mainLoop_scans in Hcell.
  apply runScans_cell_is_Some in Hcell as [[c Hc]|(s & Hin & ->)]; [done |].
  apply loopScans_first in Hin as (j & Hj & ->). exists j. split; [lia | done].
Qed.

End RunFacts.

(** ** The lines of the output *)

Module LineFacts.

Import GoStrings Gitstats Spec GoStringsFacts RecordFacts AggregateFacts LoopFacts ScanFacts RunFacts.

Lemma Join_cons2 e1 e2 elems sep :
  Join (e1 :: e2 :: elems) sep = (e1 ++ sep ++ Join (e2 :: elems) sep)%string.
Proof. reflexivity. Qed.

(** The pieces of a split, joined by the separator, are the string. *)
Lemma Join_Split s sep : Join (Split s sep) (String sep "") = s.
Proof.
  induction s as [|c s IH]; [done |]. cbn [Split].
  destruct (Split_cons_piece s sep) as (piece & pieces & Hs). rewrite Hs in IH |- *.
  destruct (Ascii.eqb c sep) eqn:E.
  - apply Ascii.eqb_eq in E as ->. rewrite Join_cons2, IH. done.
  - destruct pieces as [|p ps].
    + cbn [Join] in *. by rewrite IH.
    + rewrite Join_cons2 in *. by rewrite <- IH.
Qed.

(** Pieces without the separator, joined and split, are the pieces. *)
Lemma Split_Join pieces sep :
  pieces <> [] -> Forall (fun piece => hasByte sep piece = false) pieces ->
  Split (Join pieces (String sep "")) sep = pieces.
Proof.
  induction pieces as [|p [|q ps] IH]; [done | |]; intros _ Hall.
  - cbn [Join]. apply Forall_cons in Hall as [Hp _]. clear IH.
    induction p as [|c p IHp]; [done |]. cbn [hasByte] in Hp.
    apply orb_false_iff in Hp as [Hc Hp]. cbn [Split]. rewrite Hc, (IHp Hp). done.
  - rewrite Join_cons2. apply Forall_cons in Hall as [Hp Hall].
    cbn [String.append]. rewrite Split_app_sep by done. by rewrite IH.
Qed.

Lemma HasPrefix_iff s p : HasPrefix s p = true <-> exists r, s = (p ++ r)%string.
Proof.
  revert s. induction p as [|c p IH]; intros s; cbn [HasPrefix].
  - split; [by exists s | done].
  - destruct s as [|d s]; [split; [done | by intros [r ?]] |].
    destruct (Ascii.eqb_spec c d) as [->|Hne].
    + rewrite IH. split; intros [r Hr]; exists r; cbn [String.append] in *; congruence.
    + split; [done |]. intros [r Hr]. cbn [String.append] in Hr. congruence.
Qed.

(** [strings.Contains]: the text occurs somewhere in the string. *)
Lemma Contains_iff s p : Contains s p = true <-> exists a b, s = (a ++ p ++ b)%string.
Proof.
  split; [| intros (a & b & ->); apply Contains_app].
  induction s as [|c s IH]; cbn [Contains].
  - rewrite orb_false_r. intros [r Hr]%HasPrefix_iff. by exists "", r.
  - intros [[r Hr]%HasPrefix_iff | (a & b & ->)%IH]%orb_true_iff.
    + by exists "", r.
    + by exists (String c a), b.
Qed.

End LineFacts.

(** ** Scans without statistics *)

Module EmptyFacts.

Import GoStrings Gitstats Spec GoStringsFacts RecordFacts AggregateFacts LoopFacts ScanFacts RunFacts.

Lemma processOutput_empty first output g :
  Stats (processOutput first output g) = ∅ <-> Stats g = ∅ /\ RecordParser output = [].
Proof.
  split.
  - intros He. destruct (RecordParser output) as [|t ts] eqn:E.
    + by rewrite processOutput_nil in He.
    + exfalso. destruct (processOutput_author first output g (tupleAuthor t)) as [x Hx].
      { rewrite E. apply list_elem_of_fmap. exists t. split; [done | left]. }
      by rewrite He, lookup_empty in Hx.
  - intros [He Hnil]. by rewrite processOutput_nil.
Qed.

(** The Aggregate stays empty exactly when no scan has a statistics line. *)
Lemma runScans_empty scans g :
  Stats (runScans scans g) = ∅
  <-> Stats g = ∅ /\ Forall (fun s : scan => RecordParser (snd s) = []) scans.
Proof.
  revert g. induction scans as [|s scans IH]; intros g.
  - split; [by intros ? | by intros [? _]].
  - rewrite runScans_cons, IH, processOutput_empty, Forall_cons. tauto.
Qed.

End EmptyFacts.

(** ** The month of an iteration *)

Module CalendarFacts.

Import GoTime Gitstats Spec GoStringsFacts TimeFacts.

Lemma monthIndex_normMonth y m :
  monthIndex (normMonth y m).1 (normMonth y m).2 = monthIndex y m.
Proof. unfold monthIndex, normMonth. cbn [fst snd]. Z.div_mod_to_equations. lia. Qed.

Lemma monthIndex_nextMonth y m :
  monthIndex (nextMonth y m).1 (nextMonth y m).2 = monthIndex y m + 1.
Proof. unfold monthIndex, nextMonth. destruct (Z.eqb_spec m 12); cbn [fst snd]; lia. Qed.

Lemma nextMonth_normMonth y m : 1 <= m <= 12 -> normMonth y (m + 1) = nextMonth y m.
Proof.
  intros Hm. unfold normMonth, nextMonth. destruct (Z.eqb_spec m 12) as [->|Hne].
  - reflexivity.
  - rewrite Z.div_small, Z.mod_small by lia. f_equal; lia.
Qed.

(** The month that iteration [i] scans. *)
Lemma iterationMonth_cases now i :
  validDate now ->
  iterationMonth now i
  = let (y, m) := normMonth (Year now) (Month now - i) in
    if dayOverflows now i then nextMonth y m else (y, m).
Proof.
  intros [Hm Hd]. unfold dayOverflows, iterationMonth, AddDate, Date.
  replace (Year now + 0) with (Year now) by lia.
  replace (Month now + - i) with (Month now - i) by lia.
  replace (Day now + 0) with (Day now) by lia.
  pose proof (normMonth_range (Year now) (Month now - i)) as Hr.
  destruct (normMonth (Year now) (Month now - i)) as [y m]. cbn [snd] in Hr.
  pose proof (daysIn_range (Year now) (Month now)). pose proof (daysIn_range y m).
  cbn [normDay]. destruct (Z.ltb_spec (Day now) 1); [lia |].
  destruct (Z.ltb_spec (daysIn y m) (Day now)); [| done].
  pose proof (nextMonth_range y m Hr). destruct (nextMonth y m) as [y' m'].
  pose proof (daysIn_range y' m'). rewrite normDay_valid by lia. done.
Qed.

Lemma iterationMonth_index now i :
  validDate now ->
  monthIndex (iterationMonth now i).1 (iterationMonth now i).2
  = monthIndex (Year now) (Month now) - i + (if dayOverflows now i then 1 else 0).
Proof.
  intros Hv. rewrite iterationMonth_cases by done.
  pose proof (monthIndex_normMonth (Year now) (Month now - i)) as Hn.
  unfold dayOverflows.
  destruct (normMonth (Year now) (Month now - i)) as [y m]. cbn [fst snd] in Hn.
  destruct (daysIn y m <? Day now).
  - rewrite monthIndex_nextMonth, Hn. unfold monthIndex. lia.
  - cbn [fst snd]. rewrite Hn. unfold monthIndex. lia.
Qed.

Lemma dayOverflows_early now i : Day now <= 28 -> dayOverflows now i = false.
Proof.
  intros Hd. unfold dayOverflows. destruct (normMonth (Year now) (Month now - i)) as [y m].
  pose proof (daysIn_range y m). apply Z.ltb_ge. lia.
Qed.

Lemma dayOverflows_0 now : validDate now -> dayOverflows now 0 = false.
Proof.
  intros [Hm Hd]. unfold dayOverflows. rewrite Z.sub_0_r, normMonth_valid by done.
  apply Z.ltb_ge. lia.
Qed.

(** *** The window *)

Lemma firstDayOfMonth_validDate now i : validDate (firstDayOfMonth now i).
Proof.
  rewrite firstDayOfMonth_eq. pose proof (iterationMonth_range now i).
  destruct (iterationMonth now i) as [y m]. pose proof (daysIn_range y m).
  split; cbn in *; lia.
Qed.

Lemma lastDayOfMonth_validDate now i : validDate (lastDayOfMonth now i).
Proof.
  rewrite lastDayOfMonth_eq. pose proof (iterationMonth_range now i).
  destruct (iterationMonth now i) as [y m]. pose proof (daysIn_range y m).
  split; cbn in *; lia.
Qed.

(** The day after the last day of the window is the first day of the
    next month. *)
Lemma day_after_window now i :
  AddDate (lastDayOfMonth now i) 0 0 1
  = mkTime (nextMonth (iterationMonth now i).1 (iterationMonth now i).2).1
      (nextMonth (iterationMonth now i).1 (iterationMonth now i).2).2 1.
Proof.
  rewrite lastDayOfMonth_eq. pose proof (iterationMonth_range now i) as Hm.
  destruct (iterationMonth now i) as [y m]. cbn [fst snd] in *.
  unfold AddDate, Date. cbn [Year Month Day].
  replace (y + 0) with y by lia. replace (m + 0) with m by lia.
  rewrite normMonth_valid by done.
  pose proof (daysIn_range y m). cbn [normDay].
  destruct (Z.ltb_spec (daysIn y m + 1) 1); [lia |].
  destruct (Z.ltb_spec (daysIn y m) (daysIn y m + 1)); [| lia].
  pose proof (nextMonth_range y m Hm). destruct (nextMonth y m) as [y' m'].
  pose proof (daysIn_range y' m'). cbn [fst snd]. rewrite normDay_valid by lia.
  f_equal. lia.
Qed.

Lemma month_after_window now i :
  AddDate (firstDayOfMonth now i) 0 1 0
  = mkTime (nextMonth (iterationMonth now i).1 (iterationMonth now i).2).1
      (nextMonth (iterationMonth now i).1 (iterationMonth now i).2).2 1.
Proof.
  rewrite firstDayOfMonth_eq. pose proof (iterationMonth_range now i) as Hm.
  destruct (iterationMonth now i) as [y m]. cbn [fst snd] in *.
  unfold AddDate. cbn [Year Month Day].
  replace (y + 0) with y by lia. change (1 + 0) with 1.
  unfold Date. rewrite nextMonth_normMonth by done.
  pose proof (nextMonth_range y m Hm). destruct (nextMonth y m) as [y' m'].
  pose proof (daysIn_range y' m'). cbn [fst snd]. by rewrite normDay_valid by lia.
Qed.

End CalendarFacts.

(** ** Dates and keys as text *)

Module FormatFacts.

Import GoTime Gitstats Spec GoStringsFacts TimeFacts.

Lemma isDigit_digitChar a : 0 <= a <= 9 -> Regexp.isDigit (digitChar a) = true.
Proof. intros Ha. digit_cases a; reflexivity. Qed.

Lemma digitValue_digitChar a : 0 <= a <= 9 -> Fmt.digitValue (digitChar a) = a.
Proof. intros Ha. digit_cases a; reflexivity. Qed.

Lemma decimal_digitChar acc a s :
  0 <= a <= 9 -> Fmt.decimal acc (String (digitChar a) s) = Fmt.decimal (10 * acc + a) s.
Proof. intros Ha. cbn [Fmt.decimal]. by rewrite isDigit_digitChar, digitValue_digitChar. Qed.

Lemma appendInt_day d :
  1 <= d <= 31 ->
  appendInt d 2 = String (digitChar (d / 10)) (String (digitChar (d mod 10)) "").
Proof.
  intros Hd. unfold appendInt.
  destruct (Z.ltb_spec d 0); [lia |]. rewrite Z.abs_eq by lia.
  destruct (Z.ltb_spec d 100); [| lia]. reflexivity.
Qed.

Lemma day_digits d :
  1 <= d <= 31 -> 0 <= d / 10 <= 9 /\ 0 <= d mod 10 <= 9 /\ d = 10 * (d / 10) + d mod 10.
Proof. intros Hd. Z.div_mod_to_equations. lia. Qed.

(** A date of the years 0 to 9999 is written as [YYYY-MM-DD] and read
    back from it. *)
Lemma parseDate_Format t :
  validDate t -> 0 <= Year t <= 9999 -> parseDate (Format t layoutDate) = Some t.
Proof.
  destruct t as [y m d]. intros [Hm Hd] Hy. cbn [Year Month Day] in *.
  pose proof (daysIn_range y m).
  unfold Format, layoutDate. cbn [fold_right formatChunk Year Month Day].
  rewrite appendInt_year, appendInt_month, appendInt_day by lia.
  destruct (year_digits y Hy) as (A3 & A2 & A1 & A0 & Ey).
  destruct (month_digits m Hm) as (M1 & M0 & Em).
  destruct (day_digits d ltac:(lia)) as (D1 & D0 & Ed).
  cbn [String.append parseDate]. cbn [Ascii.eqb andb].
  change (Ascii.eqb "-" "-") with true. cbn [andb].
  rewrite !decimal_digitChar by lia. cbn [Fmt.decimal mbind option_bind].
  do 2 f_equal; lia.
Qed.

(** *** Numbers as [appendInt] writes them *)

Lemma decimal_app acc s1 s2 :
  Fmt.decimal acc (s1 ++ s2) = Fmt.decimal acc s1 ≫= fun v => Fmt.decimal v s2.
Proof.
  revert acc. induction s1 as [|c s1 IH]; intros acc; [done |].
  cbn [String.append Fmt.decimal]. destruct (Regexp.isDigit c); [apply IH | done].
Qed.

Lemma append_cons_assoc ds c acc : (ds ++ String c acc = (ds ++ String c "") ++ acc)%string.
Proof. by rewrite append_assoc. Qed.

Lemma pow10_S (n : nat) : 10 ^ Z.of_nat (S n) = 10 * 10 ^ Z.of_nat n.
Proof. rewrite Nat2Z.inj_succ, Z.pow_succ_r by lia. done. Qed.

Lemma digits_S fuel u acc :
  digits (S fuel) u acc
  = if u <? 10 then String (digitChar (u mod 10)) acc
    else digits fuel (u / 10) (String (digitChar (u mod 10)) acc).
Proof. reflexivity. Qed.

Lemma digits_spec fuel u acc :
  0 <= u < 10 ^ Z.of_nat (S fuel) ->
  exists ds, digits (S fuel) u acc = (ds ++ acc)%string /\
    allDigits ds = true /\ ds <> "" /\ Fmt.decimal 0 ds = Some u.
Proof.
  revert u acc. induction fuel as [|fuel IH]; intros u acc Hu; rewrite digits_S.
  - change (10 ^ Z.of_nat 1) with 10 in Hu.
    destruct (Z.ltb_spec u 10); [| lia].
    rewrite Z.mod_small by lia. exists (String (digitChar u) ""). split_and!; [done | | done |].
    + cbn. by rewrite isDigit_digitChar by lia.
    + by rewrite decimal_digitChar by lia.
  - destruct (Z.ltb_spec u 10).
    + rewrite Z.mod_small by lia. exists (String (digitChar u) ""). split_and!; [done | | done |].
      * cbn. by rewrite isDigit_digitChar by lia.
      * by rewrite decimal_digitChar by lia.
    + rewrite pow10_S in Hu.
      destruct (IH (u / 10) (String (digitChar (u mod 10)) acc)) as (ds & -> & Hds & Hne & Hval).
      { split; [apply Z.div_pos; lia | apply Z.div_lt_upper_bound; lia]. }
      pose proof (Z.mod_pos_bound u 10 ltac:(lia)).
      exists (ds ++ String (digitChar (u mod 10)) "")%string. split_and!.
      * apply append_cons_assoc.
      * rewrite allDigits_app, Hds. cbn. by rewrite isDigit_digitChar by lia.
      * by destruct ds.
      * rewrite decimal_app, Hval. cbn [mbind option_bind].
        rewrite decimal_digitChar by lia. cbn. f_equal. Z.div_mod_to_equations. lia.
Qed.

Lemma log2_pow10 u : 0 <= u -> u < 10 ^ Z.of_nat (S (Z.to_nat (Z.log2 u))).
Proof.
  intros Hu. destruct (decide (u = 0)) as [->|Hne]; [done |].
  pose proof (Z.log2_nonneg u). rewrite Nat2Z.inj_succ, Z2Nat.id by done.
  pose proof (proj2 (Z.log2_spec u ltac:(lia))) as Hlt.
  eapply Z.lt_le_trans; [exact Hlt |].
  apply Z.pow_le_mono_l. lia.
Qed.

Lemma zeros_spec n d :
  exists z, zeros n d = (z ++ d)%string /\ allDigits z = true /\
    forall s, Fmt.decimal 0 (z ++ s) = Fmt.decimal 0 s.
Proof.
  induction n as [|n (z & Hz & Hall & Hdec)]; cbn [zeros].
  - by exists "".
  - exists (String "0"%char z). rewrite Hz. split_and!; [done | by cbn; rewrite Hall |].
    intros s. cbn [String.append Fmt.decimal]. change (Regexp.isDigit "0") with true. cbn.
    apply Hdec.
Qed.

(** [appendInt] writes the sign of the number and then digits that
    denote its absolute value. *)
Lemma appendInt_spec x width :
  exists ds, appendInt x width = ((if (x <? 0)%Z then "-" else "") ++ ds)%string /\
    allDigits ds = true /\ ds <> "" /\ Fmt.decimal 0 ds = Some (Z.abs x).
Proof.
  unfold appendInt. set (u := Z.abs x). assert (0 <= u) as Hu by (subst u; lia).
  eexists. split; [reflexivity |].
  destruct (Nat.eqb width 2 && (u <? 100)) eqn:E2.
  { apply andb_true_iff in E2 as [_ Hlt%Z.ltb_lt].
    assert (0 <= u / 10 <= 9 /\ 0 <= u mod 10 <= 9 /\ u = 10 * (u / 10) + u mod 10)
      as (H1 & H0 & Eu) by (Z.div_mod_to_equations; lia).
    split_and!; [| done |].
    - cbn. by rewrite !isDigit_digitChar by done.
    - rewrite !decimal_digitChar by done. cbn. f_equal. lia. }
  destruct (Nat.eqb width 4 && (u <? 10000)) eqn:E4.
  { apply andb_true_iff in E4 as [_ Hlt%Z.ltb_lt].
    destruct (year_digits u ltac:(lia)) as (A3 & A2 & A1 & A0 & Eu).
    split_and!; [| done |].
    - cbn. by rewrite !isDigit_digitChar by done.
    - rewrite !decimal_digitChar by done. cbn. f_equal. lia. }
  destruct (digits_spec (Z.to_nat (Z.log2 u)) u "") as (ds & Hds & Hall & Hne & Hval);
    [split; [done | by apply log2_pow10] |].
  rewrite append_nil_r in Hds. rewrite Hds.
  destruct (zeros_spec (width - String.length ds) ds) as (z & -> & Hz & Hdec).
  split_and!.
  - by rewrite allDigits_app, Hz, Hall.
  - by destruct z, ds.
  - by rewrite Hdec.
Qed.

(** A run of digits ends where the first byte that is no digit stands. *)
Lemma digits_then_sep ds1 ds2 c1 c2 r1 r2 :
  allDigits ds1 = true -> allDigits ds2 = true ->
  Regexp.isDigit c1 = false -> Regexp.isDigit c2 = false ->
  (ds1 ++ String c1 r1 = ds2 ++ String c2 r2)%string ->
  ds1 = ds2 /\ c1 = c2 /\ r1 = r2.
Proof.
  intros H1 H2 Hc1 Hc2. revert ds2 H2.
  induction ds1 as [|a ds1 IH]; intros [|b ds2] H2; cbn [String.append].
  - by intros [= -> ->].
  - intros [= -> _]. cbn in H2. apply andb_true_iff in H2 as [H2 _]. congruence.
  - intros [= -> _]. cbn in H1. apply andb_true_iff in H1 as [H1 _]. congruence.
  - intros [= -> Heq]. cbn in H1, H2.
    apply andb_true_iff in H1 as [_ H1]. apply andb_true_iff in H2 as [_ H2].
    destruct (IH H1 ds2 H2 Heq) as (-> & -> & ->). done.
Qed.

Lemma appendInt_then_sep x1 x2 w1 w2 c r1 r2 :
  Regexp.isDigit c = false ->
  (appendInt x1 w1 ++ String c r1 = appendInt x2 w2 ++ String c r2)%string ->
  x1 = x2 /\ r1 = r2.
Proof.
  intros Hc.
  destruct (appendInt_spec x1 w1) as (ds1 & -> & Hall1 & Hne1 & Hval1).
  destruct (appendInt_spec x2 w2) as (ds2 & -> & Hall2 & Hne2 & Hval2).
  destruct (Z.ltb_spec x1 0), (Z.ltb_spec x2 0); cbn [String.append].
  - intros [= Heq]. destruct (digits_then_sep _ _ _ _ _ _ Hall1 Hall2 Hc Hc Heq) as (-> & _ & ->).
    split; [| done]. assert (Z.abs x1 = Z.abs x2) by congruence. lia.
  - destruct ds2 as [|b ds2]; [done |]. cbn [String.append]. intros [= <- _].
    cbn in Hall2. done.
  - destruct ds1 as [|b ds1]; [done |]. cbn [String.append]. intros [= -> _].
    cbn in Hall1. done.
  - intros Heq. destruct (digits_then_sep _ _ _ _ _ _ Hall1 Hall2 Hc Hc Heq) as (-> & _ & ->).
    split; [| done]. assert (Z.abs x1 = Z.abs x2) by congruence. lia.
Qed.

(** Months with different years or different numbers have different keys. *)
Lemma monthKey_inj t1 t2 :
  monthKey t1 = monthKey t2 -> Year t1 = Year t2 /\ Month t1 = Month t2.
Proof.
  rewrite !monthKey_eq. cbn [String.append]. intros [= Heq].
  change ("-" ++ ?s)%string with (String "-"%char s) in Heq.
  apply appendInt_then_sep in Heq as [Hy Heq]; [| done].
  change (") " ++ ?s)%string with (String ")"%char (" " ++ s)) in Heq.
  by apply appendInt_then_sep in Heq as [Hm _].
Qed.

End FormatFacts.

(** ** The first clause of a line *)

Module ClauseFacts.

Import GoStrings Regexp Gitstats Spec GoStringsFacts RegexpFacts.

(** The match is the clause that starts first. *)
Lemma FindStringSubmatch_first unit close s g :
  unit <> "" -> startsWithDigit unit = false ->
  FindStringSubmatch (clauseRe unit close) s = Some g ->
  exists before after, firstClause unit close s before g after.
Proof.
  intros Hu Hnd. induction s as [|x s IH]; rewrite FindStringSubmatch_unfold.
  - destruct (matchHere _ _ _) as [g0|] eqn:E; [| done].
    intros [= ->]. apply matchHere_Some in E as [after E]. exists "", after.
    split; [done |]. intros; cbn; lia.
  - destruct (matchHere _ _ _) as [g0|] eqn:E.
    + intros [= ->]. apply matchHere_Some in E as [after E]. exists "", after.
      split; [done |]. intros; cbn; lia.
    + intros (before & after & (plural & -> & Hpl & Hne & Hds) & Hfirst)%IH.
      exists (String x before), after. split.
      * exists plural. by cbn.
      * intros before' ds' after' Hat. destruct before' as [|y before'].
        { rewrite (matchHere_clauseAt unit close "" _ ds' after') in E; done. }
        destruct Hat as (plural' & Heq & Hpl' & Hne' & Hds').
        cbn [String.append] in Heq. injection Heq as -> Heq.
        cbn [String.length]. apply le_n_S. apply (Hfirst before' ds' after').
        by exists plural'.
Qed.

Lemma append_inj_length (a1 a2 b1 b2 : string) :
  String.length a1 = String.length a2 -> (a1 ++ b1 = a2 ++ b2)%string -> a1 = a2 /\ b1 = b2.
Proof.
  revert a2. induction a1 as [|x a1 IH]; intros [|y a2]; cbn [String.length String.append];
    try done.
  intros [= Hlen] [= -> Heq]. by destruct (IH a2 Hlen Heq) as [-> ->].
Qed.

Lemma digits_then_unit ds1 ds2 unit r1 r2 :
  unit <> "" -> startsWithDigit unit = false ->
  allDigits ds1 = true -> allDigits ds2 = true ->
  (ds1 ++ unit ++ r1 = ds2 ++ unit ++ r2)%string -> ds1 = ds2.
Proof.
  intros Hu Hnd. destruct unit as [|u unit]; [done |]. cbn in Hnd. clear Hu.
  revert ds2. induction ds1 as [|a ds1 IH]; intros [|b ds2]; cbn [allDigits String.append];
    try done.
  - intros _ [Hb _]%andb_true_iff [= -> _]. congruence.
  - intros [Ha _]%andb_true_iff _ [= -> _]. congruence.
  - intros [_ H1]%andb_true_iff [_ H2]%andb_true_iff [= -> Heq]. f_equal. by apply IH.
Qed.

(** A line has one first clause. *)
Lemma firstClause_unique unit close line before1 ds1 after1 before2 ds2 after2 :
  unit <> "" -> startsWithDigit unit = false ->
  firstClause unit close line before1 ds1 after1 ->
  firstClause unit close line before2 ds2 after2 ->
  before1 = before2 /\ ds1 = ds2.
Proof.
  intros Hu Hnd [Hat1 Hfirst1] [Hat2 Hfirst2].
  pose proof (Hfirst1 _ _ _ Hat2). pose proof (Hfirst2 _ _ _ Hat1).
  destruct Hat1 as (pl1 & Heq1 & _ & _ & Hds1), Hat2 as (pl2 & Heq2 & _ & _ & Hds2).
  rewrite Heq1 in Heq2.
  apply append_inj_length in Heq2 as [-> Heq]; [| lia]. split; [done |].
  by eapply digits_then_unit.
Qed.

Lemma extractCount_first unit close line g :
  unit <> "" -> startsWithDigit unit = false ->
  FindStringSubmatch (clauseRe unit close) line = Some g ->
  exists before after,
    firstClause unit close line before g after
    /\ countOf g (extractCount (clauseRe unit close) line).
Proof.
  intros Hu Hnd E.
  destruct (FindStringSubmatch_first unit close line g Hu Hnd E) as (before & after & Hfirst).
  exists before, after. split; [done |]. unfold extractCount. rewrite E.
  destruct Hfirst as [(plural & _ & _ & Hne & Hds) _]. by apply Sscanf_d_countOf.
Qed.

End ClauseFacts.

(** ** The reports of an Aggregate *)

Module PrintFacts.

Import GoStrings Gitstats Spec GoIntFacts AggregateFacts ReportFacts.

(** *** Sorting always has a result *)

Lemma moreInsertions_trans : Transitive (notAfter moreInsertions).
Proof.
  intros x y z. unfold notAfter, moreInsertions.
  intros H1%Z.ltb_ge H2%Z.ltb_ge. apply Z.ltb_ge. lia.
Qed.

Lemma moreInsertions_total : Total (notAfter moreInsertions).
Proof.
  intros x y. unfold notAfter, moreInsertions.
  destruct (Z.ltb_spec (snd x) (snd y)); [right | by left]. apply Z.ltb_ge. lia.
Qed.

Lemma Less_lt a b : Less a b = true <-> OrderedTypeEx.String_as_OT.lt a b.
Proof.
  unfold Less, String.ltb. rewrite <- OrderedTypeEx.String_as_OT.cmp_lt.
  unfold OrderedTypeEx.String_as_OT.cmp. by destruct (String.compare a b).
Qed.

Lemma Less_trans_lt a b c : Less a b = true -> Less b c = true -> Less a c = true.
Proof. rewrite !Less_lt. apply OrderedTypeEx.String_as_OT.lt_trans. Qed.

Lemma Less_cases a b : Less a b = true \/ a = b \/ Less b a = true.
Proof.
  destruct (Less b a) eqn:E; [by right; right |].
  destruct (decide (a = b)) as [->|Hne]; [by right; left | left]. by apply Less_total.
Qed.

Lemma Less_irrefl a : Less a a = false.
Proof. unfold Less, String.ltb. by rewrite TimeFacts.compare_refl. Qed.

Lemma Less_asym a b : Less a b = true -> Less b a = false.
Proof.
  unfold Less, String.ltb. rewrite (String.compare_antisym a b).
  by destruct (String.compare b a).
Qed.

Lemma Less_notAfter_trans : Transitive (notAfter Less).
Proof.
  intros x y z. unfold notAfter. intros Hyx Hzy.
  destruct (Less z x) eqn:Hzx; [| done].
  destruct (Less_cases x y) as [Hxy | [-> | Hyx']]; [| congruence | congruence].
  by rewrite (Less_trans_lt z x y) in Hzy.
Qed.

Lemma Less_notAfter_total : Total (notAfter Less).
Proof.
  intros x y. unfold notAfter.
  destruct (Less_cases x y) as [Hxy | [-> | Hyx]].
  - left. by apply Less_asym.
  - left. apply Less_irrefl.
  - right. by apply Less_asym.
Qed.

Lemma Less_notAfter_antisym : AntiSymm eq (notAfter Less).
Proof.
  intros x y. unfold notAfter. intros Hyx Hxy.
  destruct (Less_cases x y) as [H | [-> | H]]; congruence.
Qed.

Lemma sorts_exists_rows (l : list (string * Z)) : exists sorted, GoSort.sorts moreInsertions l sorted.
Proof.
  exists (@merge_sort _ (notAfter moreInsertions) (notAfter_dec moreInsertions) l). split.
  - apply merge_sort_Permutation.
  - exact (@StronglySorted_merge_sort _ (notAfter moreInsertions) (notAfter_dec moreInsertions)
             moreInsertions_trans moreInsertions_total l).
Qed.

Lemma sorts_exists_keys (l : list string) : exists sorted, GoSort.sorts Less l sorted.
Proof.
  exists (@merge_sort _ (notAfter Less) (notAfter_dec Less) l). split.
  - apply merge_sort_Permutation.
  - exact (@StronglySorted_merge_sort _ (notAfter Less) (notAfter_dec Less)
             Less_notAfter_trans Less_notAfter_total l).
Qed.

(** *** The block of a month, whatever the order of the range *)

Lemma sumList_cellIns month (entries : list (string * gmap string ChangesStats)) :
  sumList (cellIns month <$> entries) = sumList (snd <$> omap (pickMonth month) entries).
Proof.
  induction entries as [|[who months] entries IH]; [done |].
  rewrite fmap_cons, sumList_cons, IH. cbn [omap list_omap].
  unfold cellIns at 1, pickMonth at 2. cbn [fst snd].
  destruct (months !! month) as [c|]; cbn [fmap option_fmap option_map from_option].
  - by rewrite fmap_cons, sumList_cons.
  - lia.
Qed.

Lemma monthBlock_iff g month block :
  monthBlock g month block
  <-> exists sorted,
        GoSort.sorts moreInsertions (omap (pickMonth month) (map_to_list (Stats g))) sorted /\
        block = ([Rule; MonthHeader month]
                   ++ map (fun r => AuthorRow (fst r) (snd r)) sorted
                   ++ [MonthSummary (GoInt.wrap (monthSum g month))])%list.
Proof.
  unfold monthBlock. split.
  - intros (entries & sorted & Hranges & Hblock).
    change ([], 0, 0) with (@nil (string * Z), GoInt.wrap 0, GoInt.wrap 0) in Hblock.
    rewrite collectMonth_fold in Hblock. cbn [app] in Hblock.
    destruct Hblock as [[Hperm Hsorted] ->]. exists sorted. split.
    + split; [| done]. rewrite Hperm. apply omap_Permutation. exact Hranges.
    + do 3 f_equal. unfold monthSum. by rewrite (mapSum_ranges _ _ entries).
  - intros (sorted & Hsorts & ->). exists (map_to_list (Stats g)), sorted.
    split; [by unfold GoMap.ranges |].
    change ([], 0, 0) with (@nil (string * Z), GoInt.wrap 0, GoInt.wrap 0).
    rewrite collectMonth_fold. cbn [app]. split; [done |].
    assert (GoMap.ranges (Stats g) (map_to_list (Stats g))) as Hr by (by unfold GoMap.ranges).
    unfold monthSum. by rewrite (mapSum_ranges _ _ _ Hr), Z.add_0_l.
Qed.

Lemma monthBlock_exists g month : exists block, monthBlock g month block.
Proof.
  destruct (sorts_exists_rows (omap (pickMonth month) (map_to_list (Stats g)))) as [sorted Hs].
  eexists. apply monthBlock_iff. by exists sorted.
Qed.

Lemma monthBlocks_exist g months : exists blocks, Forall2 (monthBlock g) months blocks.
Proof.
  induction months as [|month months [blocks IH]]; [by exists [] |].
  destruct (monthBlock_exists g month) as [block Hb].
  exists (block :: blocks). by constructor.
Qed.

(** [printStats] has a report for every Aggregate. *)
Lemma printStats_exists g : exists out, printStats g out.
Proof.
  unfold printStats. case_decide; [by exists [] |].
  destruct (sorts_exists_keys (elements (uniqueMonths g))) as [monthsOrdered Hm].
  destruct (monthBlocks_exist g monthsOrdered) as [blocks Hb].
  destruct (sorts_exists_rows (map_to_list (authorInsertions g))) as [sortedAuthors Ha].
  eexists. exists (elements (uniqueMonths g)), monthsOrdered, blocks,
    (map_to_list (authorInsertions g)), sortedAuthors.
  unfold GoMap.ranges. split_and!; done.
Qed.

(** *** Reports of the same Aggregate *)

Lemma sorts_months_unique input out1 out2 :
  GoSort.sorts Less input out1 -> GoSort.sorts Less input out2 -> out1 = out2.
Proof.
  intros [Hp1 Hs1] [Hp2 Hs2].
  apply (@StronglySorted_unique _ (notAfter Less) Less_notAfter_antisym); [done | done |].
  by rewrite Hp1, Hp2.
Qed.

Lemma StronglySorted_snd (l : list (string * Z)) :
  StronglySorted (notAfter moreInsertions) l -> StronglySorted (fun a b => b <= a) (snd <$> l).
Proof.
  induction 1 as [|x l Hs IH Hall]; [constructor |].
  rewrite fmap_cons. constructor; [done |].
  apply Forall_fmap. eapply Forall_impl; [done |].
  intros y. unfold notAfter, moreInsertions. intros H%Z.ltb_ge. done.
Qed.

Lemma sorts_rows_numbers input1 input2 out1 out2 :
  input1 ≡ₚ input2 ->
  GoSort.sorts moreInsertions input1 out1 -> GoSort.sorts moreInsertions input2 out2 ->
  snd <$> out1 = snd <$> out2 /\ out1 ≡ₚ out2.
Proof.
  intros Hperm [Hp1 Hs1] [Hp2 Hs2].
  assert (out1 ≡ₚ out2) as Hp by (by rewrite Hp1, Hp2, Hperm).
  split; [| done].
  assert (AntiSymm eq (fun a b : Z => b <= a)) as Hanti by (intros a b ??; lia).
  apply (@StronglySorted_unique _ (fun a b : Z => b <= a) Hanti).
  - by apply StronglySorted_snd.
  - by apply StronglySorted_snd.
  - by rewrite Hp.
Qed.

Lemma shape_AuthorRows (rows : list (string * Z)) :
  shape <$> map (fun r => AuthorRow (fst r) (snd r)) rows = AuthorRow "" <$> (snd <$> rows).
Proof. induction rows as [|[who n] rows IH]; [done |]. cbn. by rewrite <- IH. Qed.

Lemma shape_DeveloperRows (rows : list (string * Z)) :
  shape <$> map (fun r => DeveloperRow (fst r) (snd r)) rows = DeveloperRow "" <$> (snd <$> rows).
Proof. induction rows as [|[who n] rows IH]; [done |]. cbn. by rewrite <- IH. Qed.

Lemma monthBlock_shape g month block1 block2 :
  monthBlock g month block1 -> monthBlock g month block2 ->
  shape <$> block1 = shape <$> block2 /\ block1 ≡ₚ block2.
Proof.
  intros (s1 & Hs1 & ->)%monthBlock_iff (s2 & Hs2 & ->)%monthBlock_iff.
  destruct (sorts_rows_numbers _ _ _ _ (reflexivity _) Hs1 Hs2) as [Hnum Hperm].
  split.
  - rewrite !fmap_app, !shape_AuthorRows, Hnum. done.
  - do 2 apply Permutation_skip. apply Permutation_app_tail.
    by apply Permutation_map.
Qed.

Lemma monthBlocks_shape g months blocks1 blocks2 :
  Forall2 (monthBlock g) months blocks1 -> Forall2 (monthBlock g) months blocks2 ->
  shape <$> concat blocks1 = shape <$> concat blocks2 /\ concat blocks1 ≡ₚ concat blocks2.
Proof.
  intros H1. revert blocks2. induction H1 as [|month b1 months blocks1 Hb1 _ IH]; intros blocks2 H2.
  - by apply Forall2_nil_inv_l in H2 as ->.
  - apply Forall2_cons_inv_l in H2 as (b2 & blocks2' & Hb2 & H2 & ->).
    destruct (monthBlock_shape g month b1 b2 Hb1 Hb2) as [Hs Hp].
    destruct (IH blocks2' H2) as [Hs' Hp'].
    cbn [concat]. rewrite !fmap_app, Hs, Hs'. split; [done |]. by rewrite Hp, Hp'.
Qed.

(** All the reports of an Aggregate show the same numbers line by line
    and the same lines up to their order. *)
Lemma printStats_shape g out1 out2 :
  printStats g out1 -> printStats g out2 ->
  shape <$> out1 = shape <$> out2 /\ out1 ≡ₚ out2.
Proof.
  unfold printStats. case_decide as Hsize; [by intros -> -> |].
  intros (seen1 & months1 & blocks1 & by1 & sorted1 & Hseen1 & Hm1 & Hb1 & Hby1 & Hs1 & ->).
  intros (seen2 & months2 & blocks2 & by2 & sorted2 & Hseen2 & Hm2 & Hb2 & Hby2 & Hs2 & ->).
  assert (months1 = months2) as <-.
  { destruct Hm1 as [Hp1 Hso1], Hm2 as [Hp2 Hso2].
    apply (@StronglySorted_unique _ (notAfter Less) Less_notAfter_antisym); [done | done |].
    by rewrite Hp1, Hp2, Hseen1, Hseen2. }
  destruct (monthBlocks_shape g months1 blocks1 blocks2 Hb1 Hb2) as [Hbs Hbp].
  assert (by1 ≡ₚ by2) as Hby by (unfold GoMap.ranges in *; by rewrite Hby1, Hby2).
  destruct (sorts_rows_numbers _ _ _ _ Hby Hs1 Hs2) as [Hnum Hperm].
  split.
  - rewrite !fmap_app, Hbs, !shape_DeveloperRows, Hnum. done.
  - rewrite Hbp. apply Permutation_app_head. do 2 apply Permutation_skip.
    apply Permutation_app_tail. by apply Permutation_map.
Qed.

End PrintFacts.

(** ** Deletions *)

Module DeletionFacts.

Import GoStrings Gitstats Spec GoIntFacts AggregateFacts ReportFacts PrintFacts.

(** *** The report does not read the deletions *)

Lemma mapSum_fmap {A} (f : A -> Z) (m : gmap string A) : mapSum f m = mapSum id (f <$> m).
Proof.
  induction m as [|k x m Hk IH] using map_ind.
  - by rewrite fmap_empty, !mapSum_empty.
  - rewrite fmap_insert, !mapSum_insert_None by (by rewrite ?lookup_fmap, ?Hk). by rewrite IH.
Qed.

Section same.

Variables g g' : GlobalStats.
Hypothesis Hsame : sameInsertions g g'.

Lemma sameInsertions_cell who month :
  is_Some (cell g who month) <-> is_Some (cell g' who month).
Proof.
  destruct Hsame as (_ & _ & Hcell). specialize (Hcell who month).
  destruct (cell g who month), (cell g' who month); cbn in Hcell; try done.
  all: split; intros [? ?]; done.
Qed.

Lemma sameInsertions_size : size (Stats g) = 0%nat <-> size (Stats g') = 0%nat.
Proof.
  destruct Hsame as (_ & Hdom & _). rewrite !map_size_empty_iff. split; intros He.
  - apply map_empty. intros who. apply eq_None_not_Some. intros H%Hdom.
    rewrite He, lookup_empty in H. by destruct H.
  - apply map_empty. intros who. apply eq_None_not_Some. intros H%Hdom.
    rewrite He, lookup_empty in H. by destruct H.
Qed.

Lemma sameInsertions_uniqueMonths : uniqueMonths g = uniqueMonths g'.
Proof.
  apply set_eq. intros month. rewrite !uniqueMonths_elem_of. split.
  - intros (who & c & Hc).
    destruct (proj1 (sameInsertions_cell who month)) as [c' Hc']; [by eexists |].
    by exists who, c'.
  - intros (who & c & Hc).
    destruct (proj2 (sameInsertions_cell who month)) as [c' Hc']; [by eexists |].
    by exists who, c'.
Qed.

Lemma NoDup_pickMonth (h : GlobalStats) month :
  NoDup (omap (pickMonth month) (map_to_list (Stats h))).
Proof.
  eapply NoDup_fmap_1, pickMonth_NoDup, NoDup_fst_map_to_list.
Qed.

Lemma sameInsertions_rows month :
  omap (pickMonth month) (map_to_list (Stats g))
  ≡ₚ omap (pickMonth month) (map_to_list (Stats g')).
Proof.
  destruct Hsame as (_ & _ & Hcell).
  apply NoDup_Permutation; [apply NoDup_pickMonth.. |].
  intros [who n]. rewrite !pickMonth_elem_of by (by unfold GoMap.ranges).
  specialize (Hcell who month). split.
  - intros (c & Hc & ->). rewrite Hc in Hcell. cbn in Hcell.
    destruct (cell g' who month) as [c'|]; [| done]. exists c'. split; [done |].
    cbn in Hcell. congruence.
  - intros (c & Hc & ->). rewrite Hc in Hcell. cbn in Hcell.
    destruct (cell g who month) as [c'|]; [| done]. exists c'. split; [done |].
    cbn in Hcell. congruence.
Qed.

Lemma monthSum_rows (h : GlobalStats) month :
  monthSum h month = sumList (snd <$> omap (pickMonth month) (map_to_list (Stats h))).
Proof. unfold monthSum. rewrite mapSum_sumList. apply sumList_cellIns. Qed.

Lemma sameInsertions_monthSum month : monthSum g month = monthSum g' month.
Proof.
  rewrite !monthSum_rows. apply sumList_Permutation.
  apply fmap_Permutation, sameInsertions_rows.
Qed.

Lemma sameInsertions_months who ms ms' :
  Stats g !! who = Some ms -> Stats g' !! who = Some ms' ->
  Insertions <$> ms = Insertions <$> ms'.
Proof.
  intros Hms Hms'. destruct Hsame as (_ & _ & Hcell).
  apply map_eq. intros month. rewrite !lookup_fmap.
  specialize (Hcell who month). unfold cell in Hcell. by rewrite Hms, Hms' in Hcell.
Qed.

Lemma sameInsertions_authorInsertions : authorInsertions g = authorInsertions g'.
Proof.
  apply map_eq. intros who. rewrite !authorInsertions_lookup.
  destruct Hsame as (_ & Hdom & _). specialize (Hdom who).
  destruct (Stats g !! who) as [ms|] eqn:Hms, (Stats g' !! who) as [ms'|] eqn:Hms'.
  - pose proof (sameInsertions_months who ms ms' Hms Hms') as Heq. cbn.
    rewrite (mapSum_fmap Insertions ms), (mapSum_fmap Insertions ms'), Heq.
    destruct (decide (ms = ∅)) as [->|Hne], (decide (ms' = ∅)) as [->|Hne']; try done.
    + rewrite fmap_empty in Heq. symmetry in Heq. by apply fmap_empty_inv in Heq.
    + rewrite fmap_empty in Heq. by apply fmap_empty_inv in Heq.
  - destruct (proj1 Hdom) as [? ?]; [by eexists | done].
  - destruct (proj2 Hdom) as [? ?]; [by eexists | done].
  - done.
Qed.

Lemma sameInsertions_monthBlock month block :
  monthBlock g month block -> monthBlock g' month block.
Proof.
  rewrite !monthBlock_iff. intros (sorted & [Hperm Hsorted] & ->). exists sorted. split.
  - split; [| done]. by rewrite Hperm, sameInsertions_rows.
  - by rewrite sameInsertions_monthSum.
Qed.

Lemma sameInsertions_printStats out : printStats g out -> printStats g' out.
Proof.
  unfold printStats. destruct (decide (size (Stats g) = 0%nat)) as [Hz|Hnz].
  - intros ->. by rewrite decide_True by (by apply sameInsertions_size).
  - rewrite decide_False by (by rewrite <- sameInsertions_size).
    intros (seen & months & blocks & byAuthor & sorted & Hseen & Hm & Hb & Hby & Hs & ->).
    exists seen, months, blocks, byAuthor, sorted. split_and!.
    + by rewrite <- sameInsertions_uniqueMonths.
    + done.
    + eapply Forall2_impl; [done |]. apply sameInsertions_monthBlock.
    + by rewrite <- sameInsertions_authorInsertions.
    + done.
    + by destruct Hsame as [-> _].
Qed.

End same.

Lemma sameInsertions_sym g g' : sameInsertions g g' -> sameInsertions g' g.
Proof. intros (Ht & Hdom & Hcell). split_and!; [done | by intros who; rewrite Hdom | done]. Qed.

End DeletionFacts.

(** ** The sums of the report *)

Module SumFacts.

Import GoStrings Gitstats Spec GoIntFacts AggregateFacts ReportFacts PrintFacts DeletionFacts.

(** *** The totals after a scan *)

Lemma fold_addIns ts t :
  GoInt.wrap (fold_left addIns ts t) = GoInt.wrap (t + sumList (tupleIns <$> ts)).
Proof.
  revert t. induction ts as [|x ts IH]; intros t.
  - cbn. by rewrite Z.add_0_r.
  - cbn [fold_left]. rewrite IH, fmap_cons, sumList_cons. unfold addIns, GoInt.add.
    rewrite wrap_wrap_add_l. f_equal. lia.
Qed.

Lemma fold_addDel ts t :
  GoInt.wrap (fold_left addDel ts t) = GoInt.wrap (t + sumList (tupleDel <$> ts)).
Proof.
  revert t. induction ts as [|x ts IH]; intros t.
  - cbn. by rewrite Z.add_0_r.
  - cbn [fold_left]. rewrite IH, fmap_cons, sumList_cons. unfold addDel, GoInt.add.
    rewrite wrap_wrap_add_l. f_equal. lia.
Qed.

Lemma fold_addIns_inRange ts t : GoInt.inRange t -> GoInt.inRange (fold_left addIns ts t).
Proof.
  revert t. induction ts as [|x ts IH]; intros t Ht; [done |].
  cbn [fold_left]. apply IH, add_inRange.
Qed.

Lemma fold_addDel_inRange ts t : GoInt.inRange t -> GoInt.inRange (fold_left addDel ts t).
Proof.
  revert t. induction ts as [|x ts IH]; intros t Ht; [done |].
  cbn [fold_left]. apply IH, add_inRange.
Qed.

Lemma processOutput_totals first output g :
  GoInt.inRange (totalInsertions g) -> GoInt.inRange (totalDeletions g) ->
  totalInsertions (processOutput first output g)
  = GoInt.wrap (totalInsertions g + sumList (tupleIns <$> RecordParser output))
  /\ totalDeletions (processOutput first output g)
     = GoInt.wrap (totalDeletions g + sumList (tupleDel <$> RecordParser output)).
Proof.
  intros Hi Hd. rewrite processOutput_Aggregator, Aggregator_eq. cbn [totalInsertions totalDeletions].
  rewrite <- fold_addIns, <- fold_addDel.
  by rewrite !wrap_id by (by apply fold_addIns_inRange || by apply fold_addDel_inRange).
Qed.

(** *** The rows of a block and its summary *)

Lemma monthBlock_sum g month block :
  monthBlock g month block ->
  exists rows,
    block = ([Rule; MonthHeader month]
               ++ map (fun r => AuthorRow (fst r) (snd r)) rows
               ++ [MonthSummary (GoInt.wrap (sumList (snd <$> rows)))])%list.
Proof.
  intros (sorted & [Hperm _] & ->)%monthBlock_iff. exists sorted.
  rewrite monthSum_rows. do 5 f_equal. apply sumList_Permutation.
  by rewrite Hperm.
Qed.

(** *** The ranking and the grand total *)

Lemma authorInsertions_omap g :
  authorInsertions g
  = omap (fun months : gmap string ChangesStats =>
            if decide (months = ∅) then None
            else Some (GoInt.wrap (mapSum Insertions months))) (Stats g).
Proof. apply map_eq. intros who. by rewrite authorInsertions_lookup, lookup_omap. Qed.

Lemma wrap_mapSum_omap (m : gmap string (gmap string ChangesStats)) :
  GoInt.wrap (mapSum id
    (omap (fun months : gmap string ChangesStats =>
             if decide (months = ∅) then None
             else Some (GoInt.wrap (mapSum Insertions months))) m))
  = GoInt.wrap (cellSum Insertions m).
Proof.
  unfold cellSum. induction m as [|k ms m Hk IH] using map_ind.
  - by rewrite omap_empty, !mapSum_empty.
  - rewrite (mapSum_insert_None (mapSum Insertions)) by done.
    destruct (decide (ms = ∅)) as [->|Hne].
    + rewrite omap_insert_None by (by rewrite ?decide_True).
      rewrite delete_id by (by rewrite lookup_omap, Hk).
      rewrite mapSum_empty, Z.add_0_l. apply IH.
    + rewrite (omap_insert_Some _ _ _ _ (GoInt.wrap (mapSum Insertions ms)))
        by (by rewrite decide_False).
      rewrite mapSum_insert_None by (by rewrite lookup_omap, Hk).
      cbn [id]. rewrite wrap_wrap_add_l, <- wrap_wrap_add_r, IH, wrap_wrap_add_r. done.
Qed.

Lemma ranking_sum g ranking :
  consistent g -> ranking ≡ₚ map_to_list (authorInsertions g) ->
  totalInsertions g = GoInt.wrap (sumList (snd <$> ranking)).
Proof.
  intros [Hins _] Hperm. rewrite Hins, <- wrap_mapSum_omap, <- authorInsertions_omap.
  f_equal. rewrite mapSum_sumList. apply sumList_Permutation. by rewrite Hperm.
Qed.

Lemma main_ranking_sum env log out :
  main env log out -> out <> [] ->
  exists blocks ranking,
    out = (blocks ++ [BlueRule; DeveloperHeader]
             ++ map (fun r => DeveloperRow (fst r) (snd r)) ranking
             ++ [BlueRule; TotalSummary (GoInt.wrap (sumList (snd <$> ranking)))])%list.
Proof.
  assert (consistent (mainLoop env).1.2) as Hcons.
  { unfold mainLoop. apply LoopFacts.monthsLoop_invariant.
    - apply consistent_processOutput.
    - apply consistent_gb0. }
  unfold main. destruct (mainLoop env) as [[log' g] x]. cbn [fst snd] in *.
  intros [_ Hout] Hne. destruct x; [| done].
  unfold printStats in Hout. case_decide; [done |].
  destruct Hout as (seen & months & blocks & byAuthor & sorted & _ & _ & _ & Hby & [Hsp _] & ->).
  exists (concat blocks), sorted.
  rewrite <- (ranking_sum g sorted); [done | done |]. by rewrite Hsp, Hby.
Qed.

End SumFacts.

(** ** The text of the report *)

Module TextFacts.

Import GoStrings Gitstats Spec FmtPrint.
Import GoStringsFacts TimeFacts ReportFacts ScanFacts RunFacts FormatFacts PrintFacts.

Lemma countByte_app c a b : countByte c (a ++ b) = (countByte c a + countByte c b)%nat.
Proof. induction a as [|x a IH]; cbn [String.append countByte]; [done |]. rewrite IH. lia. Qed.

Lemma countByte_hasByte c s : hasByte c s = false -> countByte c s = 0%nat.
Proof.
  induction s as [|x s IH]; cbn [hasByte countByte]; [done |].
  intros [-> Hs]%orb_false_iff. by rewrite IH.
Qed.

Lemma hasByte_spaces n : hasByte newline (spaces n) = false.
Proof. induction n as [|n IH]; [done |]. cbn [spaces hasByte]. by rewrite IH. Qed.

Lemma length_spaces n : String.length (spaces n) = n.
Proof. induction n as [|n IH]; [done |]. cbn. by rewrite IH. Qed.

Lemma length_app (a b : string) :
  String.length (a ++ b) = (String.length a + String.length b)%nat.
Proof. induction a as [|x a IH]; cbn [String.append String.length]; [done |]. by rewrite IH. Qed.

(** *** Numbers *)

Lemma formatInt_spec x :
  exists ds, formatInt x = ((if (x <? 0)%Z then "-" else "") ++ ds)%string /\
    allDigits ds = true /\ ds <> "" /\ Fmt.decimal 0 ds = Some (Z.abs x).
Proof.
  unfold formatInt.
  destruct (digits_spec (Z.to_nat (Z.log2 (Z.abs x))) (Z.abs x) "") as (ds & Hds & Hall & Hne & Hval).
  { split; [lia | apply log2_pow10; lia]. }
  rewrite append_nil_r in Hds. rewrite Hds. by exists ds.
Qed.

Lemma hasByte_formatInt x : hasByte newline (formatInt x) = false.
Proof.
  destruct (formatInt_spec x) as (ds & -> & Hall & _).
  rewrite hasByte_app, (allDigits_hasByte newline ds) by done. by destruct (x <? 0).
Qed.

Lemma hasByte_appendInt x w : hasByte newline (GoTime.appendInt x w) = false.
Proof.
  destruct (appendInt_spec x w) as (ds & -> & Hall & _).
  rewrite hasByte_app, (allDigits_hasByte newline ds) by done. by destruct (x <? 0).
Qed.

Lemma length_digits fuel u acc (k : nat) :
  0 <= u < 10 ^ Z.of_nat (S k) ->
  (String.length (GoTime.digits fuel u acc) <= S k + String.length acc)%nat.
Proof.
  revert u acc k. induction fuel as [|fuel IH]; intros u acc k Hu; [cbn; lia |].
  rewrite digits_S. destruct (Z.ltb_spec u 10); [cbn; lia |].
  destruct k as [|k]; [change (10 ^ Z.of_nat 1) with 10 in Hu; lia |].
  rewrite pow10_S in Hu.
  etransitivity; [apply (IH _ _ k) |]; [| cbn; lia].
  split; [apply Z.div_pos; lia | apply Z.div_lt_upper_bound; lia].
Qed.

Lemma length_formatInt x : 0 <= x <= 99999 -> (String.length (formatInt x) <= 5)%nat.
Proof.
  intros Hx. unfold formatInt. destruct (Z.ltb_spec x 0); [lia |].
  rewrite Z.abs_eq by lia. cbn [String.append].
  etransitivity; [apply (length_digits _ _ _ 4) |]; [| done].
  change (10 ^ Z.of_nat 5) with 100000. lia.
Qed.

(** *** Runes *)

Lemma runeCount_ASCII s : isASCII s = true -> Utf8.RuneCountInString s = String.length s.
Proof.
  unfold Utf8.RuneCountInString. induction s as [|c s IH]; [done |].
  cbn [isASCII]. intros [Hc Hs]%andb_true_iff. cbn [Utf8.runeCount String.length].
  unfold Utf8.runeSize. rewrite Hc. cbn [Nat.sub]. by rewrite IH.
Qed.

Lemma isASCII_digits s : allDigits s = true -> isASCII s = true.
Proof.
  induction s as [|c s IH]; [done |]. cbn [allDigits isASCII].
  intros [Hc Hs]%andb_true_iff. rewrite IH by done.
  unfold Regexp.isDigit in Hc. apply andb_true_iff in Hc as [_ Hc%Nat.leb_le].
  unfold Utf8.byte. apply andb_true_iff. split; [apply Z.ltb_lt; lia | done].
Qed.

Lemma isASCII_formatInt x : 0 <= x -> isASCII (formatInt x) = true.
Proof.
  intros Hx. destruct (formatInt_spec x) as (ds & -> & Hall & _).
  destruct (Z.ltb_spec x 0); [lia |]. by apply isASCII_digits.
Qed.

(** *** Rows *)

(** The name is written whole, whatever its length. *)
Lemma rowText_prefix who n :
  exists rest, rowText who n = ("  " ++ who ++ rest)%string.
Proof. unfold rowText, padRight. eexists. by rewrite !append_assoc. Qed.

(** Rows of short names and numbers of at most five digits have the
    same length: the columns are aligned. *)
Lemma rowText_length who n :
  isASCII who = true -> (String.length who <= 30)%nat -> 0 <= n <= 99999 ->
  String.length (rowText who n) = 54%nat.
Proof.
  intros Hwho Hlen Hn. unfold rowText, padRight, padLeft, padding.
  rewrite (runeCount_ASCII who Hwho), (runeCount_ASCII (formatInt n)) by (apply isASCII_formatInt; lia).
  pose proof (length_formatInt n Hn).
  rewrite !length_app, !length_spaces. cbn [String.length green reset endl]. lia.
Qed.

(** *** Lines *)

Lemma hasByte_padding wid s : hasByte newline (padding wid s) = false.
Proof. apply hasByte_spaces. Qed.

Lemma countByte_rowText who n :
  hasByte newline who = false -> countByte newline (rowText who n) = 1%nat.
Proof.
  intros Hwho. unfold rowText, padRight, padLeft. rewrite !countByte_app.
  rewrite (countByte_hasByte _ who), !(countByte_hasByte _ (padding _ _)),
    (countByte_hasByte _ (formatInt n))
    by (done || apply hasByte_padding || apply hasByte_formatInt).
  reflexivity.
Qed.

Lemma countByte_summary total :
  countByte newline (lineText (MonthSummary total)) = 1%nat
  /\ countByte newline (lineText (TotalSummary total)) = 1%nat.
Proof.
  cbn [lineText]. rewrite !countByte_app.
  rewrite (countByte_hasByte _ (formatInt total)) by apply hasByte_formatInt. done.
Qed.

Lemma hasByte_MonthString m : hasByte newline (GoTime.MonthString m) = false.
Proof.
  unfold GoTime.MonthString.
  destruct ((1 <=? m) && (m <=? 12)) eqn:E.
  - apply andb_true_iff in E as [H1%Z.leb_le H2%Z.leb_le].
    assert (m = 1 \/ m = 2 \/ m = 3 \/ m = 4 \/ m = 5 \/ m = 6 \/ m = 7 \/ m = 8 \/ m = 9
            \/ m = 10 \/ m = 11 \/ m = 12) as Hm by lia.
    destruct Hm as [->|[->|[->|[->|[->|[->|[->|[->|[->|[->|[->| ->]]]]]]]]]]]; reflexivity.
  - rewrite !hasByte_app, hasByte_appendInt. done.
Qed.

Lemma hasByte_monthKey t : hasByte newline (monthKey t) = false.
Proof.
  rewrite monthKey_eq, !hasByte_app, !hasByte_appendInt, hasByte_MonthString. done.
Qed.

Lemma countByte_stdout_plain ruled pre rest :
  Forall plain pre ->
  countByte newline (stdout ruled (pre ++ rest))
  = (length pre + countByte newline (stdout ruled rest))%nat.
Proof.
  induction 1 as [|l pre [Hl Hc] _ IH]; [done |].
  cbn [app length]. destruct l; try done; cbn [stdout]; rewrite countByte_app, Hc, IH; lia.
Qed.

Lemma plain_block g month block :
  cleanKeys g -> hasByte newline month = false ->
  monthBlock g month block -> Forall plain block.
Proof.
  intros Hkeys Hmonth (sorted & [Hperm _] & ->)%monthBlock_iff.
  repeat first [apply Forall_cons; split | apply Forall_app; split].
  - done.
  - split; [done |]. cbn [lineText]. rewrite !countByte_app.
    by rewrite (countByte_hasByte _ month).
  - apply Forall_forall. intros l (r & -> & Hin)%list_elem_of_fmap.
    split; [done |]. cbn [lineText]. apply countByte_rowText.
    destruct r as [who n]. rewrite Hperm in Hin.
    assert (GoMap.ranges (Stats g) (map_to_list (Stats g))) as Hr by (by unfold GoMap.ranges).
    apply (pickMonth_elem_of g month _ who n Hr) in Hin as (c & Hc & _).
    apply (Hkeys who). unfold cell in Hc. destruct (Stats g !! who); [by eexists | done].
  - split; [done |]. exact (proj1 (countByte_summary _)).
  - constructor.
Qed.

Lemma plain_blocks g months blocks :
  cleanKeys g -> Forall (fun month => hasByte newline month = false) months ->
  Forall2 (monthBlock g) months blocks -> Forall plain (concat blocks).
Proof.
  intros Hkeys Hmonths Hb. induction Hb as [|month block months blocks Hblock _ IH]; [constructor |].
  apply Forall_cons in Hmonths as [Hm Hms]. cbn [concat]. apply Forall_app. split.
  - by eapply plain_block.
  - by apply IH.
Qed.

Lemma countByte_BlueRule : countByte newline (lineText BlueRule) = 1%nat.
Proof. reflexivity. Qed.

Lemma countByte_footer rows total :
  Forall plain rows ->
  countByte newline (stdout false (BlueRule :: rows ++ [BlueRule; TotalSummary total]))
  = (length rows + 4)%nat.
Proof.
  intros Hrows. cbn [stdout]. rewrite !countByte_app, countByte_BlueRule.
  rewrite (countByte_stdout_plain true rows _ Hrows). cbn [stdout].
  rewrite !countByte_app, countByte_BlueRule, (proj2 (countByte_summary total)).
  change (countByte newline endl) with 1%nat. change (countByte newline "") with 0%nat. lia.
Qed.

(** The text of a report has one line for each of its entries and the
    empty line of line 205. *)
Lemma printStats_lines g out :
  cleanKeys g -> cleanMonths g -> printStats g out -> out <> [] ->
  countByte newline (stdout false out) = S (length out).
Proof.
  intros Hkeys Hmonths. unfold printStats. case_decide as Hsize; [by intros -> |].
  intros (seen & months & blocks & byAuthor & sorted & Hseen & [Hmp _] & Hb & Hby & [Hsp _] & ->) _.
  assert (Forall plain (concat blocks)) as Hplain.
  { eapply plain_blocks; [done | | done]. apply Forall_forall. intros month Hin.
    rewrite Hmp, Hseen in Hin. apply elem_of_elements, uniqueMonths_elem_of in Hin
      as (who & c & Hc). apply (Hmonths who). by eexists. }
  assert (Forall plain (DeveloperHeader :: map (fun r => DeveloperRow (fst r) (snd r)) sorted))
    as Hrows.
  { constructor; [done |]. apply Forall_forall. intros l (r & -> & Hin)%list_elem_of_fmap.
    split; [done |]. cbn [lineText]. apply countByte_rowText.
    destruct r as [who n]. rewrite Hsp in Hin.
    apply (authorInsertions_elem_of g byAuthor who n Hby) in Hin as (ms & Hms & _).
    apply (Hkeys who). by eexists. }
  rewrite (countByte_stdout_plain _ _ _ Hplain).
  change ([BlueRule; DeveloperHeader] ++ ?l)%list with (BlueRule :: (DeveloperHeader :: l)).
  rewrite (app_comm_cons _ _ DeveloperHeader), (countByte_footer _ _ Hrows).
  rewrite !List.length_app. cbn [length]. rewrite List.length_app. cbn [length]. lia.
Qed.

Lemma cleanMonths_mainLoop env : cleanMonths (mainLoop env).1.2.
Proof.
  intros who month Hc. apply mainLoop_monthsWithin in Hc as (i & _ & ->).
  apply hasByte_monthKey.
Qed.

Lemma cleanKeys_mainLoop env : cleanKeys (mainLoop env).1.2.
Proof.
  unfold mainLoop. apply LoopFacts.monthsLoop_invariant.
  - apply cleanKeys_processOutput.
  - apply cleanKeys_gb0.
Qed.

End TextFacts.

(** ** The samples *)

Module SampleFacts.

Import GoStrings Gitstats Spec Samples.

(** The two reports of the Aggregate with the tied authors. *)
Lemma printStats_tied first second :
  (first = "a@x" /\ second = "b@y") \/ (first = "b@y" /\ second = "a@x") ->
  printStats (processOutput march tied gb0) (reportTied first second).
Proof.
  intros Horder. unfold printStats.
  rewrite decide_False by (vm_compute; discriminate).
  exists [marchKey], [marchKey],
    [[Rule; MonthHeader marchKey; AuthorRow first 1; AuthorRow second 1; MonthSummary 2]],
    (map_to_list (authorInsertions (processOutput march tied gb0))),
    [(first, 1); (second, 1)].
  unfold GoMap.ranges, GoSort.sorts. split_and!.
  - vm_compute. reflexivity.
  - reflexivity.
  - repeat constructor.
  - constructor; [| constructor].
    exists (map_to_list (Stats (processOutput march tied gb0))), [(first, 1); (second, 1)].
    unfold GoMap.ranges, GoSort.sorts.
    split; [reflexivity |]. vm_compute. split; [| reflexivity].
    split; [| repeat constructor].
    destruct Horder as [[-> ->] | [-> ->]]; first [reflexivity | apply perm_swap].
  - reflexivity.
  - vm_compute. destruct Horder as [[-> ->] | [-> ->]]; first [reflexivity | apply perm_swap].
  - repeat constructor.
  - reflexivity.
Qed.

(** The report of the run with two authors in May. *)
Lemma main_envReport : main envReport (mainLoop envReport).1.1 reportOfMay.
Proof.
  unfold main.
  change (mainLoop envReport)
    with ((mainLoop envReport).1.1, (mainLoop envReport).1.2, LoopDone).
  split; [reflexivity |].
  unfold printStats.
  rewrite decide_False by (vm_compute; discriminate).
  exists [mayKey], [mayKey],
    [[Rule; MonthHeader mayKey; AuthorRow "b@y" 5; AuthorRow "a@x" 1; MonthSummary 6]],
    (map_to_list (authorInsertions (mainLoop envReport).1.2)),
    [("b@y", 5); ("a@x", 1)].
  unfold GoMap.ranges, GoSort.sorts. split_and!.
  - vm_compute. reflexivity.
  - reflexivity.
  - repeat constructor.
  - constructor; [| constructor].
    exists (map_to_list (Stats (mainLoop envReport).1.2)), [("b@y", 5); ("a@x", 1)].
    unfold GoMap.ranges, GoSort.sorts.
    split; [reflexivity |]. vm_compute. split; [| reflexivity].
    split; [first [reflexivity | apply perm_swap] | repeat constructor].
  - reflexivity.
  - vm_compute. first [reflexivity | apply perm_swap].
  - repeat constructor.
  - reflexivity.
Qed.

Lemma monthBlock_May :
  monthBlock (mainLoop envReport).1.2 mayKey
    [Rule; MonthHeader mayKey; AuthorRow "b@y" 5; AuthorRow "a@x" 1; MonthSummary 6].
Proof.
  exists (map_to_list (Stats (mainLoop envReport).1.2)), [("b@y", 5); ("a@x", 1)].
  unfold GoMap.ranges, GoSort.sorts.
  split; [reflexivity |]. vm_compute. split; [| reflexivity].
  split; [first [reflexivity | apply perm_swap] | repeat constructor].
Qed.

Lemma sameInsertions_oneCell d1 d2 : sameInsertions (oneCell d1) (oneCell d2).
Proof.
  split_and!; [done | |].
  - intros who. unfold oneCell. cbn [Stats]. rewrite !lookup_singleton_is_Some. done.
  - intros who month. unfold cell, oneCell. cbn [Stats].
    destruct (decide ("a@x" = who)) as [<-|Hne].
    + rewrite !lookup_singleton_eq. cbn [mbind option_bind].
      destruct (decide (marchKey = month)) as [<-|Hne'].
      * by rewrite !lookup_singleton_eq.
      * by rewrite !lookup_singleton_ne.
    + by rewrite !lookup_singleton_ne.
Qed.

End SampleFacts.

(** ** The outcome of [main] *)

Module OutcomeFacts.

Import GoStrings Gitstats Spec.

Lemma printStats_nonempty g out : size (Stats g) <> 0%nat -> printStats g out -> out <> [].
Proof.
  intros Hsize. unfold printStats. rewrite decide_False by done.
  intros (seen & months & blocks & byAuthor & sorted & _ & _ & _ & _ & _ & ->).
  intros H. apply (f_equal length) in H. rewrite !List.length_app in H. cbn in H. lia.
Qed.

Lemma main_exists env : exists log out, main env log out.
Proof.
  unfold main. destruct (mainLoop env) as [[log g] [|]].
  - destruct (PrintFacts.printStats_exists g) as [out Hout]. by exists log, out.
  - by exists log, [].
Qed.

(** [main] prints a report exactly when its loop ran to the end and a
    scan had a statistics line. *)
Lemma main_report_iff env log out :
  main env log out ->
  out <> []
  <-> (mainLoop env).2 = LoopDone
      /\ ~ Forall (fun s : scan => RecordParser (snd s) = [])
             (loopScans env (Z.to_nat (monthsBack env)) 0).
Proof.
  pose proof (RunFacts.mainLoop_scans env) as Hscans.
  unfold main. destruct (mainLoop env) as [[log' g] x]. cbn [fst snd] in *.
  intros [_ Hout]. destruct x.
  - assert (size (Stats g) = 0%nat
            <-> Forall (fun s : scan => RecordParser (snd s) = [])
                  (loopScans env (Z.to_nat (monthsBack env)) 0)) as Hempty.
    { rewrite map_size_empty_iff, Hscans, EmptyFacts.runScans_empty. cbn [Stats gb0]. tauto. }
    destruct (decide (size (Stats g) = 0%nat)) as [Hz|Hnz].
    + rewrite (ReportFacts.printStats_empty g out Hz Hout). split; [done |].
      intros [_ Hn]. exfalso. apply Hn. by apply Hempty.
    + split; [| intros _; by eapply printStats_nonempty].
      intros _. split; [done |]. by rewrite <- Hempty.
  - subst out. split; [done | by intros [? _]].
Qed.

End OutcomeFacts.

(** * The claims *)

(** C1: the tuples of the Record Parser are the updates the loop of
    [processDir] makes; it emits one tuple for each statistics line, in
    order, attributed to the last author line before it; on the log of the
    specification it yields the three tuples of alice and bob; and one
    author line followed by one summary line with [N] insertions and [M]
    deletions yields the single tuple of that author with [N] and [M]. *)
Theorem C1_record_parser :
  (forall output g,
     Gitstats.scanLines output g
     = Gitstats.mkScanState
         (default "" (Spec.lastAuthorLine (GoStrings.Split output GoStrings.newline)))
         (fold_left Spec.addLocal (Gitstats.RecordParser output) ∅)
         (fold_left Spec.addTotals (Gitstats.RecordParser output) g)) /\
  (forall output,
    length (Gitstats.RecordParser output)
    = length (List.filter Spec.isStatisticsLine (GoStrings.Split output GoStrings.newline))) /\
  (forall output before line after who,
    GoStrings.Split output GoStrings.newline = (before ++ line :: after)%list ->
    Spec.isStatisticsLine line = true ->
    Spec.lastAuthorLine before = Some who ->
    Gitstats.RecordParser output !! length (List.filter Spec.isStatisticsLine before)
    = Some (who, Gitstats.extractCount Gitstats.insertionRegex line,
      Gitstats.extractCount Gitstats.deletionRegex line)) /\
  Gitstats.RecordParser
  ("alice@x" ++ Spec.nl ++ " 1 file changed, 3 insertions(+)" ++ Spec.nl
    ++ " 2 file changed, 1 insertion(+), 1 deletion(-)" ++ Spec.nl
    ++ "bob@x" ++ Spec.nl ++ " 1 file changed, 5 insertions(+)" ++ Spec.nl)
  = [("alice@x", 3, 0); ("alice@x", 1, 1); ("bob@x", 5, 0)] /\
  (forall who files pf ins pi del pd N M,
    Spec.isAuthorLine who = true -> Spec.hasByte GoStrings.newline who = false ->
    Spec.allDigits files = true -> Spec.isPlural pf ->
    ins <> "" -> Fmt.decimal 0 ins = Some N -> N <= GoInt.maxInt -> Spec.isPlural pi ->
    del <> "" -> Fmt.decimal 0 del = Some M -> M <= GoInt.maxInt -> Spec.isPlural pd ->
    Gitstats.RecordParser (who ++ Spec.nl ++ Spec.shortstat files pf ins pi del pd ++ Spec.nl)
    = [(who, N, M)]).
Proof.
  split_and!.
  - intros output g. apply AggregateFacts.lineStep_fold.
  - intros output. apply RecordFacts.attributions_length.
  - intros output before line after who Hsplit Hstat Hwho.
    unfold Gitstats.RecordParser. rewrite Hsplit.
    rewrite RecordFacts.attributions_at by done. by rewrite Hwho.
  - vm_compute. reflexivity.
  - apply ShortstatFacts.RecordParser_single.
Qed.

Lemma C1_record_parser_witness :
  Gitstats.RecordParser ("carol@y" ++ Spec.nl ++ " 4 files changed, 12 insertions(+), 7 deletions(-)" ++ Spec.nl)
  !! 0%nat = Some ("carol@y", 12, 7) /\
  Gitstats.RecordParser ("carol@y" ++ Spec.nl ++ Spec.shortstat "4" "s" "12" "s" "1" "" ++ Spec.nl)
  = [("carol@y", 12, 1)].
Proof.
  split.
  - apply (proj1 (proj2 (proj2 C1_record_parser))
        ("carol@y" ++ Spec.nl ++ " 4 files changed, 12 insertions(+), 7 deletions(-)" ++ Spec.nl)
        ["carol@y"] " 4 files changed, 12 insertions(+), 7 deletions(-)" [""] "carol@y");
      vm_compute; reflexivity.
  - apply (proj2 (proj2 (proj2 (proj2 C1_record_parser))) "carol@y" "4" "s" "12" "s" "1" "" 12 1);
      first [ by right | by left | vm_compute; (reflexivity || discriminate) ].
Defined.

(** C2: after every fold of a scan into the Aggregate, each running total
    is the sum of its field over all the cells (the sum taken as an [int]):
    it holds of the empty Aggregate, every [processDir] that succeeds keeps
    it, and so it holds after any sequence of scans and at the end of the
    loop of [main]. *)
Theorem C2_totals_follow_cells :
  Spec.consistent Gitstats.gb0 /\
  (forall first output g,
    Spec.consistent g -> Spec.consistent (Gitstats.processOutput first output g)) /\
  (forall scans, Spec.consistent (Spec.runScans scans Gitstats.gb0)) /\
  (forall env, Spec.consistent (Gitstats.mainLoop env).1.2).
Proof.
  split_and!.
  - apply AggregateFacts.consistent_gb0.
  - apply AggregateFacts.consistent_processOutput.
  - intros scans. apply LoopFacts.runScans_invariant.
    + apply AggregateFacts.consistent_processOutput.
    + apply AggregateFacts.consistent_gb0.
  - intros env. unfold Gitstats.mainLoop. apply LoopFacts.monthsLoop_invariant.
    + apply AggregateFacts.consistent_processOutput.
    + apply AggregateFacts.consistent_gb0.
Qed.

Lemma C2_totals_follow_cells_witness :
  Spec.consistent
  (Gitstats.processOutput (GoTime.mkTime 2024 3 1)
    ("dan@z" ++ Spec.nl ++ " 1 file changed, 2 insertions(+), 9 deletions(-)" ++ Spec.nl)
    Gitstats.gb0).
Proof.
  apply (proj1 (proj2 C2_totals_follow_cells)).
  split; vm_compute; reflexivity.
Defined.

(** C3: the scans can be folded in any order, and within a scan the
    tuples in any order: the Aggregate, cells and totals, is the same. This
    holds of [processDir] run on the outputs of [git] and of the Aggregator
    run on tuples, which are the same function. *)
Theorem C3_fold_order_irrelevant :
  (forall scans1 scans2 g,
     scans1 ≡ₚ scans2 -> Spec.runScans scans1 g = Spec.runScans scans2 g) /\
  (forall scans1 scans2 g,
     scans1 ≡ₚ scans2 -> Spec.foldScans scans1 g = Spec.foldScans scans2 g) /\
  (forall month tuples1 tuples2 g,
     tuples1 ≡ₚ tuples2 ->
     Gitstats.Aggregator month tuples1 g = Gitstats.Aggregator month tuples2 g) /\
  (forall month tuples1 tuples2 g,
     Gitstats.Aggregator month (tuples1 ++ tuples2) g
     = Gitstats.Aggregator month tuples2 (Gitstats.Aggregator month tuples1 g)) /\
  (forall first output g,
     Gitstats.processOutput first output g
     = Gitstats.Aggregator (Gitstats.monthKey first) (Gitstats.RecordParser output) g).
Proof.
  split_and!.
  - apply AggregateFacts.runScans_Permutation.
  - intros scans1 scans2 g. apply AggregateFacts.fold_left_Permutation.
    intros. apply AggregateFacts.Aggregator_comm.
  - apply AggregateFacts.Aggregator_Permutation.
  - intros month tuples1 tuples2 g. apply fold_left_app.
  - apply AggregateFacts.processOutput_Aggregator.
Qed.

Lemma C3_fold_order_irrelevant_witness :
  Spec.runScans
  [(GoTime.mkTime 2024 3 1, "eve@w" ++ Spec.nl ++ " 1 file changed, 4 insertions(+)" ++ Spec.nl);
    (GoTime.mkTime 2024 2 1, "eve@w" ++ Spec.nl ++ " 1 file changed, 1 deletion(-)" ++ Spec.nl)]
  Gitstats.gb0
  = Spec.runScans
  [(GoTime.mkTime 2024 2 1, "eve@w" ++ Spec.nl ++ " 1 file changed, 1 deletion(-)" ++ Spec.nl);
    (GoTime.mkTime 2024 3 1, "eve@w" ++ Spec.nl ++ " 1 file changed, 4 insertions(+)" ++ Spec.nl)]
  Gitstats.gb0.
Proof.
  apply (proj1 C3_fold_order_irrelevant). apply perm_swap.
Defined.

(** C4, as the code has it: a statistics line with no author line before
    it makes a tuple with the empty author key, the empty key then is in
    the Aggregate, and [processDir] fails only when [git] does; a
    statistics line after an author line never gets the empty key. *)
Theorem C4_statistics_before_author :
  (forall output before line after,
    GoStrings.Split output GoStrings.newline = (before ++ line :: after)%list ->
    Spec.isStatisticsLine line = true ->
    Spec.lastAuthorLine before = None ->
    Gitstats.RecordParser output !! length (List.filter Spec.isStatisticsLine before)
    = Some ("", Gitstats.extractCount Gitstats.insertionRegex line,
      Gitstats.extractCount Gitstats.deletionRegex line) /\
    forall first g, is_Some (Gitstats.Stats (Gitstats.processOutput first output g) !! "")) /\
  (forall env i first last dir g output,
    Gitstats.Output env i (Gitstats.gitArgs dir first last) = Gitstats.Ok output ->
    (Gitstats.processDir env i first last dir g).2
    = Gitstats.Ok (Gitstats.processOutput first output g)) /\
  (forall output before line after who,
    GoStrings.Split output GoStrings.newline = (before ++ line :: after)%list ->
    Spec.isStatisticsLine line = true ->
    Spec.lastAuthorLine before = Some who ->
    who <> "" /\
    Gitstats.RecordParser output !! length (List.filter Spec.isStatisticsLine before)
    = Some (who, Gitstats.extractCount Gitstats.insertionRegex line,
      Gitstats.extractCount Gitstats.deletionRegex line)).
Proof.
  split_and!.
  - intros output before line after Hsplit Hstat Hnone.
    assert (Gitstats.RecordParser output !! length (List.filter Spec.isStatisticsLine before)
        = Some ("", Gitstats.extractCount Gitstats.insertionRegex line,
          Gitstats.extractCount Gitstats.deletionRegex line)) as Hat.
    { unfold Gitstats.RecordParser. rewrite Hsplit.
      rewrite RecordFacts.attributions_at by done. by rewrite Hnone. }
    split; [done |]. intros first g. apply LoopFacts.processOutput_author.
    apply list_elem_of_fmap. eexists. split; [| by eapply list_elem_of_lookup_2]. done.
  - intros env i first last dir g output Hout.
    by rewrite (LoopFacts.processDir_Ok env i first last dir g output).
  - intros output before line after who Hsplit Hstat Hwho. split.
    + unfold Spec.lastAuthorLine in Hwho. apply last_Some_elem_of in Hwho.
      apply list_elem_of_In, filter_In in Hwho as [_ Hwho].
      unfold Spec.isAuthorLine in Hwho. apply andb_true_iff in Hwho as [Hne _].
      intros ->. done.
    + unfold Gitstats.RecordParser. rewrite Hsplit.
      rewrite RecordFacts.attributions_at by done. by rewrite Hwho.
Qed.

Lemma C4_statistics_before_author_witness :
  Gitstats.RecordParser Samples.noAuthor !! 0%nat = Some ("", 3, 0) /\
  is_Some (Gitstats.Stats (Gitstats.processOutput Samples.march Samples.noAuthor Gitstats.gb0) !! "").
Proof.
  destruct (proj1 C4_statistics_before_author Samples.noAuthor []
      " 1 file changed, 3 insertions(+)" [""]) as [Hat Hkey];
    [vm_compute; reflexivity.. |].
  split; [exact Hat | apply Hkey].
Defined.

(** C4 as the specification has it fails: the log that starts with a
    statistics line is parsed without an error, into a tuple with the
    empty author key, and the Aggregate has a cell under that key. *)
Lemma C4_counterexample :
  Gitstats.RecordParser Samples.noAuthor = [("", 3, 0)] /\
  Spec.cell (Gitstats.processOutput Samples.march Samples.noAuthor Gitstats.gb0)
  "" Samples.marchKey
  = Some (Gitstats.mkChangesStats 3 0).
Proof. split; vm_compute; reflexivity. Qed.

(** C5: a count whose clause is absent is 0; a count whose clause is
    present is read from the integer next to the unit word. *)
Theorem C5_counts_from_adjacent_integer (line : string) :
  (~ Spec.hasClause " insertion" "(+)" line ->
    Gitstats.extractCount Gitstats.insertionRegex line = 0) /\
  (~ Spec.hasClause " deletion" "(-)" line ->
    Gitstats.extractCount Gitstats.deletionRegex line = 0) /\
  (Spec.hasClause " insertion" "(+)" line ->
    Spec.adjacentCount " insertion" "(+)" line
    (Gitstats.extractCount Gitstats.insertionRegex line)) /\
  (Spec.hasClause " deletion" "(-)" line ->
    Spec.adjacentCount " deletion" "(-)" line
    (Gitstats.extractCount Gitstats.deletionRegex line)).
Proof.
  split_and!.
  - by apply (ParserFacts.extractCount_absent " insertion" "(+)").
  - by apply (ParserFacts.extractCount_absent " deletion" "(-)").
  - by apply (ParserFacts.extractCount_present " insertion" "(+)").
  - by apply (ParserFacts.extractCount_present " deletion" "(-)").
Qed.

Lemma C5_counts_witness :
  Gitstats.extractCount Gitstats.deletionRegex " 2 files changed, 10 insertions(+)" = 0 /\
  Spec.adjacentCount " insertion" "(+)" " 2 files changed, 10 insertions(+)"
  (Gitstats.extractCount Gitstats.insertionRegex " 2 files changed, 10 insertions(+)").
Proof.
  split.
  - apply (proj1 (proj2 (C5_counts_from_adjacent_integer " 2 files changed, 10 insertions(+)"))).
    apply RegexpFacts.FindStringSubmatch_None; [discriminate | reflexivity |].
    vm_compute. reflexivity.
  - apply (proj1 (proj2 (proj2 (C5_counts_from_adjacent_integer " 2 files changed, 10 insertions(+)")))).
    exists " 2 files changed, ", "10", "", "s". vm_compute.
    repeat split; (by right) || discriminate.
Defined.

(** C6 at the end of a month: on 31 March 2024 iteration 1 is March
    again, not February; it asks [git] for the window of March and files
    the counts under the key of March, so with [-m 2] the commit of March
    is counted twice. *)
Theorem C6_month_end_repeats_month :
  let now := GoTime.mkTime 2024 3 31 in
  Gitstats.iterationMonth now 0 = (2024, 3) /\
  Gitstats.iterationMonth now 1 = (2024, 3) /\
  GoTime.normMonth 2024 (3 - 1) = (2024, 2) /\
  GoTime.Format (Gitstats.firstDayOfMonth now 1) GoTime.layoutDate = "2024-03-01" /\
  GoTime.Format (Gitstats.lastDayOfMonth now 1) GoTime.layoutDate = "2024-03-31" /\
  Gitstats.monthKey (Gitstats.firstDayOfMonth now 1) = "(2024-03) March 2024" /\
  (Gitstats.mainLoop Samples.envMonthEnd).2 = Gitstats.LoopDone /\
  Spec.cell (Gitstats.mainLoop Samples.envMonthEnd).1.2 "a@x" "(2024-03) March 2024"
  = Some (Gitstats.mkChangesStats 2 0) /\
  Gitstats.totalInsertions (Gitstats.mainLoop Samples.envMonthEnd).1.2 = 2.
Proof. repeat split; vm_compute; reflexivity. Qed.

(** C7, as the code has it: the key is a function of the year and the
    month of the scan, so scans of the same calendar month have the same
    key and the same window whatever the day and the directory; for the
    years 0 to 9999 the keys are ordered as the months are. *)
Theorem C7_month_key :
  (forall t1 t2,
    GoTime.Year t1 = GoTime.Year t2 -> GoTime.Month t1 = GoTime.Month t2 ->
    Gitstats.monthKey t1 = Gitstats.monthKey t2) /\
  (forall now1 now2,
    Spec.validDate now1 -> Spec.validDate now2 ->
    GoTime.Year now1 = GoTime.Year now2 -> GoTime.Month now1 = GoTime.Month now2 ->
    Gitstats.firstDayOfMonth now1 0 = Gitstats.firstDayOfMonth now2 0 /\
    Gitstats.lastDayOfMonth now1 0 = Gitstats.lastDayOfMonth now2 0 /\
    Gitstats.monthKey (Gitstats.firstDayOfMonth now1 0)
    = Gitstats.monthKey (Gitstats.firstDayOfMonth now2 0)) /\
  (forall now1 i1 now2 i2,
    Gitstats.iterationMonth now1 i1 = Gitstats.iterationMonth now2 i2 ->
    Gitstats.firstDayOfMonth now1 i1 = Gitstats.firstDayOfMonth now2 i2 /\
    Gitstats.lastDayOfMonth now1 i1 = Gitstats.lastDayOfMonth now2 i2 /\
    Gitstats.monthKey (Gitstats.firstDayOfMonth now1 i1)
    = Gitstats.monthKey (Gitstats.firstDayOfMonth now2 i2)) /\
  (forall t1 t2,
    Spec.fourDigitYear t1 -> Spec.fourDigitYear t2 ->
    (GoStrings.Less (Gitstats.monthKey t1) (Gitstats.monthKey t2) = true
      <-> Spec.monthBefore t1 t2)).
Proof.
  assert (forall now1 i1 now2 i2,
      Gitstats.iterationMonth now1 i1 = Gitstats.iterationMonth now2 i2 ->
      Gitstats.firstDayOfMonth now1 i1 = Gitstats.firstDayOfMonth now2 i2 /\
      Gitstats.lastDayOfMonth now1 i1 = Gitstats.lastDayOfMonth now2 i2 /\
      Gitstats.monthKey (Gitstats.firstDayOfMonth now1 i1)
      = Gitstats.monthKey (Gitstats.firstDayOfMonth now2 i2)) as Hsame.
  { intros now1 i1 now2 i2 Heq.
    by rewrite !TimeFacts.firstDayOfMonth_eq, !TimeFacts.lastDayOfMonth_eq, Heq. }
  split_and!.
  - apply TimeFacts.monthKey_year_month.
  - intros now1 now2 [Hm1 Hd1] [Hm2 Hd2] Hy Hm. apply Hsame.
    rewrite !TimeFacts.iterationMonth_0 by done. by rewrite Hy, Hm.
  - apply Hsame.
  - apply TimeFacts.monthKey_Less.
Qed.

Lemma C7_month_key_witness :
  Gitstats.monthKey (Gitstats.firstDayOfMonth (GoTime.mkTime 2024 3 5) 0)
  = Gitstats.monthKey (Gitstats.firstDayOfMonth (GoTime.mkTime 2024 3 31) 0) /\
  GoStrings.Less (Gitstats.monthKey (GoTime.mkTime 2023 12 1))
  (Gitstats.monthKey (GoTime.mkTime 2024 1 1)) = true.
Proof.
  split.
  - apply (proj1 (proj2 C7_month_key) (GoTime.mkTime 2024 3 5) (GoTime.mkTime 2024 3 31));
      try reflexivity; split; vm_compute; split; discriminate.
  - apply (proj2 (proj2 (proj2 C7_month_key)) (GoTime.mkTime 2023 12 1) (GoTime.mkTime 2024 1 1));
      [split; vm_compute; split; discriminate.. | left; vm_compute; reflexivity].
Defined.

(** C7 as stated fails: asked for 24302 months on 15 January 2024, the
    loop reaches December of the years -1 and -2, whose keys are in the
    reverse of the calendar order. *)
Lemma C7_counterexample :
  let now := GoTime.mkTime 2024 1 15 in
  let earlier := Gitstats.firstDayOfMonth now 24301 in
  let later := Gitstats.firstDayOfMonth now 24289 in
  earlier = GoTime.mkTime (-2) 12 1 /\ later = GoTime.mkTime (-1) 12 1 /\
  Spec.monthBefore earlier later /\
  Gitstats.monthKey earlier = "(-0002-12) December -0002" /\
  Gitstats.monthKey later = "(-0001-12) December -0001" /\
  GoStrings.Less (Gitstats.monthKey earlier) (Gitstats.monthKey later) = false /\
  GoStrings.Less (Gitstats.monthKey later) (Gitstats.monthKey earlier) = true.
Proof.
  repeat split; try (vm_compute; reflexivity). left. vm_compute. reflexivity.
Qed.

(** C8: with one directory the failure of a scan ends the run, with no
    report; with several directories the failed one is reported and
    skipped and the remaining ones are scanned; when the base path cannot
    be listed the run ends at once. *)
Theorem C8_fault_isolation :
  (forall env (k : nat) e,
    Gitstats.allRepos env = false ->
    (k < Z.to_nat (Gitstats.monthsBack env))%nat ->
    (Gitstats.monthsLoop env k 0 Gitstats.gb0).2 = Gitstats.LoopDone ->
    let args := Gitstats.gitArgs (Gitstats.baseDir env)
    (Gitstats.firstDayOfMonth (Gitstats.Now env (Z.of_nat k)) (Z.of_nat k))
    (Gitstats.lastDayOfMonth (Gitstats.Now env (Z.of_nat k)) (Z.of_nat k)) in
    Gitstats.Output env (Z.of_nat k) args = Gitstats.Err e ->
    Gitstats.mainLoop env
    = (((Gitstats.monthsLoop env k 0 Gitstats.gb0).1.1
        ++ [Gitstats.LogPrintln (GoStrings.Join args " ");
          Gitstats.Println ("failed to execute command: " ++ e)%string])%list,
      (Gitstats.monthsLoop env k 0 Gitstats.gb0).1.2,
      Gitstats.Returned)) /\
  (forall env i first last before dir after g e,
    Gitstats.IsDir dir = true ->
    let args := Gitstats.gitArgs
    (Gitstats.filepathJoin env (Gitstats.baseDir env) (Gitstats.Name dir))
    first last in
    Gitstats.Output env i args = Gitstats.Err e ->
    Gitstats.dirsLoop env i first last (before ++ dir :: after) g
    = let (log1, g1) := Gitstats.dirsLoop env i first last before g in
    let (log2, g2) := Gitstats.dirsLoop env i first last after g1 in
    ((log1 ++ [Gitstats.LogPrintln (GoStrings.Join args " ");
          Gitstats.Println ("failed to execute command: " ++ e)%string]
        ++ log2)%list, g2)) /\
  (forall env n i g dirs,
    Gitstats.allRepos env = true ->
    Gitstats.ReadDir env i (Gitstats.baseDir env) = Gitstats.Ok dirs ->
    Gitstats.monthsLoop env (S n) i g
    = let (log, g1) := Gitstats.dirsLoop env i
    (Gitstats.firstDayOfMonth (Gitstats.Now env i) i)
    (Gitstats.lastDayOfMonth (Gitstats.Now env i) i) dirs g in
    let '(rest, g', x) := Gitstats.monthsLoop env n (i + 1) g1 in
    ((log ++ rest)%list, g', x)) /\
  (forall env (k : nat) e,
    Gitstats.allRepos env = true ->
    (k < Z.to_nat (Gitstats.monthsBack env))%nat ->
    (Gitstats.monthsLoop env k 0 Gitstats.gb0).2 = Gitstats.LoopDone ->
    Gitstats.ReadDir env (Z.of_nat k) (Gitstats.baseDir env) = Gitstats.Err e ->
    Gitstats.mainLoop env
    = (((Gitstats.monthsLoop env k 0 Gitstats.gb0).1.1
        ++ [Gitstats.Println ("Failed to read directory: " ++ e)%string])%list,
      (Gitstats.monthsLoop env k 0 Gitstats.gb0).1.2,
      Gitstats.Returned)) /\
  (forall env log out,
    (Gitstats.mainLoop env).2 = Gitstats.Returned ->
    Gitstats.main env log out -> out = []).
Proof.
  split_and!.
  - intros env k e Hone Hk Hdone args Herr. unfold Gitstats.mainLoop.
    replace (Z.to_nat (Gitstats.monthsBack env))
      with (k + S (Z.to_nat (Gitstats.monthsBack env) - S k))%nat by lia.
    rewrite LoopFacts.monthsLoop_app.
    destruct (Gitstats.monthsLoop env k 0 Gitstats.gb0) as [[log1 g1] x].
    simpl in Hdone. subst x. rewrite Z.add_0_l, LoopFacts.monthsLoop_S, Hone.
    cbv zeta. by rewrite (LoopFacts.processDir_Err _ _ _ _ _ _ e Herr).
  - intros env i first last before dir after g e Hdir args Herr.
    rewrite LoopFacts.dirsLoop_app.
    destruct (Gitstats.dirsLoop env i first last before g) as [log1 g1].
    rewrite LoopFacts.dirsLoop_cons, Hdir. cbv zeta.
    rewrite (LoopFacts.processDir_Err _ _ _ _ _ _ e Herr).
    by destruct (Gitstats.dirsLoop env i first last after g1) as [log2 g2].
  - intros env n i g dirs Hall Hdirs. by rewrite LoopFacts.monthsLoop_S, Hall, Hdirs.
  - intros env k e Hall Hk Hdone Herr. unfold Gitstats.mainLoop.
    replace (Z.to_nat (Gitstats.monthsBack env))
      with (k + S (Z.to_nat (Gitstats.monthsBack env) - S k))%nat by lia.
    rewrite LoopFacts.monthsLoop_app.
    destruct (Gitstats.monthsLoop env k 0 Gitstats.gb0) as [[log1 g1] x].
    simpl in Hdone. subst x. by rewrite Z.add_0_l, LoopFacts.monthsLoop_S, Hall, Herr.
  - intros env log out Hret. unfold Gitstats.main.
    destruct (Gitstats.mainLoop env) as [[log' g] x]. simpl in Hret. subst x.
    by intros [_ ->].
Qed.

Lemma C8_fault_isolation_witness :
  (Gitstats.mainLoop Samples.envSingle).2 = Gitstats.Returned /\
  length (Gitstats.mainLoop Samples.envSingle).1.1 = 3%nat /\
  (Gitstats.dirsLoop Samples.envMulti 0 Samples.march Samples.march
    [Gitstats.mkDirEntry "r1" true; Gitstats.mkDirEntry "r2" true] Gitstats.gb0).2
  = Gitstats.processOutput Samples.march Samples.oneInsertion Gitstats.gb0 /\
  Gitstats.mainLoop Samples.envNoListing
  = ([Gitstats.Println "Failed to read directory: open /nowhere: no such file or directory"],
    Gitstats.gb0, Gitstats.Returned).
Proof.
  pose proof (proj1 C8_fault_isolation Samples.envSingle 1%nat "exit status 128"
      eq_refl ltac:(vm_compute; lia) eq_refl eq_refl) as Hsingle.
  pose proof (proj1 (proj2 C8_fault_isolation) Samples.envMulti 0 Samples.march Samples.march
      [] (Gitstats.mkDirEntry "r1" true) [Gitstats.mkDirEntry "r2" true]
      Gitstats.gb0 "exit status 128" eq_refl eq_refl
      : Gitstats.dirsLoop Samples.envMulti 0 Samples.march Samples.march
      [Gitstats.mkDirEntry "r1" true; Gitstats.mkDirEntry "r2" true] Gitstats.gb0
      = _) as Hmulti.
  pose proof (proj1 (proj2 (proj2 (proj2 C8_fault_isolation))) Samples.envNoListing 0%nat
      "open /nowhere: no such file or directory"
      eq_refl ltac:(vm_compute; lia) eq_refl eq_refl) as Hlist.
  split_and!.
  - by rewrite Hsingle.
  - rewrite Hsingle. vm_compute. reflexivity.
  - rewrite Hmulti. vm_compute. reflexivity.
  - rewrite Hlist. vm_compute. reflexivity.
Defined.

(** C9: the report has one block for each month of the Aggregate, the
    months in ascending lexical order of their keys, the authors of a month
    in descending order of insertions; then the ranking of the authors by
    their insertions over all the months, in descending order; then the
    grand total, which is the sum of the subtotals of the months. *)
Theorem C9_report :
  (forall g out,
     size (Gitstats.Stats g) <> 0%nat -> Gitstats.printStats g out ->
     exists months,
       Spec.reportOf g months out /\ (Spec.consistent g -> Spec.totalOfMonths g months)) /\
  (forall env log out,
     Gitstats.main env log out ->
     (Gitstats.mainLoop env).2 = Gitstats.LoopDone ->
     size (Gitstats.Stats (Gitstats.mainLoop env).1.2) <> 0%nat ->
     exists months,
       Spec.reportOf (Gitstats.mainLoop env).1.2 months out /\
       Spec.totalOfMonths (Gitstats.mainLoop env).1.2 months).
Proof.
  assert (forall g out,
            size (Gitstats.Stats g) <> 0%nat -> Gitstats.printStats g out ->
            exists months,
              Spec.reportOf g months out /\
              (Spec.consistent g -> Spec.totalOfMonths g months)) as Hreport.
  { intros g out Hsize Hprint. unfold Gitstats.printStats in Hprint.
    rewrite decide_False in Hprint by done.
    destruct Hprint as (monthsSeen & monthsOrdered & blocks & byAuthor & sortedAuthors
                        & Hseen & Hmonths & Hblocks & Hby & Hauthors & ->).
    assert (NoDup monthsSeen) as Hnd by (rewrite Hseen; apply NoDup_elements).
    assert (NoDup monthsOrdered) as Hnd' by (by rewrite (proj1 Hmonths)).
    assert (Spec.monthsOfAggregate g monthsOrdered) as Hagg.
    { split; [by eapply ReportFacts.sorts_ascending |].
      intros month. rewrite (ReportFacts.sorts_elem_of _ _ _ _ Hmonths), Hseen.
      rewrite elem_of_elements. apply ReportFacts.uniqueMonths_elem_of. }
    exists monthsOrdered. split.
    - exists blocks, sortedAuthors. split_and!; [done | done | |].
      + eapply Forall2_impl; [done |]. apply ReportFacts.monthBlock_blockOf.
      + split_and!.
        * by eapply ReportFacts.sorts_descending.
        * eapply ReportFacts.sorts_NoDup_fst; [done |].
          by eapply ReportFacts.ranges_NoDup_fst.
        * intros who n. rewrite (ReportFacts.sorts_elem_of _ _ _ _ Hauthors).
          by apply ReportFacts.authorInsertions_elem_of.
    - intros Hcons. by apply ReportFacts.total_sum_of_months. }
  split; [done |].
  intros env log out Hmain Hdone Hsize.
  assert (Spec.consistent (Gitstats.mainLoop env).1.2) as Hcons.
  { unfold Gitstats.mainLoop. apply LoopFacts.monthsLoop_invariant.
    - apply AggregateFacts.consistent_processOutput.
    - apply AggregateFacts.consistent_gb0. }
  unfold Gitstats.main in Hmain.
  destruct (Gitstats.mainLoop env) as [[log' g] x]. simpl in *. subst x.
  destruct Hmain as [_ Hprint].
  destruct (Hreport g out Hsize Hprint) as (months & Hrep & Htotal).
  exists months. split; [done | by apply Htotal].
Qed.

Lemma C9_report_witness :
  exists months,
    Spec.reportOf (Gitstats.mainLoop Samples.envReport).1.2 months Samples.reportOfMay /\
    Spec.totalOfMonths (Gitstats.mainLoop Samples.envReport).1.2 months.
Proof.
  apply (proj2 C9_report Samples.envReport
           (Gitstats.mainLoop Samples.envReport).1.1 Samples.reportOfMay).
  - unfold Gitstats.main.
    change (Gitstats.mainLoop Samples.envReport)
      with ((Gitstats.mainLoop Samples.envReport).1.1,
            (Gitstats.mainLoop Samples.envReport).1.2, Gitstats.LoopDone).
    split; [reflexivity |].
    unfold Gitstats.printStats.
    rewrite decide_False by (vm_compute; discriminate).
    exists [Samples.mayKey], [Samples.mayKey],
      [[Gitstats.Rule; Gitstats.MonthHeader Samples.mayKey; Gitstats.AuthorRow "b@y" 5;
        Gitstats.AuthorRow "a@x" 1; Gitstats.MonthSummary 6]],
      (map_to_list (Gitstats.authorInsertions (Gitstats.mainLoop Samples.envReport).1.2)),
      [("b@y", 5); ("a@x", 1)].
    unfold GoMap.ranges, GoSort.sorts. split_and!.
    + vm_compute. reflexivity.
    + reflexivity.
    + repeat constructor.
    + constructor; [| constructor].
      exists (map_to_list (Gitstats.Stats (Gitstats.mainLoop Samples.envReport).1.2)),
        [("b@y", 5); ("a@x", 1)].
      unfold GoMap.ranges, GoSort.sorts.
      split; [reflexivity |]. vm_compute. split; [| reflexivity].
      split; [apply perm_swap | repeat constructor].
    + reflexivity.
    + vm_compute. apply perm_swap.
    + repeat constructor.
    + reflexivity.
  - vm_compute. reflexivity.
  - vm_compute. discriminate.
Defined.

(** C10, as the code has it: the counts are non-negative [int]s; as long
    as the totals do not overflow (the exact sums of the counts folded so
    far fit an [int]), every cell and both totals are non-negative, no
    fold decreases a cell or a total, and the totals are the exact sums of
    the cells. *)
Theorem C10_no_decrease_without_overflow :
  (forall re line, 0 <= Gitstats.extractCount re line <= GoInt.maxInt) /\
  (Spec.nonNegative Gitstats.gb0 /\ Spec.exact Gitstats.gb0) /\
  (forall first output g,
    Spec.nonNegative g -> Spec.exact g ->
    Gitstats.totalInsertions g
    + Spec.sumList (Spec.tupleIns <$> Gitstats.RecordParser output) <= GoInt.maxInt ->
    Gitstats.totalDeletions g
    + Spec.sumList (Spec.tupleDel <$> Gitstats.RecordParser output) <= GoInt.maxInt ->
    Spec.nonNegative (Gitstats.processOutput first output g) /\
    Spec.exact (Gitstats.processOutput first output g) /\
    Spec.neverDecreases g (Gitstats.processOutput first output g)).
Proof.
  split_and!.
  - apply AggregateFacts.extractCount_range.
  - apply AggregateFacts.nonNegative_gb0.
  - apply AggregateFacts.exact_gb0.
  - intros first output g. apply AggregateFacts.processOutput_no_overflow.
Qed.

Lemma C10_no_decrease_witness :
  Spec.neverDecreases Gitstats.gb0
  (Gitstats.processOutput Samples.march Samples.oneInsertion Gitstats.gb0).
Proof.
  apply (proj2 (proj2 C10_no_decrease_without_overflow)
      Samples.march Samples.oneInsertion Gitstats.gb0).
  - apply (proj1 (proj2 C10_no_decrease_without_overflow)).
  - apply (proj1 (proj2 C10_no_decrease_without_overflow)).
  - vm_compute. discriminate.
  - vm_compute. discriminate.
Defined.

(** C10 as stated fails: after a scan with [2^63 - 1] insertions the cell
    and the total are the largest [int]; one more insertion wraps both
    around to the smallest [int], negative and smaller than before. *)
Lemma C10_counterexample :
  let g1 := Gitstats.processOutput Samples.march Samples.hugeInsertions Gitstats.gb0 in
  let g2 := Gitstats.processOutput Samples.march Samples.oneInsertion g1 in
  Spec.cell g1 "a@x" Samples.marchKey = Some (Gitstats.mkChangesStats 9223372036854775807 0) /\
  Gitstats.totalInsertions g1 = 9223372036854775807 /\
  Spec.cell g2 "a@x" Samples.marchKey = Some (Gitstats.mkChangesStats (-9223372036854775808) 0) /\
  Gitstats.totalInsertions g2 = -9223372036854775808 /\
  ~ Spec.nonNegative g2 /\
  ~ Spec.neverDecreases g1 g2.
Proof.
  intros g1 g2.
  assert (Spec.cell g1 "a@x" Samples.marchKey
      = Some (Gitstats.mkChangesStats 9223372036854775807 0)) as H1
    by (vm_compute; reflexivity).
  assert (Spec.cell g2 "a@x" Samples.marchKey
      = Some (Gitstats.mkChangesStats (-9223372036854775808) 0)) as H2
    by (vm_compute; reflexivity).
  assert (Gitstats.totalInsertions g2 = -9223372036854775808) as H3
    by (vm_compute; reflexivity).
  split_and!; [done | vm_compute; reflexivity | done | done | |].
  - intros (_ & Hneg & _). rewrite H3 in Hneg. lia.
  - intros [Hcells _]. destruct (Hcells _ _ _ H1) as (c' & Hc' & Hle & _).
    rewrite H2 in Hc'. injection Hc' as <-. simpl in Hle. lia.
Qed.

(** * Further properties of the code *)

(** X1: the lines that the scan iterates over are the output of [git]:
    joined by newlines they give the output back, none of them contains a
    newline, and lines without a newline are what splitting their join
    returns. *)
Theorem lines_are_the_output :
  (forall output,
     GoStrings.Join (GoStrings.Split output GoStrings.newline) Spec.nl = output) /\
  (forall output,
     Forall (fun line => Spec.hasByte GoStrings.newline line = false)
       (GoStrings.Split output GoStrings.newline)) /\
  (forall lines,
     lines <> [] ->
     Forall (fun line => Spec.hasByte GoStrings.newline line = false) lines ->
     GoStrings.Split (GoStrings.Join lines Spec.nl) GoStrings.newline = lines).
Proof.
  split_and!.
  - intros output. apply LineFacts.Join_Split.
  - intros output. apply ScanFacts.Split_no_sep.
  - intros lines. apply LineFacts.Split_Join.
Qed.

Lemma lines_are_the_output_witness :
  GoStrings.Split (GoStrings.Join ["a@x"; " 1 file changed, 1 insertion(+)"; ""] Spec.nl)
    GoStrings.newline
  = ["a@x"; " 1 file changed, 1 insertion(+)"; ""].
Proof.
  apply (proj2 (proj2 lines_are_the_output)); [discriminate |].
  repeat constructor.
Defined.

(** X2: every author under which counts are filed is the empty string or
    a line of the output that is neither empty nor a statistics line; so
    no key of the Aggregate contains a newline or is a statistics line,
    after any scan and at the end of the loop of [main]. *)
Theorem author_keys_are_lines :
  (forall output t,
     t ∈ Gitstats.RecordParser output ->
     Spec.tupleAuthor t = ""
     \/ (Spec.tupleAuthor t ∈ GoStrings.Split output GoStrings.newline
         /\ Spec.isAuthorLine (Spec.tupleAuthor t) = true)) /\
  Spec.cleanKeys Gitstats.gb0 /\
  (forall first output g,
     Spec.cleanKeys g -> Spec.cleanKeys (Gitstats.processOutput first output g)) /\
  (forall env, Spec.cleanKeys (Gitstats.mainLoop env).1.2).
Proof.
  split_and!.
  - apply ScanFacts.RecordParser_author.
  - apply ScanFacts.cleanKeys_gb0.
  - apply ScanFacts.cleanKeys_processOutput.
  - apply TextFacts.cleanKeys_mainLoop.
Qed.

Lemma author_keys_are_lines_witness :
  Spec.cleanKeys (Gitstats.processOutput Samples.march Samples.twoAuthors Gitstats.gb0).
Proof.
  apply (proj1 (proj2 (proj2 author_keys_are_lines))).
  apply (proj1 (proj2 author_keys_are_lines)).
Defined.

(** X3: after a scan, the cell of an author who has a statistics line
    in the output holds, for the month of the scan, what it held before
    (zero when there was no cell) plus the insertions and the deletions of
    all the statistics lines of the author, as [int]s. *)
Theorem scan_adds_author_counts first output g who :
  Spec.tuplesOf who (Gitstats.RecordParser output) <> [] ->
  Spec.cell (Gitstats.processOutput first output g) who (Gitstats.monthKey first)
  = Some (Gitstats.mkChangesStats
      (GoInt.wrap
         (Gitstats.Insertions (Spec.cellOr0 (Gitstats.Stats g) who (Gitstats.monthKey first))
          + Spec.sumList (Spec.tupleIns <$> Spec.tuplesOf who (Gitstats.RecordParser output))))
      (GoInt.wrap
         (Gitstats.Deletions (Spec.cellOr0 (Gitstats.Stats g) who (Gitstats.monthKey first))
          + Spec.sumList (Spec.tupleDel <$> Spec.tuplesOf who (Gitstats.RecordParser output))))).
Proof.
  intros Hne. unfold Spec.cell. rewrite ScanFacts.processOutput_touched by done.
  cbn [mbind option_bind]. apply lookup_insert_eq.
Qed.

Lemma scan_adds_author_counts_witness :
  Spec.cell (Gitstats.processOutput Samples.march Samples.twoCommits Gitstats.gb0)
    "a@x" Samples.marchKey
  = Some (Gitstats.mkChangesStats 5 3).
Proof.
  exact (scan_adds_author_counts Samples.march Samples.twoCommits Gitstats.gb0 "a@x"
           ltac:(vm_compute; discriminate)).
Defined.

(** X4: a scan changes no cell of another month and no entry of an
    author without a statistics line in its output, it removes no cell,
    and the cells it adds are those of the month of the scan for the
    authors of its statistics lines. *)
Theorem scan_leaves_the_rest first output g :
  (forall who month,
     month <> Gitstats.monthKey first ->
     Spec.cell (Gitstats.processOutput first output g) who month = Spec.cell g who month) /\
  (forall who,
     Spec.tuplesOf who (Gitstats.RecordParser output) = [] ->
     Gitstats.Stats (Gitstats.processOutput first output g) !! who = Gitstats.Stats g !! who) /\
  (forall who month,
     is_Some (Spec.cell (Gitstats.processOutput first output g) who month)
     <-> is_Some (Spec.cell g who month)
         \/ (month = Gitstats.monthKey first
             /\ Spec.tuplesOf who (Gitstats.RecordParser output) <> [])).
Proof.
  split_and!.
  - intros who month. apply ScanFacts.processOutput_cell_ne.
  - intros who. apply ScanFacts.processOutput_untouched.
  - intros who month. apply ScanFacts.processOutput_cell_is_Some.
Qed.

Lemma scan_leaves_the_rest_witness :
  Spec.cell (Gitstats.processOutput Samples.march Samples.oneInsertion
               (Gitstats.mainLoop Samples.envReport).1.2) "b@y" Samples.mayKey
  = Spec.cell (Gitstats.mainLoop Samples.envReport).1.2 "b@y" Samples.mayKey.
Proof.
  apply (proj1 (scan_leaves_the_rest Samples.march Samples.oneInsertion
                  (Gitstats.mainLoop Samples.envReport).1.2)).
  vm_compute. discriminate.
Defined.

(** X5: an output without a statistics line (an empty output, or
    author lines only) leaves the Aggregate as it was. *)
Theorem scan_without_statistics first output g :
  List.filter Spec.isStatisticsLine (GoStrings.Split output GoStrings.newline) = [] ->
  Gitstats.processOutput first output g = g.
Proof. intros H%ScanFacts.RecordParser_nil. by apply ScanFacts.processOutput_nil. Qed.

Lemma scan_without_statistics_witness :
  Gitstats.processOutput Samples.march Samples.onlyAuthors Gitstats.gb0 = Gitstats.gb0
  /\ Gitstats.processOutput Samples.march "" Gitstats.gb0 = Gitstats.gb0.
Proof.
  split.
  - apply (scan_without_statistics Samples.march Samples.onlyAuthors Gitstats.gb0).
    vm_compute. reflexivity.
  - apply (scan_without_statistics Samples.march "" Gitstats.gb0). vm_compute. reflexivity.
Defined.

(** X6: the loop of lines 109-118 ranges over a Go map; whatever order
    the range takes, the Aggregate after the scan is the same. *)
Theorem range_order_irrelevant first output g entries :
  GoMap.ranges (Gitstats.stats (Gitstats.scanLines output g)) entries ->
  Gitstats.accumulateAll (Gitstats.monthKey first) entries
    (Gitstats.gb (Gitstats.scanLines output g))
  = Gitstats.processOutput first output g.
Proof. intros Hr. unfold Gitstats.processOutput. by eapply AggregateFacts.accumulateAll_ranges. Qed.

Lemma range_order_irrelevant_witness :
  Gitstats.accumulateAll Samples.marchKey [("b@y", (5, 3)); ("a@x", (1, 0))]
    (Gitstats.gb (Gitstats.scanLines Samples.twoAuthors Gitstats.gb0))
  = Gitstats.accumulateAll Samples.marchKey [("a@x", (1, 0)); ("b@y", (5, 3))]
    (Gitstats.gb (Gitstats.scanLines Samples.twoAuthors Gitstats.gb0)).
Proof.
  etransitivity; [| symmetry].
  - apply (range_order_irrelevant Samples.march Samples.twoAuthors Gitstats.gb0).
    unfold GoMap.ranges. vm_compute. first [reflexivity | apply perm_swap].
  - apply (range_order_irrelevant Samples.march Samples.twoAuthors Gitstats.gb0).
    unfold GoMap.ranges. vm_compute. first [reflexivity | apply perm_swap].
Defined.

(** X7: the Aggregate that [main] hands to [printStats] is the fold of
    the scans for which [git] succeeded, in the order of the loops, up to
    the iteration that ends the run; the loop runs to its end exactly when
    no iteration ends the run. *)
Theorem main_folds_scans env :
  (Gitstats.mainLoop env).1.2
  = Spec.runScans (Spec.loopScans env (Z.to_nat (Gitstats.monthsBack env)) 0) Gitstats.gb0 /\
  ((Gitstats.mainLoop env).2 = Gitstats.LoopDone
   <-> forall k, 0 <= k < Gitstats.monthsBack env -> is_Some (Spec.iterationScans env k)).
Proof.
  split; [apply RunFacts.mainLoop_scans |].
  unfold Gitstats.mainLoop. rewrite RunFacts.monthsLoop_LoopDone.
  split; intros H k Hk.
  - rewrite <- (Z.add_0_l k). apply H. lia.
  - rewrite Z.add_0_l. apply H. lia.
Qed.

(** X8: every month of the Aggregate at the end of the loop is the month
    of one of the iterations [0 .. m-1], so the report has at most [m]
    months; and every author of the Aggregate has a cell. *)
Theorem months_of_the_run env :
  Spec.monthsWithin env (Gitstats.mainLoop env).1.2 /\
  Spec.noEmptyAuthor (Gitstats.mainLoop env).1.2.
Proof.
  split; [apply RunFacts.mainLoop_monthsWithin |].
  unfold Gitstats.mainLoop. apply LoopFacts.monthsLoop_invariant.
  - apply ScanFacts.noEmptyAuthor_processOutput.
  - apply ScanFacts.noEmptyAuthor_gb0.
Qed.

(** X9: with [-a], the order in which [os.ReadDir] lists the entries of
    the base path does not matter to the Aggregate. *)
Theorem listing_order_irrelevant env i first last dirs1 dirs2 g :
  dirs1 ≡ₚ dirs2 ->
  (Gitstats.dirsLoop env i first last dirs1 g).2
  = (Gitstats.dirsLoop env i first last dirs2 g).2.
Proof. apply RunFacts.dirsLoop_Permutation. Qed.

Lemma listing_order_irrelevant_witness :
  (Gitstats.dirsLoop Samples.envMulti 0 Samples.march Samples.march
     [Gitstats.mkDirEntry "r1" true; Gitstats.mkDirEntry "r2" true] Gitstats.gb0).2
  = (Gitstats.dirsLoop Samples.envMulti 0 Samples.march Samples.march
     [Gitstats.mkDirEntry "r2" true; Gitstats.mkDirEntry "r1" true] Gitstats.gb0).2.
Proof.
  apply (listing_order_irrelevant Samples.envMulti 0 Samples.march Samples.march).
  apply perm_swap.
Defined.

(** X10: the loop over the entries of the base path runs [git] once for
    each entry that is a directory, in the order of the listing, and for
    no other entry; it prints one error for each directory in which [git]
    fails, and folds the scans of the others. *)
Theorem git_runs_for_directories_only env i first last dirs g :
  Spec.commands (Gitstats.dirsLoop env i first last dirs g).1
  = (fun d => Spec.commandLine
       (Gitstats.filepathJoin env (Gitstats.baseDir env) (Gitstats.Name d)) first last)
      <$> List.filter Gitstats.IsDir dirs /\
  Spec.printed (Gitstats.dirsLoop env i first last dirs g).1
  = Spec.dirErrors env i first last dirs /\
  (Gitstats.dirsLoop env i first last dirs g).2
  = Spec.runScans (Spec.dirScans env i first last dirs) g.
Proof.
  split_and!.
  - apply RunFacts.dirsLoop_commands.
  - apply RunFacts.dirsLoop_printed.
  - apply RunFacts.dirsLoop_scans.
Qed.

(** X11: when [main] returns from inside the loop, the last thing it
    did was to print an error. *)
Theorem early_return_prints_error env :
  (Gitstats.mainLoop env).2 = Gitstats.Returned ->
  exists log msg, (Gitstats.mainLoop env).1.1 = (log ++ [Gitstats.Println msg])%list.
Proof. apply RunFacts.monthsLoop_Returned. Qed.

Lemma early_return_prints_error_witness :
  exists log msg, (Gitstats.mainLoop Samples.envSingle).1.1 = (log ++ [Gitstats.Println msg])%list.
Proof. apply (early_return_prints_error Samples.envSingle). vm_compute. reflexivity. Defined.

(** X12: with one directory, a run whose loop runs to its end has
    logged one command for each month, for the base path, and has printed
    nothing. *)
Theorem single_directory_log env :
  Gitstats.allRepos env = false ->
  (Gitstats.mainLoop env).2 = Gitstats.LoopDone ->
  (Gitstats.mainLoop env).1.1
  = (fun j => Gitstats.LogPrintln (Spec.commandLine (Gitstats.baseDir env)
       (Gitstats.firstDayOfMonth (Gitstats.Now env j) j)
       (Gitstats.lastDayOfMonth (Gitstats.Now env j) j)))
      <$> seqZ 0 (Gitstats.monthsBack env) /\
  Spec.printed (Gitstats.mainLoop env).1.1 = [].
Proof.
  intros Hone Hdone. unfold Gitstats.mainLoop in *.
  rewrite (RunFacts.monthsLoop_single env _ 0 Gitstats.gb0 Hone Hdone).
  assert (seqZ 0 (Z.of_nat (Z.to_nat (Gitstats.monthsBack env)))
          = seqZ 0 (Gitstats.monthsBack env)) as ->.
  { unfold seqZ. by rewrite Nat2Z.id. }
  split; [done |].
  induction (seqZ 0 (Gitstats.monthsBack env)) as [|j js IH]; [done | exact IH].
Qed.

Lemma single_directory_log_witness :
  (Gitstats.mainLoop Samples.envReport).1.1
  = [Gitstats.LogPrintln (Spec.commandLine "." (GoTime.mkTime 2024 5 1) (GoTime.mkTime 2024 5 31))]
  /\ Spec.printed (Gitstats.mainLoop Samples.envReport).1.1 = [].
Proof.
  exact (single_directory_log Samples.envReport eq_refl eq_refl).
Defined.

(** X13: asked for no month ([-m 0] or a negative number), [main] runs
    nothing, logs nothing and prints nothing. *)
Theorem no_months_no_output env :
  Gitstats.monthsBack env <= 0 ->
  Gitstats.mainLoop env = ([], Gitstats.gb0, Gitstats.LoopDone) /\
  forall log out, Gitstats.main env log out -> log = [] /\ out = [].
Proof.
  intros Hm.
  assert (Gitstats.mainLoop env = ([], Gitstats.gb0, Gitstats.LoopDone)) as Hloop.
  { unfold Gitstats.mainLoop. by replace (Z.to_nat (Gitstats.monthsBack env)) with 0%nat by lia. }
  split; [done |]. intros log out. unfold Gitstats.main. rewrite Hloop.
  intros [-> Hprint]. split; [done |].
  by apply (ReportFacts.printStats_empty Gitstats.gb0).
Qed.

Lemma no_months_no_output_witness :
  Gitstats.mainLoop Samples.envNoMonths = ([], Gitstats.gb0, Gitstats.LoopDone).
Proof. apply (no_months_no_output Samples.envNoMonths). vm_compute. discriminate. Defined.

(** X14: the window of an iteration is one whole month of the calendar:
    [since] is its first day, [until] its last day (the 29th of a February
    in a leap year), and the day after [until] is the first day of the next
    month. *)
Theorem window_is_whole_month now i :
  Spec.validDate (Gitstats.firstDayOfMonth now i) /\
  Spec.validDate (Gitstats.lastDayOfMonth now i) /\
  Gitstats.firstDayOfMonth now i
  = GoTime.mkTime (Gitstats.iterationMonth now i).1 (Gitstats.iterationMonth now i).2 1 /\
  Gitstats.lastDayOfMonth now i
  = GoTime.mkTime (Gitstats.iterationMonth now i).1 (Gitstats.iterationMonth now i).2
      (GoTime.daysIn (Gitstats.iterationMonth now i).1 (Gitstats.iterationMonth now i).2) /\
  GoTime.AddDate (Gitstats.lastDayOfMonth now i) 0 0 1
  = GoTime.AddDate (Gitstats.firstDayOfMonth now i) 0 1 0 /\
  GoTime.Day (GoTime.AddDate (Gitstats.lastDayOfMonth now i) 0 0 1) = 1.
Proof.
  split_and!.
  - apply CalendarFacts.firstDayOfMonth_validDate.
  - apply CalendarFacts.lastDayOfMonth_validDate.
  - apply TimeFacts.firstDayOfMonth_eq.
  - apply TimeFacts.lastDayOfMonth_eq.
  - by rewrite CalendarFacts.day_after_window, CalendarFacts.month_after_window.
  - by rewrite CalendarFacts.day_after_window.
Qed.



(** X16: for the years 0 to 9999 the dates passed to [git] as
    [--since] and [--until] are written as [YYYY-MM-DD] and read back as
    the first and the last day of the month. *)
Theorem since_until_round_trip now i :
  0 <= (Gitstats.iterationMonth now i).1 <= 9999 ->
  Spec.parseDate (GoTime.Format (Gitstats.firstDayOfMonth now i) GoTime.layoutDate)
  = Some (Gitstats.firstDayOfMonth now i) /\
  Spec.parseDate (GoTime.Format (Gitstats.lastDayOfMonth now i) GoTime.layoutDate)
  = Some (Gitstats.lastDayOfMonth now i).
Proof.
  intros Hy. split.
  - apply FormatFacts.parseDate_Format; [apply CalendarFacts.firstDayOfMonth_validDate |].
    by rewrite TimeFacts.firstDayOfMonth_eq.
  - apply FormatFacts.parseDate_Format; [apply CalendarFacts.lastDayOfMonth_validDate |].
    by rewrite TimeFacts.lastDayOfMonth_eq.
Qed.

Lemma since_until_round_trip_witness :
  Spec.parseDate "2024-02-01" = Some (GoTime.mkTime 2024 2 1) /\
  Spec.parseDate "2024-02-29" = Some (GoTime.mkTime 2024 2 29).
Proof.
  exact (since_until_round_trip (GoTime.mkTime 2024 2 10) 0
           ltac:(vm_compute; split; discriminate)).
Defined.

(** X17: two months have the same key exactly when they have the same
    year and the same number, whatever the year: the counts of different
    months are never filed under one key. *)
Theorem month_keys_distinct t1 t2 :
  Gitstats.monthKey t1 = Gitstats.monthKey t2
  <-> GoTime.Year t1 = GoTime.Year t2 /\ GoTime.Month t1 = GoTime.Month t2.
Proof.
  split; [apply FormatFacts.monthKey_inj |].
  intros [Hy Hm]. by apply TimeFacts.monthKey_year_month.
Qed.

(** X18: [printStats] has a report for every Aggregate, and [main] an
    outcome for every environment: the sorts and the ranges over maps that
    the code relies on always have a result. *)
Theorem report_exists :
  (forall g, exists out, Gitstats.printStats g out) /\
  (forall env, exists log out, Gitstats.main env log out).
Proof. split; [apply PrintFacts.printStats_exists | apply OutcomeFacts.main_exists]. Qed.

(** X19: the reports that [printStats] may print for one Aggregate,
    whatever the order of the ranges over the maps and whatever the unstable
    sort does with ties, show the same numbers line by line and consist of
    the same lines: they differ at most in the order of authors with equal
    insertions. *)
Theorem report_numbers_unique g out1 out2 :
  Gitstats.printStats g out1 -> Gitstats.printStats g out2 ->
  Spec.shape <$> out1 = Spec.shape <$> out2 /\ out1 ≡ₚ out2.
Proof. apply PrintFacts.printStats_shape. Qed.

Lemma report_numbers_unique_witness :
  Spec.shape <$> Samples.reportTied "a@x" "b@y" = Spec.shape <$> Samples.reportTied "b@y" "a@x"
  /\ Samples.reportTied "a@x" "b@y" ≡ₚ Samples.reportTied "b@y" "a@x".
Proof.
  apply (report_numbers_unique
           (Gitstats.processOutput Samples.march Samples.tied Gitstats.gb0)).
  - apply SampleFacts.printStats_tied. by left.
  - apply SampleFacts.printStats_tied. by right.
Defined.

(** X20: the report does not depend on the deletions: two Aggregates
    with the same authors, the same insertions in every cell and the same
    total of insertions have the same reports. *)
Theorem report_ignores_deletions g g' out :
  Spec.sameInsertions g g' -> Gitstats.printStats g out <-> Gitstats.printStats g' out.
Proof.
  intros Hsame. split.
  - by apply DeletionFacts.sameInsertions_printStats.
  - by apply DeletionFacts.sameInsertions_printStats, DeletionFacts.sameInsertions_sym.
Qed.

Lemma report_ignores_deletions_witness :
  Gitstats.printStats (Samples.oneCell 7) Samples.reportOneCell
  <-> Gitstats.printStats (Samples.oneCell 0) Samples.reportOneCell.
Proof.
  apply (report_ignores_deletions (Samples.oneCell 7) (Samples.oneCell 0)).
  apply SampleFacts.sameInsertions_oneCell.
Defined.

(** X21: a row of the report shows the name of the author whole,
    whatever its length; for a name of at most 30 ASCII bytes and a number
    of at most five digits the row is 54 bytes long, so the columns of such
    rows are aligned. *)
Theorem row_alignment who n :
  (exists rest, Gitstats.rowText who n = ("  " ++ who ++ rest)%string) /\
  (Spec.isASCII who = true -> (String.length who <= 30)%nat -> 0 <= n <= 99999 ->
   String.length (Gitstats.rowText who n) = 54%nat).
Proof. split; [apply TextFacts.rowText_prefix | apply TextFacts.rowText_length]. Qed.

Lemma row_alignment_witness :
  String.length (Gitstats.rowText "b@y" 5) = 54%nat
  /\ String.length (Gitstats.rowText "alice@example.org" 12345) = 54%nat.
Proof.
  split.
  - apply (proj2 (row_alignment "b@y" 5)); [reflexivity | vm_compute; lia | lia].
  - apply (proj2 (row_alignment "alice@example.org" 12345)); [reflexivity | vm_compute; lia | lia].
Defined.

(** X22: the text of the report that [main] prints has one line for
    each entry of the report and the empty line before the ranking: no
    author and no month can break a line, since the keys of the Aggregate
    are lines of the output of [git] and formatted months. *)
Theorem report_text_lines env log out :
  Gitstats.main env log out -> out <> [] ->
  Spec.countByte GoStrings.newline (Gitstats.stdout false out) = S (length out).
Proof.
  pose proof (TextFacts.cleanKeys_mainLoop env) as Hkeys.
  pose proof (TextFacts.cleanMonths_mainLoop env) as Hmonths.
  unfold Gitstats.main. destruct (Gitstats.mainLoop env) as [[log' g] x]. cbn [fst snd] in *.
  intros [_ Hout] Hne. destruct x; [| done].
  by apply (TextFacts.printStats_lines g).
Qed.

Lemma report_text_lines_witness :
  Spec.countByte GoStrings.newline (Gitstats.stdout false Samples.reportOfMay) = 12%nat.
Proof.
  apply (report_text_lines Samples.envReport (Gitstats.mainLoop Samples.envReport).1.1).
  - apply SampleFacts.main_envReport.
  - discriminate.
Defined.

(** X23: [main] prints a report exactly when its loop ran to the end
    and the output of some scan had a statistics line; otherwise it prints
    no report at all, not even the totals. *)
Theorem report_iff_statistics env log out :
  Gitstats.main env log out ->
  out <> []
  <-> (Gitstats.mainLoop env).2 = Gitstats.LoopDone
      /\ ~ Forall (fun s : Spec.scan => Gitstats.RecordParser (snd s) = [])
             (Spec.loopScans env (Z.to_nat (Gitstats.monthsBack env)) 0).
Proof. apply OutcomeFacts.main_report_iff. Qed.

Lemma report_iff_statistics_witness :
  Samples.reportOfMay <> []
  <-> (Gitstats.mainLoop Samples.envReport).2 = Gitstats.LoopDone
      /\ ~ Forall (fun s : Spec.scan => Gitstats.RecordParser (snd s) = [])
             (Spec.loopScans Samples.envReport (Z.to_nat (Gitstats.monthsBack Samples.envReport)) 0).
Proof.
  apply (report_iff_statistics Samples.envReport (Gitstats.mainLoop Samples.envReport).1.1).
  apply SampleFacts.main_envReport.
Defined.

(** X24: in the report that [main] prints, the numbers of the ranking
    of the developers add up to the grand total of the last line, as
    [int]s. *)
Theorem developer_rows_sum_to_total env log out :
  Gitstats.main env log out -> out <> [] ->
  exists blocks ranking,
    out = (blocks ++ [Gitstats.BlueRule; Gitstats.DeveloperHeader]
             ++ map (fun r => Gitstats.DeveloperRow (fst r) (snd r)) ranking
             ++ [Gitstats.BlueRule;
                 Gitstats.TotalSummary (GoInt.wrap (Spec.sumList (snd <$> ranking)))])%list.
Proof. apply SumFacts.main_ranking_sum. Qed.

Lemma developer_rows_sum_to_total_witness :
  exists blocks ranking,
    Samples.reportOfMay
    = (blocks ++ [Gitstats.BlueRule; Gitstats.DeveloperHeader]
         ++ map (fun r => Gitstats.DeveloperRow (fst r) (snd r)) ranking
         ++ [Gitstats.BlueRule;
             Gitstats.TotalSummary (GoInt.wrap (Spec.sumList (snd <$> ranking)))])%list.
Proof.
  apply (developer_rows_sum_to_total Samples.envReport
           (Gitstats.mainLoop Samples.envReport).1.1).
  - apply SampleFacts.main_envReport.
  - discriminate.
Defined.

(** X25: in the block of a month, the numbers of the rows of the
    authors add up to the summary of the month, as [int]s. *)
Theorem month_rows_sum_to_summary g month block :
  Gitstats.monthBlock g month block ->
  exists rows,
    block = ([Gitstats.Rule; Gitstats.MonthHeader month]
               ++ map (fun r => Gitstats.AuthorRow (fst r) (snd r)) rows
               ++ [Gitstats.MonthSummary (GoInt.wrap (Spec.sumList (snd <$> rows)))])%list.
Proof. apply SumFacts.monthBlock_sum. Qed.

Lemma month_rows_sum_to_summary_witness :
  exists rows,
    [Gitstats.Rule; Gitstats.MonthHeader Samples.mayKey; Gitstats.AuthorRow "b@y" 5;
     Gitstats.AuthorRow "a@x" 1; Gitstats.MonthSummary 6]
    = ([Gitstats.Rule; Gitstats.MonthHeader Samples.mayKey]
         ++ map (fun r => Gitstats.AuthorRow (fst r) (snd r)) rows
         ++ [Gitstats.MonthSummary (GoInt.wrap (Spec.sumList (snd <$> rows)))])%list.
Proof.
  apply (month_rows_sum_to_summary (Gitstats.mainLoop Samples.envReport).1.2).
  apply SampleFacts.monthBlock_May.
Defined.

(** X26: a scan adds the insertions and the deletions of all its
    statistics lines to the running totals, as [int]s. *)
Theorem scan_adds_to_totals first output g :
  GoInt.inRange (Gitstats.totalInsertions g) -> GoInt.inRange (Gitstats.totalDeletions g) ->
  Gitstats.totalInsertions (Gitstats.processOutput first output g)
  = GoInt.wrap (Gitstats.totalInsertions g
                + Spec.sumList (Spec.tupleIns <$> Gitstats.RecordParser output))
  /\ Gitstats.totalDeletions (Gitstats.processOutput first output g)
     = GoInt.wrap (Gitstats.totalDeletions g
                   + Spec.sumList (Spec.tupleDel <$> Gitstats.RecordParser output)).
Proof. apply SumFacts.processOutput_totals. Qed.

Lemma scan_adds_to_totals_witness :
  Gitstats.totalInsertions (Gitstats.processOutput Samples.march Samples.twoCommits Gitstats.gb0)
  = 5
  /\ Gitstats.totalDeletions (Gitstats.processOutput Samples.march Samples.twoCommits Gitstats.gb0)
     = 3.
Proof.
  exact (scan_adds_to_totals Samples.march Samples.twoCommits Gitstats.gb0
           ltac:(vm_compute; split; discriminate) ltac:(vm_compute; split; discriminate)).
Defined.

(** X27: when a pattern matches a line, its capture group is the
    integer of the clause that starts first in the line, and the count is
    the number that these digits denote; a line has one such clause. *)
Theorem match_is_first_clause line :
  (forall g,
     Regexp.FindStringSubmatch Gitstats.insertionRegex line = Some g ->
     exists before after,
       Spec.firstClause " insertion" "(+)" line before g after
       /\ Spec.countOf g (Gitstats.extractCount Gitstats.insertionRegex line)) /\
  (forall g,
     Regexp.FindStringSubmatch Gitstats.deletionRegex line = Some g ->
     exists before after,
       Spec.firstClause " deletion" "(-)" line before g after
       /\ Spec.countOf g (Gitstats.extractCount Gitstats.deletionRegex line)) /\
  (forall before1 ds1 after1 before2 ds2 after2,
     Spec.firstClause " insertion" "(+)" line before1 ds1 after1 ->
     Spec.firstClause " insertion" "(+)" line before2 ds2 after2 ->
     before1 = before2 /\ ds1 = ds2) /\
  (forall before1 ds1 after1 before2 ds2 after2,
     Spec.firstClause " deletion" "(-)" line before1 ds1 after1 ->
     Spec.firstClause " deletion" "(-)" line before2 ds2 after2 ->
     before1 = before2 /\ ds1 = ds2).
Proof.
  split_and!.
  - intros g. by apply (ClauseFacts.extractCount_first " insertion" "(+)").
  - intros g. by apply (ClauseFacts.extractCount_first " deletion" "(-)").
  - intros *. by apply ClauseFacts.firstClause_unique.
  - intros *. by apply ClauseFacts.firstClause_unique.
Qed.

Lemma match_is_first_clause_witness :
  exists before after,
    Spec.firstClause " insertion" "(+)" " 1 file changed, 3 insertions(+), 9 insertions(+)"
      before "3" after
    /\ Spec.countOf "3"
         (Gitstats.extractCount Gitstats.insertionRegex
            " 1 file changed, 3 insertions(+), 9 insertions(+)").
Proof.
  apply (proj1 (match_is_first_clause " 1 file changed, 3 insertions(+), 9 insertions(+)")).
  vm_compute. reflexivity.
Defined.

(** X28: a line is taken for a statistics line exactly when the text
    [file changed] or [files changed] occurs somewhere in it, wherever that
    is; every other line that is not empty becomes the author. *)
Theorem statistics_line_iff line :
  (Gitstats.isStatLine line = true
   <-> exists a b, line = (a ++ "files changed" ++ b)%string
                   \/ line = (a ++ "file changed" ++ b)%string) /\
  (forall st,
     line <> "" -> Gitstats.isStatLine line = false ->
     Gitstats.lineStep st line
     = Gitstats.mkScanState line (Gitstats.stats st) (Gitstats.gb st)).
Proof.
  split.
  - unfold Gitstats.isStatLine. rewrite orb_true_iff, !LineFacts.Contains_iff. split.
    + intros [(a & b & ->) | (a & b & ->)]; exists a, b; [by left | by right].
    + intros (a & b & [-> | ->]); [left | right]; by exists a, b.
  - intros st Hne Hstat. unfold Gitstats.lineStep. rewrite Hstat.
    destruct (String.eqb_spec line ""); done.
Qed.

Lemma statistics_line_iff_witness :
  Gitstats.lineStep (Gitstats.mkScanState "" ∅ Gitstats.gb0) "a@x"
  = Gitstats.mkScanState "a@x" ∅ Gitstats.gb0.
Proof.
  apply (proj2 (statistics_line_iff "a@x") (Gitstats.mkScanState "" ∅ Gitstats.gb0));
    [discriminate | reflexivity].
Defined.
